(** * boxbox: base classes for GPIO hardware (hardware/component.py)

    A shallow embedding of [hardware/component.py] and the properties of its
    pipe protocol, its handler registry and its polling loop.

    Python objects are records, attribute mutation is explicit state passing
    in a small state-and-exception monad, the operating system (file system
    nodes, pipes, file objects) is a [World] record.  The Python built-ins the
    module calls ([str], [float], [bytes.partition], [str.split], UTF-8
    [encode]/[decode], [os.path.join]) are given as executable functions. *)

From Stdlib Require Import ZArith NArith List Bool Lia.
From Stdlib Require Import Strings.String Strings.Ascii Strings.Byte.
From Stdlib Require Import DecimalString Floats.
From stdpp Require Import base option list gmap.
Import ListNotations.

Local Open Scope Z_scope.

(* ================================================================== *)
(** * Python values, exceptions and the effect monad *)

Module Py.

(** The exception classes that the module names or that the built-ins it
    calls can raise.  [KeyboardInterrupt], [SystemExit] and [GeneratorExit]
    derive from [BaseException] only; every other one derives from
    [Exception]. *)
Inductive exn : Type :=
  | RuntimeError | TypeError | ValueError | KeyError | IndexError
  | AttributeError | UnicodeDecodeError | UnicodeEncodeError
  | FileNotFoundError | FileExistsError | IsADirectoryError | OSError
  | UserException (tag : nat)
  | KeyboardInterrupt | SystemExit | GeneratorExit.

#[global] Instance exn_eq_dec : EqDecision exn.
Proof. solve_decision. Defined.

(** [isinstance(e, Exception)] *)
Definition is_Exception (e : exn) : bool :=
  match e with
  | KeyboardInterrupt | SystemExit | GeneratorExit => false
  | _ => true
  end.

(** Outcome of a call: a returned value or a raised exception. *)
Inductive result (A : Type) : Type :=
  | Ok (a : A)
  | Raise (e : exn).
Arguments Ok {A} a.
Arguments Raise {A} e.

(** A computation over a mutable state [S]; the state survives a raise, as
    attribute assignments made before an exception stay made. *)
Definition M (S A : Type) : Type := S -> result A * S.

Definition ret {S A} (a : A) : M S A := fun s => (Ok a, s).
Definition raise {S A} (e : exn) : M S A := fun s => (Raise e, s).
Definition bind {S A B} (m : M S A) (k : A -> M S B) : M S B :=
  fun s => match m s with
           | (Ok a, s') => k a s'
           | (Raise e, s') => (Raise e, s')
           end.
Definition get {S} : M S S := fun s => (Ok s, s).
Definition put {S} (s : S) : M S unit := fun _ => (Ok tt, s).
Definition modify {S} (f : S -> S) : M S unit := fun s => (Ok tt, f s).

(** [try: m  except E: h] for the exception classes selected by [catches]. *)
Definition try_except {S A} (m : M S A) (catches : exn -> bool)
    (h : exn -> M S A) : M S A :=
  fun s => match m s with
           | (Raise e, s') => if catches e then h e s' else (Raise e, s')
           | r => r
           end.

(** Run a computation on a part of the state. *)
Definition zoom {S T A} (proj : S -> T) (inj : T -> S -> S) (m : M T A)
    : M S A :=
  fun s => let '(r, t') := m (proj s) in (r, inj t' s).

(** [for x in xs: body x] *)
Fixpoint for_each {S A} (xs : list A) (body : A -> M S unit) : M S unit :=
  match xs with
  | [] => ret tt
  | x :: xs' => bind (body x) (fun _ => for_each xs' body)
  end.

(** [[f x for x in xs]] *)
Fixpoint list_comp {S A B} (xs : list A) (f : A -> M S B) : M S (list B) :=
  match xs with
  | [] => ret []
  | x :: xs' => bind (f x) (fun y =>
                bind (list_comp xs' f) (fun ys => ret (y :: ys)))
  end.

(** A pure call that may raise. *)
Definition lift_result {S A} (r : result A) : M S A := fun s => (r, s).

Definition result_bind {A B} (r : result A) (k : A -> result B) : result B :=
  match r with Ok a => k a | Raise e => Raise e end.

Fixpoint result_map {A B} (f : A -> result B) (xs : list A)
    : result (list B) :=
  match xs with
  | [] => Ok []
  | x :: xs' => result_bind (f x) (fun y =>
                result_bind (result_map f xs') (fun ys => Ok (y :: ys)))
  end.

End Py.
Export Py.

Declare Scope py_scope.
Delimit Scope py_scope with py.
Notation "x <- m ;; k" := (bind m (fun x => k))
  (at level 100, m at next level, right associativity) : py_scope.
Notation "m ;; k" := (bind m (fun _ => k))
  (at level 100, right associativity) : py_scope.
Local Open Scope py_scope.

(* ================================================================== *)
(** * The built-ins on [bytes] and [str] *)

(** [bytes] is a sequence of bytes, [str] a sequence of Unicode code
    points. *)
Abbreviation bytes := (list Byte.byte).
Abbreviation str := (list N).

Module Builtins.

#[global] Instance byte_eq_dec : EqDecision Byte.byte := Byte.byte_eq_dec.

(** Literals: [b "ab"] is [b"ab"], [u "ab"] is ["ab"] (ASCII text). *)
Definition b (s : string) : bytes := list_byte_of_string s.
Definition u (s : string) : str := map N_of_ascii (list_ascii_of_string s).

(** [b"\n"] and [","] *)
Definition LF : Byte.byte := x0a.
Definition COMMA : N := 44%N.

(** [sep in s], for a one-byte [sep] *)
Definition bytes_contains (sep : Byte.byte) (s : bytes) : bool :=
  existsb (Byte.eqb sep) s.

(** [s.partition(sep)], for a one-byte [sep]: the part before the first
    occurrence, the separator and the part after it; [(s, b"", b"")] when
    [sep] does not occur. *)
Fixpoint bytes_partition (sep : Byte.byte) (s : bytes)
    : bytes * bytes * bytes :=
  match s with
  | [] => ([], [], [])
  | c :: s' =>
      if Byte.eqb c sep then ([], [sep], s')
      else let '(h, m, t) := bytes_partition sep s' in (c :: h, m, t)
  end.

(** [sep in s], for a one-character [sep] *)
Definition str_contains (sep : N) (s : str) : bool :=
  existsb (N.eqb sep) s.

(** [s.split(sep)], for a one-character [sep] *)
Fixpoint str_split (sep : N) (s : str) : list str :=
  match s with
  | [] => [[]]
  | c :: s' =>
      if N.eqb c sep then [] :: str_split sep s'
      else match str_split sep s' with
           | f :: fs => (c :: f) :: fs
           | [] => [[c]]
           end
  end.

(** [sep.join(xs)] *)
Fixpoint str_join (sep : str) (xs : list str) : str :=
  match xs with
  | [] => []
  | [x] => x
  | x :: xs' => x ++ sep ++ str_join sep xs'
  end.

(** [s.startswith(c)] and [s.endswith(c)], for a one-character [c] *)
Definition str_startswith (c : N) (s : str) : bool :=
  match s with x :: _ => N.eqb x c | [] => false end.
Definition str_endswith (c : N) (s : str) : bool :=
  match last s with Some x => N.eqb x c | None => false end.

(** [str(z)] of an [int]: its decimal digits, a minus sign before a negative
    one. *)
Definition str_of_int (z : Z) : str :=
  u (DecimalString.NilZero.string_of_int (Z.to_int z)).

(** ** UTF-8 *)

Definition byte_of_N (n : N) : Byte.byte := default x00 (Byte.of_N n).

(** [chr(c).encode()]: strict UTF-8, surrogates are refused. *)
Definition encode_char (c : N) : result bytes :=
  if (c <? 0x80)%N then Ok [byte_of_N c]
  else if (c <? 0x800)%N then
    Ok [byte_of_N (N.lor 0xC0 (N.shiftr c 6));
        byte_of_N (N.lor 0x80 (N.land c 0x3F))]
  else if (c <? 0x10000)%N then
    if ((0xD800 <=? c) && (c <=? 0xDFFF))%N then Raise UnicodeEncodeError
    else
      Ok [byte_of_N (N.lor 0xE0 (N.shiftr c 12));
          byte_of_N (N.lor 0x80 (N.land (N.shiftr c 6) 0x3F));
          byte_of_N (N.lor 0x80 (N.land c 0x3F))]
  else if (c <? 0x110000)%N then
    Ok [byte_of_N (N.lor 0xF0 (N.shiftr c 18));
        byte_of_N (N.lor 0x80 (N.land (N.shiftr c 12) 0x3F));
        byte_of_N (N.lor 0x80 (N.land (N.shiftr c 6) 0x3F));
        byte_of_N (N.lor 0x80 (N.land c 0x3F))]
  else Raise UnicodeEncodeError.

(** [s.encode()] *)
Fixpoint encode (s : str) : result bytes :=
  match s with
  | [] => Ok []
  | c :: s' =>
      result_bind (encode_char c) (fun bs =>
      result_bind (encode s') (fun rest => Ok (bs ++ rest)))
  end.

(** A continuation byte [10xxxxxx] gives its six payload bits. *)
Definition continuation (x : Byte.byte) : option N :=
  let n := Byte.to_N x in
  if ((0x80 <=? n) && (n <=? 0xBF))%N then Some (N.land n 0x3F) else None.

(** A decoded scalar is accepted when it is not an overlong form (it needs
    the length it was written with), not a surrogate and at most U+10FFFF. *)
Definition scalar_ok (lo c : N) : bool :=
  ((lo <=? c) && (c <? 0x110000) && negb ((0xD800 <=? c) && (c <=? 0xDFFF)))%N.

(** [s.decode()]: strict UTF-8. *)
Fixpoint decode (s : bytes) : result str :=
  match s with
  | [] => Ok []
  | x0 :: s1 =>
      let n0 := Byte.to_N x0 in
      if (n0 <? 0x80)%N then
        result_bind (decode s1) (fun t => Ok (n0 :: t))
      else if (n0 <? 0xC0)%N then Raise UnicodeDecodeError
      else if (n0 <? 0xE0)%N then
        match s1 with
        | x1 :: s2 =>
            match continuation x1 with
            | Some c1 =>
                let c := N.lor (N.shiftl (N.land n0 0x1F) 6) c1 in
                if scalar_ok 0x80 c
                then result_bind (decode s2) (fun t => Ok (c :: t))
                else Raise UnicodeDecodeError
            | None => Raise UnicodeDecodeError
            end
        | _ => Raise UnicodeDecodeError
        end
      else if (n0 <? 0xF0)%N then
        match s1 with
        | x1 :: x2 :: s3 =>
            match continuation x1, continuation x2 with
            | Some c1, Some c2 =>
                let c := N.lor (N.shiftl (N.land n0 0x0F) 12)
                               (N.lor (N.shiftl c1 6) c2) in
                if scalar_ok 0x800 c
                then result_bind (decode s3) (fun t => Ok (c :: t))
                else Raise UnicodeDecodeError
            | _, _ => Raise UnicodeDecodeError
            end
        | _ => Raise UnicodeDecodeError
        end
      else if (n0 <? 0xF8)%N then
        match s1 with
        | x1 :: x2 :: x3 :: s4 =>
            match continuation x1, continuation x2, continuation x3 with
            | Some c1, Some c2, Some c3 =>
                let c := N.lor (N.shiftl (N.land n0 0x07) 18)
                               (N.lor (N.shiftl c1 12)
                                      (N.lor (N.shiftl c2 6) c3)) in
                if scalar_ok 0x10000 c
                then result_bind (decode s4) (fun t => Ok (c :: t))
                else Raise UnicodeDecodeError
            | _, _, _ => Raise UnicodeDecodeError
            end
        | _ => Raise UnicodeDecodeError
        end
      else Raise UnicodeDecodeError
  end.

(** ** [os.path.join(a, p)] (posixpath, two arguments) *)
Definition SLASH : N := 47%N.

Definition os_path_join (a p : str) : str :=
  if str_startswith SLASH p then p
  else if (bool_decide (a = []) || str_endswith SLASH a)%bool then a ++ p
  else a ++ [SLASH] ++ p.

End Builtins.
Export Builtins.

(* ================================================================== *)
(** * [float(text)] and [str(x)] of a float *)

(** The two conversions between text and floats are built-ins of the
    interpreter; the protocol code is written against this interface. *)
Class FloatConv : Type := {
  float_of_str : str -> result float;   (* float(text) *)
  str_of_float : float -> str           (* str(x), which is repr(x) *)
}.

(** The conversions of CPython 3 on ASCII text: [float] strips white space,
    accepts underscores between digits, a sign, [inf], [infinity] and [nan]
    in any case, and a decimal number with an optional exponent, which it
    rounds to the nearest binary64 value, ties to even; [str] gives the
    shortest digit string that reads back as the same float.  A code point
    above 126 is refused here: the folding of Unicode digits and spaces that
    [float] applies first is not part of this model. *)
Module CPython.

Definition is_space (c : N) : bool :=
  (((9 <=? c) && (c <=? 13)) || (c =? 32))%N.
Definition is_digit (c : N) : bool := ((48 <=? c) && (c <=? 57))%N.
Definition to_lower (c : N) : N :=
  if ((65 <=? c) && (c <=? 90))%N then (c + 32)%N else c.

Fixpoint lstrip (p : N -> bool) (s : str) : str :=
  match s with
  | c :: s' => if p c then lstrip p s' else s
  | [] => []
  end.

Definition strip (s : str) : str :=
  reverse (lstrip is_space (reverse (lstrip is_space s))).

(** Underscores are dropped; one is allowed only between two digits. *)
Fixpoint drop_underscores (prev : N) (s : str) : option str :=
  match s with
  | [] => if (prev =? 95)%N then None else Some []
  | c :: s' =>
      if (c =? 95)%N then
        if is_digit prev then drop_underscores c s' else None
      else if ((prev =? 95) && negb (is_digit c))%N then None
      else cons c <$> drop_underscores c s'
  end.

(** The leading digits of [s], as a number, how many there are, and the
    rest. *)
Fixpoint take_digits (acc : N) (n : Z) (s : str) : N * Z * str :=
  match s with
  | c :: s' =>
      if is_digit c then take_digits (10 * acc + (c - 48))%N (n + 1) s'
      else (acc, n, s)
  | [] => (acc, n, s)
  end.

Definition take_sign (s : str) : bool * str :=
  match s with
  | 45%N :: s' => (true, s')
  | 43%N :: s' => (false, s')
  | _ => (false, s)
  end.

(** The binary64 value nearest to [m * 10^e10], ties to even. *)
Definition round_decimal (neg : bool) (m : N) (e10 : Z) : float :=
  match m with
  | N0 => if neg then (-0)%float else 0%float
  | Npos p =>
      SF2Prim
        (if 0 <=? e10 then
           binary_normalize prec emax
             ((if neg then Z.neg p else Z.pos p) * 10 ^ e10) 0 false
         else
           SFdiv prec emax (S754_finite neg p 0)
             (S754_finite false (Z.to_pos (10 ^ (- e10))) 0))
  end.

(** [digits [. digits] [(e|E) [sign] digits]] with at least one digit before
    the exponent; an exponent without digits is not part of the number. *)
Definition parse_number (neg : bool) (s : str) : option float :=
  let '(m1, n1, s1) := take_digits 0 0 s in
  let '(m, n2, s2) :=
    match s1 with
    | 46%N :: t => take_digits m1 0 t
    | _ => (m1, 0, s1)
    end in
  if n1 + n2 =? 0 then None
  else
    match s2 with
    | [] => Some (round_decimal neg m (- n2))
    | c :: t =>
        if (to_lower c =? 101)%N then
          let '(eneg, t1) := take_sign t in
          match take_digits 0 0 t1 with
          | (e, ne, []) =>
              if ne =? 0 then None
              else Some (round_decimal neg m
                           ((if eneg then - Z.of_N e else Z.of_N e) - n2))
          | _ => None
          end
        else None
    end.

Definition parse_inf_or_nan (neg : bool) (s : str) : option float :=
  let s := map to_lower s in
  if bool_decide (s = u "inf") || bool_decide (s = u "infinity") then
    Some (if neg then neg_infinity else infinity)
  else if bool_decide (s = u "nan") then Some nan
  else None.

Definition float_parse (text : str) : result float :=
  if existsb (fun c => (126 <? c)%N) text then Raise ValueError
  else
    match drop_underscores 0 (strip text) with
    | None => Raise ValueError
    | Some s =>
        let '(neg, t) := take_sign s in
        match parse_number neg t with
        | Some x => Ok x
        | None =>
            match parse_inf_or_nan neg t with
            | Some x => Ok x
            | None => Raise ValueError
            end
        end
    end.

(** [x < 10^k] for [x = num/den] *)
Definition lt_pow10 (num den k : Z) : bool :=
  if 0 <=? k then num <? den * 10 ^ k else num * 10 ^ (- k) <? den.

(** The least [k] from [k0] on with [num/den < 10^k]. *)
Fixpoint find_decpt (fuel : nat) (num den k : Z) : Z :=
  match fuel with
  | O => k
  | S fuel' =>
      if lt_pow10 num den k then k else find_decpt fuel' num den (k + 1)
  end.

(** The shortest integer [d] and scale with [d * 10^scale] reading back as
    [x = num/den]: with [n] significant digits the two neighbours of [x] are
    tried, the nearer one that reads back wins, a tie goes to the even
    one. *)
Fixpoint shortest (fuel : nat) (n : Z) (x : float) (num den k : Z) : Z * Z :=
  match fuel with
  | O => (0, 0)
  | S fuel' =>
      let scale := k - n in
      let '(a, d) := if 0 <=? scale then (num, den * 10 ^ scale)
                     else (num * 10 ^ (- scale), den) in
      let q := a / d in
      let r := a mod d in
      let lo := PrimFloat.eqb (round_decimal false (Z.to_N q) scale) x in
      let hi := PrimFloat.eqb (round_decimal false (Z.to_N (q + 1)) scale) x in
      match lo, hi with
      | true, true =>
          if 2 * r <? d then (q, scale)
          else if d <? 2 * r then (q + 1, scale)
          else if Z.even q then (q, scale) else (q + 1, scale)
      | true, false => (q, scale)
      | false, true => (q + 1, scale)
      | false, false => shortest fuel' (n + 1) x num den k
      end
  end.

Definition digits_of (d : Z) : str := str_of_int d.

Definition strip_zeros (ds : str) : str :=
  reverse (lstrip (N.eqb 48) (reverse ds)).

Definition zeros (n : Z) : str := replicate (Z.to_nat n) 48%N.

(** The layout of [repr]: exponent form when the decimal point would sit
    more than 16 digits to the right of the first digit or 4 or more zeros to
    its left. *)
Definition format_repr (ds : str) (decpt : Z) : str :=
  let nd := Z.of_nat (length ds) in
  if (decpt <=? -4) || (16 <? decpt) then
    let e := decpt - 1 in
    let es := str_of_int (Z.abs e) in
    take 1 ds ++ (if 1 <? nd then u "." ++ drop 1 ds else [])
      ++ u "e" ++ (if e <? 0 then u "-" else u "+")
      ++ (if Z.abs e <? 10 then u "0" else []) ++ es
  else if decpt <=? 0 then u "0." ++ zeros (- decpt) ++ ds
  else if nd <=? decpt then ds ++ zeros (decpt - nd) ++ u ".0"
  else take (Z.to_nat decpt) ds ++ u "." ++ drop (Z.to_nat decpt) ds.

Definition float_repr (x : float) : str :=
  match Prim2SF x with
  | S754_zero s => if s then u "-0.0" else u "0.0"
  | S754_infinity s => if s then u "-inf" else u "inf"
  | S754_nan => u "nan"
  | S754_finite s m e =>
      let '(num, den) := if 0 <=? e then (Z.pos m * 2 ^ e, 1)
                         else (Z.pos m, 2 ^ (- e)) in
      let k := find_decpt 640 num den (-324) in
      let '(d, scale) := shortest 17 1 (PrimFloat.abs x) num den k in
      let ds := digits_of d in
      (if s then u "-" else [])
        ++ format_repr (strip_zeros ds) (Z.of_nat (length ds) + scale)
  end.

#[global] Instance conv : FloatConv :=
  {| float_of_str := float_parse; str_of_float := float_repr |}.

End CPython.

(* ================================================================== *)
(** * The operating system: file system nodes, pipes, file objects *)

Module OS.

(** What sits at a path.  A named pipe refers to its kernel pipe and carries
    its permission bits; directories and every other kind of file (regular
    files, links, devices) are told apart because [unlink] and [open] treat
    them differently. *)
Inductive node : Type :=
  | Fifo (pipe : nat) (mode : N)
  | Directory
  | OtherFile.

(** An unbuffered binary file object ([FileIO]) on a pipe. *)
Record fileobj : Type := { f_pipe : nat; f_closed : bool }.

(** Access rights of a process to directories are not part of the model.
    A pipe is the list of its buffers in use, the oldest first, as the
    kernel keeps them: what a write is given depends on them. *)
Record World : Type := {
  nodes : gmap (list N) node;     (* the name space *)
  pipes : gmap nat (list bytes);  (* the buffers of each pipe *)
  files : gmap nat fileobj;       (* the open file table *)
  umask : N;                      (* file creation mask of the process *)
}.

Definition set_nodes (f : gmap (list N) node -> gmap (list N) node)
    (w : World) : World :=
  {| nodes := f (nodes w); pipes := pipes w; files := files w;
     umask := umask w |}.
Definition set_pipes (f : gmap nat (list bytes) -> gmap nat (list bytes))
    (w : World) : World :=
  {| nodes := nodes w; pipes := f (pipes w); files := files w;
     umask := umask w |}.
Definition set_files (f : gmap nat fileobj -> gmap nat fileobj)
    (w : World) : World :=
  {| nodes := nodes w; pipes := pipes w; files := f (files w);
     umask := umask w |}.
Definition set_umask (m : N) (w : World) : World :=
  {| nodes := nodes w; pipes := pipes w; files := files w; umask := m |}.

(** The process environment, read once when the module is imported. *)
Class Environ : Type := { environ : gmap (list N) (list N) }.

(** [os.unlink(path)] *)
Definition unlink (path : str) : M World unit := fun w =>
  match nodes w !! path with
  | None => (Raise FileNotFoundError, w)
  | Some Directory => (Raise IsADirectoryError, w)
  | Some _ => (Ok tt, set_nodes (delete path) w)
  end.

(** [os.umask(mask)]: sets the mask, returns the previous one. *)
Definition os_umask (mask : N) : M World N := fun w =>
  (Ok (umask w), set_umask mask w).

(** [os.mkfifo(path)], with the default mode [0o666], which is [0x1b6]. *)
Definition mkfifo (path : str) : M World unit := fun w =>
  match nodes w !! path with
  | Some _ => (Raise FileExistsError, w)
  | None =>
      let p := fresh (dom (pipes w)) in
      (Ok tt,
       set_pipes (insert p [])
         (set_nodes (insert path (Fifo p (N.ldiff 0x1b6 (umask w)))) w))
  end.

(** [os.open(path, os.O_RDWR|os.O_NONBLOCK)]: a new descriptor on the pipe at
    [path].  Opening anything other than a pipe is outside the model. *)
Definition os_open (path : str) : M World nat := fun w =>
  match nodes w !! path with
  | None => (Raise FileNotFoundError, w)
  | Some Directory => (Raise IsADirectoryError, w)
  | Some OtherFile => (Raise OSError, w)
  | Some (Fifo p _) =>
      let d := fresh (dom (files w)) in
      (Ok d, set_files (insert d {| f_pipe := p; f_closed := false |}) w)
  end.

(** [open(d, "wb+", 0)]: the raw file object that wraps descriptor [d]. *)
Definition io_open (d : nat) : M World nat := ret d.

(** [f.close()]; closing a closed file is allowed. *)
Definition file_close (f : nat) : M World unit := fun w =>
  match files w !! f with
  | None => (Raise OSError, w)
  | Some o =>
      (Ok tt,
       set_files (insert f {| f_pipe := f_pipe o; f_closed := true |}) w)
  end.

(** The size of a pipe (Linux, [fs/pipe.c], with the defaults of the
    Raspberry Pi's kernels): a pipe has [PIPE_DEF_BUFFERS] buffers of one
    page each, 65536 bytes in all. *)
Definition PAGE_SIZE : Z := 4096.
Definition PIPE_DEF_BUFFERS : Z := 16.

(** New buffers for [data], a page each, as long as one of [free] is left:
    the buffers, and the data that found no room. *)
Fixpoint pipe_fill (free : nat) (data : bytes) : list bytes * bytes :=
  match data, free with
  | [], _ => ([], [])
  | _, O => ([], data)
  | _, S free' =>
      let '(bufs, rest) := pipe_fill free' (drop (Z.to_nat PAGE_SIZE) data) in
      (take (Z.to_nat PAGE_SIZE) data :: bufs, rest)
  end.

(** [write] on a pipe that may hold [max_usage] buffers, as [pipe_write] of
    the kernel does it without waiting: what the data has beyond whole
    pages goes into the last buffer when it fits there, the rest goes into
    new buffers while the pipe is not full.  The buffers afterwards and the
    number of bytes taken. *)
Definition pipe_write (max_usage : Z) (bufs : list bytes) (data : bytes)
    : list bytes * Z :=
  let total := Z.of_nat (length data) in
  let chars := total mod PAGE_SIZE in
  let '(bufs, data) :=
    match last bufs with
    | Some buf =>
        if (0 <? chars) && (Z.of_nat (length buf) + chars <=? PAGE_SIZE)
        then (removelast bufs ++ [buf ++ take (Z.to_nat chars) data],
              drop (Z.to_nat chars) data)
        else (bufs, data)
    | None => (bufs, data)
    end in
  let '(new, rest) :=
    pipe_fill (Z.to_nat (max_usage - Z.of_nat (length bufs))) data in
  (bufs ++ new, total - Z.of_nat (length rest)).

(** A [write(2)] with [O_NONBLOCK] on pipe [p]: the number of bytes taken,
    or nothing when the pipe took none of them ([EAGAIN]). *)
Definition pipe_put (p : nat) (data : bytes) (w : World)
    : option Z * World :=
  let '(bufs, n) :=
    pipe_write PIPE_DEF_BUFFERS (default [] (pipes w !! p)) data in
  if (n =? 0) && negb (bool_decide (data = [])) then (None, w)
  else (Some n, set_pipes (insert p bufs) w).

(** [f.read()] on a non-blocking pipe: every byte that is waiting, [None]
    when there is none; the buffers are given back. *)
Definition file_read (f : nat) : M World (option bytes) := fun w =>
  match files w !! f with
  | None => (Raise OSError, w)
  | Some o =>
      if f_closed o then (Raise ValueError, w)
      else match concat (default [] (pipes w !! f_pipe o)) with
           | [] => (Ok None, w)
           | data => (Ok (Some data), set_pipes (insert (f_pipe o) []) w)
           end
  end.

(** [f.write(data)] on a non-blocking pipe: one [write(2)]; the number of
    bytes the pipe took, which may be less than given, or [None] when it
    took none. *)
Definition file_write (f : nat) (data : bytes) : M World (option Z) :=
  fun w =>
  match files w !! f with
  | None => (Raise OSError, w)
  | Some o =>
      if f_closed o then (Raise ValueError, w)
      else (Ok (fst (pipe_put (f_pipe o) data w)),
            snd (pipe_put (f_pipe o) data w))
  end.

(** Another process has written [data] into pipe [p]: the bytes are laid
    out in buffers as a write lays them out.  How the other process waits
    for room is not part of the model, so all of [data] arrives; what is
    proved of a reader for every such arrival holds for those a pipe can
    hold. *)
Definition peer_write (p : nat) (data : bytes) (w : World) : World :=
  set_pipes
    (insert p
       (fst (pipe_write
               (Z.of_nat (length (default [] (pipes w !! p)) + length data))
               (default [] (pipes w !! p)) data)))
    w.

Definition empty_world : World :=
  {| nodes := ∅; pipes := ∅; files := ∅; umask := 0x12 |}.

End OS.
Export OS.

(* ================================================================== *)
(** * hardware/component.py *)

(** [BASE_DIR = os.environ.get("IO_BASE_DIR","/var/run/")] *)
Definition BASE_DIR {env : Environ} : str :=
  default (u "/var/run/") (environ !! u "IO_BASE_DIR").

(** ** class FIFOFile *)
Module FIFOFile.

Record t : Type := { __filename : str; __fd : nat }.

Definition is_FileNotFoundError (e : exn) : bool :=
  bool_decide (e = FileNotFoundError).

Definition __init__ {env : Environ} (fn : str) (num : Z) : M World t :=
  let filename := os_path_join BASE_DIR (fn ++ str_of_int num) in
  try_except (unlink filename) is_FileNotFoundError (fun _ => ret tt) ;;
  mask <- os_umask 0 ;;
  mkfifo filename ;;
  d <- os_open filename ;;
  fd <- io_open d ;;
  os_umask mask ;;
  ret {| __filename := filename; __fd := fd |}.

Definition close (self : t) : M World unit :=
  file_close (__fd self) ;;
  try_except (unlink (__filename self)) is_FileNotFoundError
    (fun _ => ret tt).

(** [__getattr__] hands [read] and [write] over to the file object. *)
Definition read (self : t) : M World (option bytes) := file_read (__fd self).
Definition write (self : t) (data : bytes) : M World (option Z) :=
  file_write (__fd self) data.

End FIFOFile.

(** ** class Component *)

(** What a caller hands to [writedata]: a number or a string, a [bytes]
    object, or a tuple or list of numbers and strings. *)
Inductive scalar : Type :=
  | Int (z : Z)
  | Float (x : float)
  | Str (s : str).

Inductive value : Type :=
  | Scalar (x : scalar)
  | Bytes (s : bytes)
  | Iterable (xs : list scalar).

(** What [readdata] returns for a line: a float, or a tuple of floats. *)
Inductive reading : Type :=
  | Number (x : float)
  | Tuple (xs : list float).

Module Component.

Section WithBuiltins.
Context {conv : FloatConv} {env : Environ}.

Record t : Type := {
  _FN : option str;                 (* class attribute of the subclass *)
  __fn : str;
  __channels : list Z;              (* range(offset, numchannels + offset) *)
  __fifos : option (list FIFOFile.t);   (* None until init() assigns it *)
  __readdata : gmap Z bytes;        (* defaultdict(bytes) *)
  __initialized : bool;
}.

Definition set_fifos (v : option (list FIFOFile.t)) (c : t) : t :=
  {| _FN := _FN c; __fn := __fn c; __channels := __channels c;
     __fifos := v; __readdata := __readdata c;
     __initialized := __initialized c |}.
Definition set_readdata (v : gmap Z bytes) (c : t) : t :=
  {| _FN := _FN c; __fn := __fn c; __channels := __channels c;
     __fifos := __fifos c; __readdata := v;
     __initialized := __initialized c |}.
Definition set_initialized (v : bool) (c : t) : t :=
  {| _FN := _FN c; __fn := __fn c; __channels := __channels c;
     __fifos := __fifos c; __readdata := __readdata c;
     __initialized := v |}.

(** A method runs on the object and the world it lives in. *)
Definition state : Type := t * World.

Definition self : M state t := fun s => (Ok (fst s), s).
Definition update (f : t -> t) : M state unit :=
  fun s => (Ok tt, (f (fst s), snd s)).
Definition os {A} (m : M World A) : M state A :=
  zoom snd (fun w s => (fst s, w)) m.

(** [range(a, b)] *)
Definition range (a b : Z) : list Z := seqZ a (b - a).

(** [Component(fn, numchannels, offset)] for a class whose [_FN] attribute
    is [cls_FN] ([None] when the class has none). *)
Definition __init__ (cls_FN : option str) (fn : option str)
    (numchannels offset : Z) : result t :=
  result_bind
    (match fn with
     | Some (c :: f) => Ok (c :: f)
     | _ => match cls_FN with
            | Some f => Ok f
            | None => Raise AttributeError
            end
     end)
    (fun name =>
       Ok {| _FN := cls_FN; __fn := name;
             __channels := range offset (numchannels + offset);
             __fifos := None; __readdata := ∅;
             __initialized := false |}).

(** [l[i]] on a list: a negative index counts from the end. *)
Definition list_getitem {A} (l : list A) (i : Z) : result A :=
  let n := Z.of_nat (length l) in
  let j := if i <? 0 then i + n else i in
  if (0 <=? j) && (j <? n) then
    match l !! Z.to_nat j with
    | Some x => Ok x
    | None => Raise IndexError
    end
  else Raise IndexError.

(** [self.__fifos[channel]] *)
Definition fifo (channel : Z) : M state FIFOFile.t :=
  c <- self ;;
  match __fifos c with
  | None => raise AttributeError
  | Some l => lift_result (list_getitem l channel)
  end.

(** [self.__readdata[channel]]: a missing key is first set to [bytes()]. *)
Definition readdata_getitem (channel : Z) : M state bytes :=
  c <- self ;;
  match __readdata c !! channel with
  | Some v => ret v
  | None =>
      update (set_readdata (<[channel := []]> (__readdata c))) ;; ret []
  end.

(** [self.__readdata[channel] = v] *)
Definition readdata_setitem (channel : Z) (v : bytes) : M state unit :=
  c <- self ;;
  update (set_readdata (<[channel := v]> (__readdata c))).

(** [hasattr(data, "__iter__")]: strings and [bytes] are iterable too. *)
Definition hasattr_iter (data : value) : bool :=
  match data with
  | Scalar (Int _) | Scalar (Float _) => false
  | Scalar (Str _) | Bytes _ | Iterable _ => true
  end.

(** The items of [for i in data]: a string gives its characters, a [bytes]
    object the integer values of its bytes. *)
Definition iter (data : value) : list scalar :=
  match data with
  | Scalar (Str s) => map (fun c => Str [c]) s
  | Scalar _ => []
  | Bytes bs => map (fun x => Int (Z.of_N (Byte.to_N x))) bs
  | Iterable xs => xs
  end.

(** [str(i)] *)
Definition str_ (i : scalar) : str :=
  match i with
  | Int z => str_of_int z
  | Float x => str_of_float x
  | Str s => s
  end.

Definition writedata (data : value) (channel : Z) : M state unit :=
  let data :=
    if hasattr_iter data
    then Scalar (Str (str_join (u ",") (map str_ (iter data))))
    else data in
  data <- match data with
          | Bytes bs => ret bs
          | Scalar x => lift_result (encode (str_ x))
          | Iterable xs => raise TypeError
          end ;;
  f <- fifo channel ;;
  _ <- os (FIFOFile.write f (data ++ [LF])) ;;
  ret tt.

Definition readdata (channel : Z) : M state (option reading) :=
  f <- fifo channel ;;
  data <- os (FIFOFile.read f) ;;
  match data with
  | Some (c :: d) =>
      buf <- readdata_getitem channel ;;
      readdata_setitem channel (buf ++ c :: d)
  | _ => ret tt
  end ;;
  buf <- readdata_getitem channel ;;
  if bytes_contains LF buf then
    buf <- readdata_getitem channel ;;
    let '(data, newline, rest) := bytes_partition LF buf in
    readdata_setitem channel rest ;;
    text <- lift_result (decode data) ;;
    if str_contains COMMA text then
      xs <- list_comp (str_split COMMA text)
              (fun i => lift_result (float_of_str i)) ;;
      ret (Some (Tuple xs))
    else
      x <- lift_result (float_of_str text) ;;
      ret (Some (Number x))
  else ret None.

(** [_checkInit(quiet)]: the flag when [quiet], otherwise [None] or a raised
    [RuntimeError]. *)
Definition _checkInit (quiet : bool) : M state (option bool) :=
  c <- self ;;
  if quiet then ret (Some (__initialized c))
  else if negb (__initialized c) then raise RuntimeError
  else ret None.

Definition _set_init : M state unit := update (set_initialized true).

(** [self.__fifos.append(x)] *)
Definition fifos_append (x : FIFOFile.t) : M state unit :=
  c <- self ;;
  match __fifos c with
  | None => raise AttributeError
  | Some l => update (set_fifos (Some (l ++ [x])))
  end.

Definition init : M state unit :=
  c <- self ;;
  if Z.of_nat (length (__channels c)) <? 2 then
    f <- os (FIFOFile.__init__ (__fn c) 0) ;;
    update (set_fifos (Some [f]))
  else
    update (set_fifos (Some [])) ;;
    for_each (__channels c) (fun i =>
      f <- os (FIFOFile.__init__ (__fn c) i) ;;
      fifos_append f).

Definition cleanup : M state unit :=
  c <- self ;;
  match __fifos c with
  | None => raise AttributeError
  | Some l => for_each l (fun i => os (FIFOFile.close i))
  end ;;
  update (set_initialized false).

Definition __enter__ : M state unit := init.
Definition __exit__ : M state unit := cleanup.

End WithBuiltins.
End Component.

(** ** class EventedInput *)
Module EventedInput.

(** A key of [__handlers]: the string ["generic"] or a pin number. *)
Inductive key : Type :=
  | Generic
  | Pin (pin : Z).

#[global] Instance key_eq_dec : EqDecision key.
Proof. solve_decision. Defined.

#[global] Instance key_countable : Countable key.
Proof.
  refine (inj_countable'
            (fun k => match k with Generic => None | Pin p => Some p end)
            (fun o => match o with None => Generic | Some p => Pin p end) _).
  intros []; reflexivity.
Defined.

(** A [dict], in insertion order. *)
Section Dict.
Context {V : Type}.

(** [d[k] = v]: an existing key keeps its place, a new one goes last. *)
Fixpoint dict_set (k : Z) (v : V) (d : list (Z * V)) : list (Z * V) :=
  match d with
  | [] => [(k, v)]
  | (k', v') :: d' =>
      if k' =? k then (k, v) :: d' else (k', v') :: dict_set k v d'
  end.

Definition dict_mem (k : Z) (d : list (Z * V)) : bool :=
  existsb (fun kv => fst kv =? k) d.

(** [del d[k]], for a key that is present *)
Definition dict_del (k : Z) (d : list (Z * V)) : list (Z * V) :=
  List.filter (fun kv => negb (fst kv =? k)) d.

(** [list(d.values())] *)
Definition dict_values (d : list (Z * V)) : list V := map snd d.

End Dict.

Section WithCallbacks.
(** The callables that get registered, and what calling one with a pin does:
    it returns or raises, and it may itself use the registry. *)
Context {callback : Type}.

Record t : Type := {
  __next_id : Z;
  __handlers : gmap key (list (Z * callback));   (* defaultdict(dict) *)
}.

Variable call : callback -> Z -> M t unit.

(** What [_handle_pin] does that can be observed: calls of handlers and
    tracebacks printed by [print_exc]. *)
Inductive event : Type :=
  | Called (i : callback) (pin : Z)
  | Printed (e : exn).

Definition __init__ : t := {| __next_id := -1; __handlers := ∅ |}.

(** [self.__handlers[k]]: a missing key is first set to [dict()]; the inner
    dict is handed out by reference, which is its key here. *)
Definition handlers_getitem (k : key) : M t key := fun s =>
  match __handlers s !! k with
  | Some _ => (Ok k, s)
  | None =>
      (Ok k, {| __next_id := __next_id s;
                __handlers := <[k := []]> (__handlers s) |})
  end.

Definition the_dict (d : key) (s : t) : list (Z * callback) :=
  default [] (__handlers s !! d).

Definition _get_handlers (pin : option Z) (generic : bool) : M t key :=
  match pin, generic with
  | None, false => raise TypeError
  | _, true => handlers_getitem Generic
  | Some p, false => handlers_getitem (Pin p)
  end.

(** [d[hid] = callback] on the inner dict [d] *)
Definition setitem (d : key) (hid : Z) (cb : callback) : M t unit :=
  fun s =>
    (Ok tt, {| __next_id := __next_id s;
               __handlers :=
                 <[d := dict_set hid cb (the_dict d s)]> (__handlers s) |}).

(** [del d[hid]] on the inner dict [d] *)
Definition delitem (d : key) (hid : Z) : M t unit := fun s =>
  if dict_mem hid (the_dict d s) then
    (Ok tt, {| __next_id := __next_id s;
               __handlers :=
                 <[d := dict_del hid (the_dict d s)]> (__handlers s) |})
  else (Raise KeyError, s).

(** [list(d.values())] on the inner dict [d] *)
Definition values (d : key) : M t (list callback) := fun s =>
  (Ok (dict_values (the_dict d s)), s).

Definition add_handler (cb : callback) (pin : option Z) (generic : bool)
    : M t Z :=
  modify (fun s => {| __next_id := __next_id s + 1;
                      __handlers := __handlers s |}) ;;
  d <- _get_handlers pin generic ;;
  s <- get ;;
  setitem d (__next_id s) cb ;;
  s <- get ;;
  ret (__next_id s).

Definition remove_handler (hid : Z) (pin : option Z) (generic : bool)
    : M t unit :=
  d <- _get_handlers pin generic ;;
  delitem d hid.

Definition log (ev : event) : M (t * list event) unit :=
  fun s => (Ok tt, (fst s, snd s ++ [ev])).
Definition registry {A} (m : M t A) : M (t * list event) A :=
  zoom fst (fun r s => (r, snd s)) m.

Definition _handle_pin (pin : Z) : M (t * list event) unit :=
  gs <- registry (d <- _get_handlers None true ;; values d) ;;
  ps <- registry (d <- _get_handlers (Some pin) false ;; values d) ;;
  for_each (gs ++ ps) (fun i =>
    try_except (log (Called i pin) ;; registry (call i pin))
      is_Exception
      (fun e => log (Printed e))).

End WithCallbacks.
Arguments t : clear implicits.
Arguments event : clear implicits.

End EventedInput.

(** ** class LoopedComponent, mixed into a Component *)
Module LoopedComponent.

(** Where the thread that runs [runloop] stands: before the test of
    [self.__started], before the call of [self.tick()], before
    [waitms(self._mswait)], or ended by an exception that [tick] raised. *)
Inductive position : Type :=
  | AtTest
  | AtTick
  | AtWait
  | Ended.

Section WithTick.
Context {conv : FloatConv} {env : Environ}.

Record t : Type := {
  base : Component.t;       (* the attributes of the Component part *)
  __started : bool;
}.

Definition state : Type := t * World.

(** The [tick] method of the subclass works on the Component part and on
    the world. *)
Variable tick : M Component.state unit.

(** A call of a Component method on [self], as [super()] makes it. *)
Definition super {A} (m : M Component.state A) : M state A :=
  zoom (fun s => (base (fst s), snd s))
       (fun cs s => ({| base := fst cs; __started := __started (fst s) |},
                     snd cs))
       m.

Definition set_started (v : bool) : M state unit :=
  fun s => (Ok tt, ({| base := base (fst s); __started := v |}, snd s)).

(** [__init__]: the Component part is constructed, the thread is created and
    started with [__started] already [False]. *)
Definition __init__ (c : Component.t) : t :=
  {| base := c; __started := false |}.

Definition stop : M state unit := set_started false.

Definition start : M state unit :=
  _ <- super (Component._checkInit false) ;;
  set_started true.

Definition init (autostart : bool) : M state unit :=
  super Component.init ;;
  super Component._set_init ;;
  if autostart then start else ret tt.

Definition cleanup : M state unit :=
  s <- get ;;
  (if __started (fst s) then stop else ret tt) ;;
  super Component.cleanup.

(** The whole program: the object, the world, the position of the loop
    thread and the number of calls of [tick] so far. *)
Record system : Type := {
  obj : state;
  at_ : position;
  ticks : nat;
}.

(** One step of the thread that runs
    [while True: if self.__started: self.tick()  waitms(self._mswait)]. *)
Definition runloop_step (s : system) : system :=
  match at_ s with
  | AtTest =>
      {| obj := obj s;
         at_ := if __started (fst (obj s)) then AtTick else AtWait;
         ticks := ticks s |}
  | AtTick =>
      let '(r, o) := super tick (obj s) in
      {| obj := o;
         at_ := match r with Ok _ => AtWait | Raise _ => Ended end;
         ticks := S (ticks s) |}
  | AtWait => {| obj := obj s; at_ := AtTest; ticks := ticks s |}
  | Ended => s
  end.

(** What the other thread does between two steps of the loop. *)
Inductive call : Type :=
  | Init (autostart : bool)
  | Start
  | Stop
  | Cleanup.

Definition run_call (c : call) : M state unit :=
  match c with
  | Init a => init a
  | Start => start
  | Stop => stop
  | Cleanup => cleanup
  end.

(** A step of the program: one step of the loop thread, or a whole method
    call of the main thread. *)
Inductive action : Type :=
  | Loop
  | Main (c : call).

Definition step (a : action) (s : system) : system :=
  match a with
  | Loop => runloop_step s
  | Main c =>
      {| obj := snd (run_call c (obj s)); at_ := at_ s; ticks := ticks s |}
  end.

Definition run (acts : list action) (s : system) : system :=
  fold_left (fun s a => step a s) acts s.

(** The program right after [__init__]. *)
Definition boot (c : Component.t) (w : World) : system :=
  {| obj := (__init__ c, w); at_ := AtTest; ticks := 0 |}.

End WithTick.
End LoopedComponent.


(** ** class GPIOComponent(Component) *)
Module GPIOComponent.

(** What a pin is set up as: [gpio.OUT] with [initial=gpio.LOW], or
    [gpio.IN]. *)
Inductive direction : Type :=
  | OUT
  | IN.

(** [isinstance(e, ValueError)]: the two Unicode errors derive from
    [ValueError]; a [UserException] stands for a class that derives from
    [Exception] directly. *)
Definition is_ValueError (e : exn) : bool :=
  match e with
  | ValueError | UnicodeDecodeError | UnicodeEncodeError => true
  | _ => false
  end.

(** The line [init] prints for a pin that could not be set up:
    ["Error setting up pin {}. ({})".format(ch, repr(err))]. *)
Inductive line : Type :=
  | Error_setting_up_pin (ch : Z) (err : exn).

Section WithGpio.
Context {conv : FloatConv} {env : Environ}.

(** The module [RPi.GPIO] is not part of the repository.  Its state, the
    board, and the three functions the class calls are parameters: any of
    them may raise, and what they do to the board is theirs. *)
Variable Board : Type.
Variable gpio_setmode_BCM : M Board unit.          (* gpio.setmode(gpio.BCM) *)
Variable gpio_setup : Z -> direction -> M Board unit.
Variable gpio_cleanup : Z -> M Board unit.

Record t : Type := {
  base : Component.t;       (* the attributes of the Component part *)
  __out_pins : list Z;
  __in_pins : list Z;
}.

Record state : Type := {
  obj : t;
  world : World;
  board : Board;
  stdout : list line;
}.

(** A call of a Component method on [self]. *)
Definition super {A} (m : M Component.state A) : M state A :=
  zoom (fun s => (base (obj s), world s))
       (fun cs s => {| obj := {| base := fst cs;
                                 __out_pins := __out_pins (obj s);
                                 __in_pins := __in_pins (obj s) |};
                       world := snd cs;
                       board := board s;
                       stdout := stdout s |})
       m.

(** A call into [RPi.GPIO]. *)
Definition gpio {A} (m : M Board A) : M state A :=
  zoom board
       (fun b s => {| obj := obj s; world := world s; board := b;
                      stdout := stdout s |})
       m.

Definition print (l : line) : M state unit :=
  fun s => (Ok tt, {| obj := obj s; world := world s; board := board s;
                      stdout := stdout s ++ [l] |}).

(** [GPIOComponent(outpins, inpins, ...)], the Component part constructed
    from the other arguments.  The pins are two sequences of one type, as
    [cleanup] adds them. *)
Definition __init__ (outpins inpins : list Z) (c : Component.t) : t :=
  {| base := c; __out_pins := outpins; __in_pins := inpins |}.

(** The truth value of what [_checkInit] returned. *)
Definition truth (v : option bool) : bool :=
  match v with
  | Some b => b
  | None => false
  end.

Definition cleanup : M state bool :=
  v <- super (Component._checkInit true) ;;
  if negb (truth v) then ret false
  else
    super Component.cleanup ;;
    s <- get ;;
    for_each (__out_pins (obj s) ++ __in_pins (obj s))
      (fun ch => gpio (gpio_cleanup ch)) ;;
    ret true.

Definition init : M state unit :=
  super Component.init ;;
  v <- super (Component._checkInit true) ;;
  (if truth v then (_ <- cleanup ;; ret tt) else ret tt) ;;
  gpio gpio_setmode_BCM ;;
  s <- get ;;
  for_each (__out_pins (obj s)) (fun ch =>
    try_except (gpio (gpio_setup ch OUT)) is_ValueError
      (fun err => print (Error_setting_up_pin ch err))) ;;
  s <- get ;;
  for_each (__in_pins (obj s)) (fun ch =>
    try_except (gpio (gpio_setup ch IN)) is_ValueError
      (fun err => print (Error_setting_up_pin ch err))) ;;
  super Component._set_init.

End WithGpio.
Arguments obj {Board}.
Arguments world {Board}.
Arguments board {Board}.
Arguments stdout {Board}.
Arguments super {Board A}.
Arguments gpio {Board A}.
Arguments print {Board}.
Arguments cleanup {Board}.
Arguments init {env Board}.

End GPIOComponent.

(* ================================================================== *)
(** * Vocabulary of the statements *)

(** A process environment in which [IO_BASE_DIR] is not set. *)
Definition plain_environ : Environ := {| environ := ∅ |}.

(** The path [FIFOFile(fn, num)] computes. *)
Definition path_of `{Environ} (fn : str) (num : Z) : str :=
  os_path_join BASE_DIR (fn ++ str_of_int num).

(** The world after [FIFOFile(fn, num)] went through, for the path it
    computed: a new pipe, its node at the path, a new open file on it. *)
Definition opened (path : str) (w : World) : World :=
  {| nodes := <[path := Fifo (fresh (dom (pipes w))) 0x1b6]> (nodes w);
     pipes := <[fresh (dom (pipes w)) := []]> (pipes w);
     files := <[fresh (dom (files w)) :=
                  {| f_pipe := fresh (dom (pipes w)); f_closed := false |}]>
                (files w);
     umask := umask w |}.

(** The world after [close()] of a pipe file whose file object was [o]. *)
Definition closed (f : FIFOFile.t) (o : fileobj) (w : World) : World :=
  {| nodes := delete (FIFOFile.__filename f) (nodes w);
     pipes := pipes w;
     files := <[FIFOFile.__fd f :=
                  {| f_pipe := f_pipe o; f_closed := true |}]> (files w);
     umask := umask w |}.

(** The pipe files that [init()] creates for the numbers [nums], one after
    the other from world [w], and the world they leave. *)
Fixpoint open_all `{Environ} (fn : str) (nums : list Z) (w : World)
    : list FIFOFile.t * World :=
  match nums with
  | [] => ([], w)
  | i :: rest =>
      let f := {| FIFOFile.__filename := path_of fn i;
                  FIFOFile.__fd := fresh (dom (files w)) |} in
      let '(fs, w') := open_all fn rest (opened (path_of fn i) w) in
      (f :: fs, w')
  end.

(** The file of a pipe file object is open. *)
Definition is_open (w : World) (f : FIFOFile.t) : Prop :=
  exists p, files w !! FIFOFile.__fd f
            = Some {| f_pipe := p; f_closed := false |}.

(** Every channel of the component has its pipe file, and all are open. *)
Definition all_open `{FloatConv} `{Environ} (c : Component.t) (w : World)
    : Prop :=
  exists fs, Component.__fifos c = Some fs /\ fs ≠ [] /\ Forall (is_open w) fs.

(** The numbers [init()] passes to [FIFOFile]: [0] alone for fewer than two
    channels, the channel numbers otherwise. *)
Definition suffixes `{FloatConv} `{Environ} (c : Component.t) : list Z :=
  if Z.of_nat (length (Component.__channels c)) <? 2 then [0]
  else Component.__channels c.

(** An outcome with the initialized flag of the object set to [b]. *)
Definition with_flag `{FloatConv} `{Environ} {A} (b : bool)
    (r : result A * Component.state) : result A * Component.state :=
  (fst r, (Component.set_initialized b (fst (snd r)), snd (snd r))).

(** A method that never looks at the initialized flag: run with the flag
    set to [b], it does what it does otherwise, and leaves the flag at [b]. *)
Definition flag_blind `{FloatConv} `{Environ} {A}
    (m : M Component.state A) : Prop :=
  forall b c w,
    m (Component.set_initialized b c, w) = with_flag b (m (c, w)).

(** ** The line protocol *)

(** The bytes buffered for a channel, and the object with this buffer
    replaced. *)
Definition buffer (c : Component.t) (channel : Z) : bytes :=
  default [] (Component.__readdata c !! channel).

Definition set_buffer (channel : Z) (v : bytes) (c : Component.t)
    : Component.t :=
  Component.set_readdata (<[channel := v]> (Component.__readdata c)) c.

(** The bytes waiting in pipe [p], and the world once they have been read. *)
Definition waiting (w : World) (p : nat) : bytes :=
  concat (default [] (pipes w !! p)).

Definition drained (p : nat) (w : World) : World :=
  match waiting w p with
  | [] => w
  | _ => set_pipes (<[p := []]>) w
  end.

(** The buffers of pipe [p] that are in use. *)
Definition buffers (w : World) (p : nat) : list bytes :=
  default [] (pipes w !! p).

(** The number of bytes pipe [p] takes of [data] when the component writes
    them, and the world after this write. *)
Definition taken (w : World) (p : nat) (data : bytes) : Z :=
  snd (pipe_write PIPE_DEF_BUFFERS (buffers w p) data).

Definition sent (p : nat) (data : bytes) (w : World) : World :=
  snd (pipe_put p data w).

(** [self.__fifos[channel]] is the pipe file [f], and the file of [f] is
    open on pipe [p]. *)
Definition attached (c : Component.t) (w : World) (channel : Z)
    (f : FIFOFile.t) (p : nat) : Prop :=
  (exists fs, Component.__fifos c = Some fs
              /\ Component.list_getitem fs channel = Ok f)
  /\ files w !! FIFOFile.__fd f = Some {| f_pipe := p; f_closed := false |}.

(** What a message is read as: the text of the line is one float, or, with a
    comma in it, the tuple of the floats between the commas; a line that is
    not UTF-8 or has a field that is no float raises. *)
Definition parse_line `{FloatConv} (data : bytes) : result reading :=
  result_bind (decode data) (fun text =>
    if str_contains COMMA text then
      result_bind (result_map float_of_str (str_split COMMA text))
        (fun xs => Ok (Tuple xs))
    else result_bind (float_of_str text) (fun x => Ok (Number x))).

(** One call of [readdata] on the bytes it has when the pipe is drained:
    nothing without a line feed, else the first line is taken off. *)
Definition take_line `{FloatConv} (all : bytes)
    : result (option reading) * bytes :=
  if bytes_contains LF all then
    let '(line, _, rest) := bytes_partition LF all in
    (result_bind (parse_line line) (fun r => Ok (Some r)), rest)
  else (Ok None, all).

(** The byte stream of messages, each ended by a line feed. *)
Definition lines (msgs : list bytes) : bytes :=
  concat (map (fun m => m ++ [LF]) msgs).

(** The calls that gave something: values and raised errors, in order. *)
Fixpoint delivered (outs : list (result (option reading)))
    : list (result reading) :=
  match outs with
  | [] => []
  | Ok None :: rest => delivered rest
  | Ok (Some r) :: rest => Ok r :: delivered rest
  | Raise e :: rest => Raise e :: delivered rest
  end.

(** A reader that calls [readdata(channel)] once after each chunk another
    process has written into pipe [p]; an empty chunk is a call with no new
    data.  The reader goes on after a call that raised. *)
Fixpoint deliver `{FloatConv} `{Environ} (channel : Z) (p : nat)
    (chunks : list bytes) (s : Component.state)
    : list (result (option reading)) * Component.state :=
  match chunks with
  | [] => ([], s)
  | x :: rest =>
      let '(out, s1) :=
        Component.readdata channel (fst s, peer_write p x (snd s)) in
      let '(outs, s2) := deliver channel p rest s1 in
      (out :: outs, s2)
  end.

(** The same on the buffer alone. *)
Fixpoint feed `{FloatConv} (buf : bytes) (chunks : list bytes)
    : list (result (option reading)) * bytes :=
  match chunks with
  | [] => ([], buf)
  | x :: rest =>
      let '(out, buf1) := take_line (buf ++ x) in
      let '(outs, buf2) := feed buf1 rest in
      (out :: outs, buf2)
  end.

(** The text [writedata] sends for its argument, before the line feed:
    numbers as their [str], the items of a tuple or list joined by commas;
    a string and a [bytes] object are iterated like any other iterable, so
    what goes out is their characters, or the values of their bytes, joined
    by commas. *)
Definition serialized `{FloatConv} `{Environ} (data : value) : str :=
  match data with
  | Scalar (Int z) => str_of_int z
  | Scalar (Float x) => str_of_float x
  | Scalar (Str s) => str_join (u ",") (map (fun ch => [ch]) s)
  | Bytes bs =>
      str_join (u ",")
        (map (fun x => str_of_int (Z.of_N (Byte.to_N x))) bs)
  | Iterable xs => str_join (u ",") (map Component.str_ xs)
  end.

(** A component with the single channel 0 of name [led], as constructed, and
    the program state after its [init()] in an empty world. *)
Definition led : Component.t :=
  {| Component._FN := None; Component.__fn := u "led";
     Component.__channels := [0];
     Component.__fifos := None; Component.__readdata := ∅;
     Component.__initialized := false |}.

Definition led_ready : Component.state :=
  snd (Component.init (env := plain_environ)
         (led, empty_world)).

Definition led_fifo : FIFOFile.t :=
  {| FIFOFile.__filename := u "/var/run/led0"; FIFOFile.__fd := 0 |}.

(** Worlds in which something sits where the pipe of [led] belongs: a file
    that was left behind, or a directory. *)
Definition stale_file_world : World :=
  {| nodes := {[ u "/var/run/led0" := OtherFile ]};
     pipes := ∅; files := ∅; umask := 0x12 |}.

Definition stale_directory_world : World :=
  {| nodes := {[ u "/var/run/led0" := Directory ]};
     pipes := ∅; files := ∅; umask := 0x12 |}.

(** ** The handler registry *)
Section RegistryVocabulary.
Context {callback : Type}.
Import EventedInput.

(** The registry once [self.__handlers[k]] has been looked up. *)
Definition touched (k : key) (r : t callback) : t callback :=
  snd (handlers_getitem k r).

(** What a dispatch to the handlers [hs], in this order, leaves in the log
    when every exception is caught: each handler is called, and a traceback
    is printed right after a call that raised.  Each handler runs on the
    registry as the ones before it left it. *)
Fixpoint dispatched (call : callback -> Z -> M (t callback) unit) (pin : Z)
    (hs : list callback) (r : t callback)
    : list (event callback) * t callback :=
  match hs with
  | [] => ([], r)
  | i :: rest =>
      let '(out, r1) := call i pin r in
      let '(evs, r2) := dispatched call pin rest r1 in
      (Called i pin
         :: match out with Raise e => [Printed e] | Ok _ => [] end ++ evs,
       r2)
  end.

(** The handlers called, in order. *)
Fixpoint calls (evs : list (event callback)) : list callback :=
  match evs with
  | [] => []
  | Called i _ :: rest => i :: calls rest
  | Printed _ :: rest => calls rest
  end.

(** A call of [add_handler] or [remove_handler]. *)
Inductive request : Type :=
  | Add (cb : callback) (pin : option Z) (generic : bool)
  | Remove (hid : Z) (pin : option Z) (generic : bool).

Definition serve (rq : request) : M (t callback) (option Z) :=
  match rq with
  | Add cb pin generic =>
      bind (add_handler cb pin generic) (fun hid => ret (Some hid))
  | Remove hid pin generic =>
      bind (remove_handler hid pin generic) (fun _ => ret None)
  end.

(** A caller that makes the calls one after the other and goes on after one
    that raised. *)
Fixpoint serve_all (rqs : list request) (r : t callback)
    : list (result (option Z)) * t callback :=
  match rqs with
  | [] => ([], r)
  | rq :: rest =>
      let '(out, r1) := serve rq r in
      let '(outs, r2) := serve_all rest r1 in
      (out :: outs, r2)
  end.

(** The handler ids that were returned, in order. *)
Fixpoint issued (outs : list (result (option Z))) : list Z :=
  match outs with
  | [] => []
  | Ok (Some hid) :: rest => hid :: issued rest
  | _ :: rest => issued rest
  end.

(** How many of the requests are calls of [add_handler]. *)
Definition count_adds (rqs : list request) : nat :=
  length (List.filter (fun rq => match rq with Add _ _ _ => true
                                          | Remove _ _ _ => false end) rqs).

(** [add_handler] and [remove_handler] are given a key when [generic] is
    true or a pin is there. *)
Definition has_key (pin : option Z) (generic : bool) : bool :=
  match pin, generic with
  | None, false => false
  | _, _ => true
  end.

End RegistryVocabulary.
Arguments request : clear implicits.

(** Handlers named by numbers: handler 0 raises [e], every other one
    returns. *)
Definition zero_raises (e : exn) (i : nat) (pin : Z)
    : M (EventedInput.t nat) unit :=
  match i with
  | O => raise e
  | S _ => ret tt
  end.

(** The registry after handlers 0 and 1 were added for pin 5, in this
    order. *)
Definition two_on_pin_5 : EventedInput.t nat :=
  snd (serve_all [Add 0%nat (Some 5) false; Add 1%nat (Some 5) false]
         EventedInput.__init__).

(** The key a call with [pin] and [generic] works on, when it has one. *)
Definition key_of (pin : option Z) (generic : bool) : EventedInput.key :=
  if generic then EventedInput.Generic
  else match pin with
       | Some p => EventedInput.Pin p
       | None => EventedInput.Generic
       end.

(** No handler of the registry has an id above the counter. *)
Definition ids_bounded {callback} (r : EventedInput.t callback) : Prop :=
  forall k hid cb,
    (hid, cb) ∈ EventedInput.the_dict k r -> hid <= EventedInput.__next_id r.

(** ** The polling loop *)

(** Actions among which nothing starts the component: no [start()], no
    [init(autostart=True)]. *)
Definition quiet (acts : list LoopedComponent.action) : bool :=
  forallb (fun a => match a with
                    | LoopedComponent.Main LoopedComponent.Start
                    | LoopedComponent.Main (LoopedComponent.Init true) => false
                    | _ => true
                    end) acts.

(** A [tick] that does nothing. *)
Definition idle_tick : M Component.state unit := ret tt.

(** The program of a looped [led] in an empty world: [init(autostart=True)],
    the loop tests the flag, then [stop()] is called. *)
Definition stopped_after_test : LoopedComponent.system :=
  LoopedComponent.run (env := plain_environ) idle_tick
    [LoopedComponent.Main (LoopedComponent.Init true);
     LoopedComponent.Loop;
     LoopedComponent.Main LoopedComponent.Stop]
    (LoopedComponent.boot led empty_world).

(** ** More vocabulary: writers, readers, the life cycle *)

(** The line [writedata] sends for [data]: the encoded text and a line
    feed; nothing when the text cannot be encoded. *)
Definition wire `{FloatConv} `{Environ} (data : value) : bytes :=
  match encode (serialized data) with
  | Ok bs => bs ++ [LF]
  | Raise _ => []
  end.

(** [writedata] of each of [datas] in turn on one channel. *)
Definition write_all `{FloatConv} `{Environ} (channel : Z)
    (datas : list value) : M Component.state unit :=
  for_each datas (fun d => Component.writedata d channel).

(** [n] calls of [readdata] on one channel by a reader that goes on after a
    call that raised. *)
Fixpoint read_n `{FloatConv} `{Environ} (channel : Z) (n : nat)
    (s : Component.state)
    : list (result (option reading)) * Component.state :=
  match n with
  | O => ([], s)
  | S n' =>
      let '(out, s1) := Component.readdata channel s in
      let '(outs, s2) := read_n channel n' s1 in
      (out :: outs, s2)
  end.

(** Text that goes through the wire unharmed: ASCII, and neither a comma
    nor a line feed in it. *)
Definition plain_text (s : str) : bool :=
  forallb (fun ch => (ch <? 128)%N && negb (ch =? 44)%N && negb (ch =? 10)%N)
          s.

(** [self.__fifos[channel]] is the pipe file [f], and the file of [f] has
    been closed. *)
Definition detached (c : Component.t) (w : World) (channel : Z)
    (f : FIFOFile.t) : Prop :=
  (exists fs, Component.__fifos c = Some fs
              /\ Component.list_getitem fs channel = Ok f)
  /\ exists p, files w !! FIFOFile.__fd f
               = Some {| f_pipe := p; f_closed := true |}.

(** The world after [close()] of each of the pipe files [fs] in turn. *)
Fixpoint close_all (fs : list FIFOFile.t) (w : World) : World :=
  match fs with
  | [] => w
  | f :: rest =>
      close_all rest
        (closed f {| f_pipe := match files w !! FIFOFile.__fd f with
                               | Some o => f_pipe o
                               | None => O
                               end;
                     f_closed := false |} w)
  end.

(** The file of a pipe file object is closed and its node is gone. *)
Definition is_shut (w : World) (f : FIFOFile.t) : Prop :=
  (exists p, files w !! FIFOFile.__fd f
             = Some {| f_pipe := p; f_closed := true |})
  /\ nodes w !! FIFOFile.__filename f = None.

(** The [led] component after [init()] and [cleanup()]. *)
Definition led_cleaned : Component.state :=
  snd (Component.cleanup led_ready).

(** A registry in order: no id above the counter, no id twice in a dict,
    no id under two keys. *)
Definition registry_ok {callback} (r : EventedInput.t callback) : Prop :=
  ids_bounded r
  /\ (forall k, NoDup (map fst (EventedInput.the_dict k r)))
  /\ (forall k k' hid cb cb',
        (hid, cb) ∈ EventedInput.the_dict k r ->
        (hid, cb') ∈ EventedInput.the_dict k' r -> k = k').

(** A [tick] that raises. *)
Definition failing_tick : M Component.state unit := raise ValueError.

(** The program of a looped [led] in an empty world right after
    [init(autostart=True)], and after one more step of the loop, which has
    tested the flag. *)
Definition started_led : LoopedComponent.system :=
  LoopedComponent.run (env := plain_environ) idle_tick
    [LoopedComponent.Main (LoopedComponent.Init true)]
    (LoopedComponent.boot led empty_world).

Definition led_about_to_tick : LoopedComponent.system :=
  LoopedComponent.run (env := plain_environ) idle_tick
    [LoopedComponent.Loop] started_led.

(** A world in which a directory sits where the pipe of channel 5 of
    [motor] belongs. *)
Definition world_with_directory : World :=
  {| nodes := {[ u "/var/run/motor5" := Directory ]};
     pipes := ∅; files := ∅; umask := 0x12 |}.

(** A component [motor] with the channels 4, 5 and 6, as constructed. *)
Definition motor : Component.t :=
  {| Component._FN := None; Component.__fn := u "motor";
     Component.__channels := [4; 5; 6];
     Component.__fifos := None; Component.__readdata := ∅;
     Component.__initialized := false |}.

(** ** Vocabulary for GPIOComponent *)
Section GpioVocabulary.
Variable Board : Type.
Variable gpio_setup : Z -> GPIOComponent.direction -> M Board unit.
Variable gpio_cleanup : Z -> M Board unit.

(** The board after [gpio.setup] was tried on each of [pins] in turn, and
    the lines printed for those on which it raised. *)
Fixpoint set_up (pins : list Z) (d : GPIOComponent.direction) (b : Board)
    : Board * list GPIOComponent.line :=
  match pins with
  | [] => (b, [])
  | ch :: rest =>
      let r := gpio_setup ch d b in
      let after := set_up rest d (snd r) in
      (fst after,
       match fst r with
       | Ok _ => []
       | Raise e => [GPIOComponent.Error_setting_up_pin ch e]
       end ++ snd after)
  end.

(** The board after [gpio.cleanup] of each of [pins] in turn. *)
Definition released (pins : list Z) (b : Board) : Board :=
  fold_left (fun b ch => snd (gpio_cleanup ch b)) pins b.

(** The component with another Component part, in another world. *)
Definition with_base (cs : Component.state) (s : GPIOComponent.state Board)
    : GPIOComponent.state Board :=
  {| GPIOComponent.obj :=
       {| GPIOComponent.base := fst cs;
          GPIOComponent.__out_pins :=
            GPIOComponent.__out_pins (GPIOComponent.obj s);
          GPIOComponent.__in_pins :=
            GPIOComponent.__in_pins (GPIOComponent.obj s) |};
     GPIOComponent.world := snd cs;
     GPIOComponent.board := GPIOComponent.board s;
     GPIOComponent.stdout := GPIOComponent.stdout s |}.

(** The component with another board, after more lines were printed. *)
Definition with_board (b : Board) (ls : list GPIOComponent.line)
    (s : GPIOComponent.state Board) : GPIOComponent.state Board :=
  {| GPIOComponent.obj := GPIOComponent.obj s;
     GPIOComponent.world := GPIOComponent.world s;
     GPIOComponent.board := b;
     GPIOComponent.stdout := GPIOComponent.stdout s ++ ls |}.

End GpioVocabulary.
Arguments set_up {Board}.
Arguments released {Board}.
Arguments with_base {Board}.
Arguments with_board {Board}.

(** A board for the examples: the pins that are set up, the last one
    first.  [setup] knows the pins 0 to 27 and raises [ValueError] on any
    other; [cleanup] forgets a pin. *)
Definition sample_setup (ch : Z) (d : GPIOComponent.direction)
    : M (list (Z * GPIOComponent.direction)) unit :=
  fun b => if (0 <=? ch) && (ch <=? 27) then (Ok tt, (ch, d) :: b)
           else (Raise ValueError, b).

Definition sample_cleanup (ch : Z)
    : M (list (Z * GPIOComponent.direction)) unit :=
  fun b => (Ok tt, List.filter (fun p => negb (fst p =? ch)) b).

(** A [led] with output pins 17 and 99 and input pin 4, constructed and
    nothing more, in the empty world. *)
Definition gpio_led
    : GPIOComponent.state (list (Z * GPIOComponent.direction)) :=
  {| GPIOComponent.obj := GPIOComponent.__init__ [17; 99] [4] led;
     GPIOComponent.world := empty_world;
     GPIOComponent.board := [];
     GPIOComponent.stdout := [] |}.

(** A [gpio.setmode] that returns. *)
Definition sample_setmode : M (list (Z * GPIOComponent.direction)) unit :=
  ret tt.

(** A [gpio.setmode] that raises, as on a machine that is no Raspberry Pi. *)
Definition failing_setmode : M (list (Z * GPIOComponent.direction)) unit :=
  raise RuntimeError.

(** The [gpio_led] after its [init()]. *)
Definition gpio_led_ready
    : GPIOComponent.state (list (Z * GPIOComponent.direction)) :=
  snd (GPIOComponent.init (env := plain_environ)
         sample_setmode sample_setup sample_cleanup gpio_led).

(* ================================================================== *)
(** * Properties *)

(** ** Pipe files: creation and removal *)
Section FIFOFileFacts.
Context `{Environ}.

Lemma unlink_quiet path w :
  nodes w !! path ≠ Some Directory ->
  try_except (unlink path) FIFOFile.is_FileNotFoundError (fun _ => ret tt) w
  = (Ok tt, set_nodes (delete path) w).
Proof.
  intros Hdir. unfold try_except, unlink.
  destruct (nodes w !! path) as [[p m| |]|] eqn:E; try done.
  cbn. unfold ret. f_equal. destruct w as [n ps fs um]; unfold set_nodes; cbn in *.
  f_equal. symmetry. by apply delete_id.
Qed.

Lemma FIFOFile_init_spec fn num w :
  nodes w !! path_of fn num ≠ Some Directory ->
  FIFOFile.__init__ fn num w
  = (Ok {| FIFOFile.__filename := path_of fn num;
           FIFOFile.__fd := fresh (dom (files w)) |},
     opened (path_of fn num) w).
Proof.
  intros Hdir. unfold FIFOFile.__init__. fold (path_of fn num).
  unfold bind at 1. rewrite unlink_quiet by done.
  unfold bind, os_umask, mkfifo, os_open, io_open, ret. cbn.
  rewrite lookup_delete_eq. cbn. rewrite lookup_insert_eq. cbn.
  f_equal. unfold opened, set_umask, set_files, set_pipes, set_nodes. cbn.
  by rewrite insert_delete_eq.
Qed.

Lemma FIFOFile_close_spec f o w :
  files w !! FIFOFile.__fd f = Some o ->
  nodes w !! FIFOFile.__filename f ≠ Some Directory ->
  FIFOFile.close f w = (Ok tt, closed f o w).
Proof.
  intros Hf Hdir. unfold FIFOFile.close, bind, file_close. rewrite Hf.
  rewrite unlink_quiet by done. done.
Qed.

(** A stale node at the path makes no difference to [FIFOFile(fn, num)]. *)
Lemma FIFOFile_init_stale fn num w :
  nodes w !! path_of fn num ≠ Some Directory ->
  FIFOFile.__init__ fn num (set_nodes (delete (path_of fn num)) w)
  = FIFOFile.__init__ fn num w.
Proof.
  intros Hdir. rewrite !FIFOFile_init_spec; [|done|].
  - f_equal. unfold opened, set_nodes; cbn. f_equal. apply insert_delete_eq.
  - cbn. by rewrite lookup_delete_eq.
Qed.

Lemma FIFOFile_init_directory fn num w :
  nodes w !! path_of fn num = Some Directory ->
  FIFOFile.__init__ fn num w = (Raise IsADirectoryError, w).
Proof.
  intros Hdir. unfold FIFOFile.__init__. fold (path_of fn num).
  unfold bind at 1. unfold try_except, unlink. by rewrite Hdir.
Qed.

Lemma FIFOFile_close_directory f o w :
  files w !! FIFOFile.__fd f = Some o ->
  nodes w !! FIFOFile.__filename f = Some Directory ->
  FIFOFile.close f w
  = (Raise IsADirectoryError,
     set_files (insert (FIFOFile.__fd f)
                  {| f_pipe := f_pipe o; f_closed := true |}) w).
Proof.
  intros Hf Hdir. unfold FIFOFile.close, bind, file_close. rewrite Hf.
  unfold try_except, unlink. cbn. by rewrite Hdir.
Qed.

Lemma FIFOFile_fresh fn num w :
  nodes w !! path_of fn num ≠ Some Directory ->
  let f := {| FIFOFile.__filename := path_of fn num;
              FIFOFile.__fd := fresh (dom (files w)) |} in
  let p := fresh (dom (pipes w)) in
  exists w1 w2,
    FIFOFile.__init__ fn num w = (Ok f, w1)
    /\ FIFOFile.__init__ fn num (set_nodes (delete (path_of fn num)) w)
       = (Ok f, w1)
    /\ (p ∉ dom (pipes w))
    /\ nodes w1 !! path_of fn num = Some (Fifo p 0x1b6)
    /\ pipes w1 !! p = Some []
    /\ files w1 !! FIFOFile.__fd f
       = Some {| f_pipe := p; f_closed := false |}
    /\ FIFOFile.close f w1 = (Ok tt, w2)
    /\ nodes w2 !! path_of fn num = None
    /\ files w2 !! FIFOFile.__fd f
       = Some {| f_pipe := p; f_closed := true |}
    /\ FIFOFile.close f w2 = (Ok tt, w2).
Proof.
  intros Hdir f p.
  exists (opened (path_of fn num) w).
  exists (closed f {| f_pipe := p; f_closed := false |}
            (opened (path_of fn num) w)).
  assert (Hfile : files (opened (path_of fn num) w) !! FIFOFile.__fd f
                  = Some {| f_pipe := p; f_closed := false |})
    by (cbn; apply lookup_insert_eq).
  assert (Hnode : nodes (opened (path_of fn num) w) !! FIFOFile.__filename f
                  ≠ Some Directory)
    by (cbn; rewrite lookup_insert_eq; done).
  split; [by apply FIFOFile_init_spec|].
  split; [rewrite FIFOFile_init_stale by done; by apply FIFOFile_init_spec|].
  split; [apply is_fresh|].
  split; [cbn; apply lookup_insert_eq|].
  split; [cbn; apply lookup_insert_eq|].
  split; [done|].
  split; [by apply FIFOFile_close_spec|].
  split; [cbn; apply lookup_delete_eq|].
  split; [cbn; apply lookup_insert_eq|].
  rewrite (FIFOFile_close_spec f {| f_pipe := p; f_closed := true |}).
  - f_equal. unfold closed; cbn. f_equal.
    + apply delete_delete_eq.
    + apply insert_insert_eq.
  - cbn. apply lookup_insert_eq.
  - cbn. rewrite lookup_delete_eq. done.
Qed.

(** C9, as the code has it.  A pipe file is opened and closed the same way
    whether or not a node sits at its path, unless that node is a
    directory.  From any world in which the path is free or holds a stale
    pipe or file, [FIFOFile(fn, num)] returns: the old node is gone, a new
    pipe is at the path and the object holds an open file on it; the
    outcome is the one it has when the stale node is absent.  [close()]
    then closes that file and removes the node, and a second [close()],
    which finds no node to remove, returns as well and changes nothing.  A
    directory at the path is not removed: [FIFOFile(fn, num)] raises
    [IsADirectoryError] and changes nothing, and a [close()] that finds
    one there closes its file and raises [IsADirectoryError]. *)
Theorem FIFOFile_nodes_missing_ok fn num w :
  (nodes w !! path_of fn num ≠ Some Directory ->
   let f := {| FIFOFile.__filename := path_of fn num;
               FIFOFile.__fd := fresh (dom (files w)) |} in
   let p := fresh (dom (pipes w)) in
   exists w1 w2,
     FIFOFile.__init__ fn num w = (Ok f, w1)
     /\ FIFOFile.__init__ fn num (set_nodes (delete (path_of fn num)) w)
        = (Ok f, w1)
     /\ (p ∉ dom (pipes w))
     /\ nodes w1 !! path_of fn num = Some (Fifo p 0x1b6)
     /\ pipes w1 !! p = Some []
     /\ files w1 !! FIFOFile.__fd f
        = Some {| f_pipe := p; f_closed := false |}
     /\ FIFOFile.close f w1 = (Ok tt, w2)
     /\ nodes w2 !! path_of fn num = None
     /\ files w2 !! FIFOFile.__fd f
        = Some {| f_pipe := p; f_closed := true |}
     /\ FIFOFile.close f w2 = (Ok tt, w2))
  /\ (nodes w !! path_of fn num = Some Directory ->
      FIFOFile.__init__ fn num w = (Raise IsADirectoryError, w)
      /\ forall f o,
           FIFOFile.__filename f = path_of fn num ->
           files w !! FIFOFile.__fd f = Some o ->
           FIFOFile.close f w
           = (Raise IsADirectoryError,
              set_files (insert (FIFOFile.__fd f)
                           {| f_pipe := f_pipe o; f_closed := true |}) w)).
Proof.
  split; [apply FIFOFile_fresh|].
  intros Hdir. split; [by apply FIFOFile_init_directory|].
  intros f o Hname Hf. apply FIFOFile_close_directory; [done|].
  by rewrite Hname.
Qed.

End FIFOFileFacts.

Lemma FIFOFile_nodes_missing_ok_witness :
  let H := plain_environ in
  let f := {| FIFOFile.__filename := u "/var/run/led0";
              FIFOFile.__fd := fresh (dom (files stale_file_world)) |} in
  nodes stale_file_world !! path_of (u "led") 0 = Some OtherFile
  /\ nodes stale_file_world !! path_of (u "led") 0 ≠ Some Directory
  /\ exists w1 w2,
       FIFOFile.__init__ (u "led") 0 stale_file_world = (Ok f, w1)
       /\ nodes w1 !! path_of (u "led") 0
          = Some (Fifo (fresh (dom (pipes stale_file_world))) 0x1b6)
       /\ FIFOFile.close f w1 = (Ok tt, w2)
       /\ nodes w2 !! u "/var/run/led0" = None
       /\ FIFOFile.close f w2 = (Ok tt, w2).
Proof.
  intros H f.
  assert (Hstale : nodes stale_file_world !! path_of (u "led") 0
                   = Some OtherFile) by (vm_compute; reflexivity).
  assert (Hdir : nodes stale_file_world !! path_of (u "led") 0
                 ≠ Some Directory) by (rewrite Hstale; discriminate).
  split; [exact Hstale|]. split; [exact Hdir|].
  destruct (proj1 (FIFOFile_nodes_missing_ok (u "led") 0 stale_file_world)
              Hdir)
    as (w1 & w2 & H1 & _ & _ & H2 & _ & _ & H3 & H4 & _ & H5).
  exists w1, w2. split; [exact H1|]. split; [exact H2|].
  split; [exact H3|]. split; [exact H4|exact H5].
Defined.

(** C9, as the spec has it, fails: not any stale node is removed.  With a
    directory at the path of the pipe, [FIFOFile("led")] raises
    [IsADirectoryError]; the directory is still there and no pipe has been
    created. *)
Lemma stale_directory_is_not_removed :
  let H := plain_environ in
  let s := FIFOFile.__init__ (u "led") 0 stale_directory_world in
  nodes stale_directory_world !! path_of (u "led") 0 = Some Directory
  /\ fst s = Raise IsADirectoryError
  /\ nodes (snd s) !! path_of (u "led") 0 = Some Directory
  /\ pipes (snd s) = ∅
  /\ files (snd s) = ∅.
Proof.
  intros H s. split; [vm_compute; reflexivity|].
  split; [vm_compute; reflexivity|].
  split; [vm_compute; reflexivity|].
  split; vm_compute; reflexivity.
Qed.

(** ** What a pipe takes of a write *)
Section Pipe.

Lemma PAGE_SIZE_nat : Z.of_nat (Z.to_nat PAGE_SIZE) = PAGE_SIZE.
Proof. done. Qed.

Lemma pipe_fill_nil free : pipe_fill free [] = ([], []).
Proof. by destruct free. Qed.

(** The new buffers and the rest are the data; the rest is what a page for
    each free buffer leaves over; the buffers are no more than the data
    needs and no more than are free. *)
Lemma pipe_fill_spec free : forall data,
  concat (fst (pipe_fill free data)) ++ snd (pipe_fill free data) = data
  /\ Z.of_nat (length (snd (pipe_fill free data)))
     = Z.max 0 (Z.of_nat (length data) - PAGE_SIZE * Z.of_nat free)
  /\ (length (fst (pipe_fill free data)) <= free)%nat
  /\ Z.of_nat (length (fst (pipe_fill free data))) * PAGE_SIZE
     < Z.of_nat (length data) + PAGE_SIZE.
Proof.
  pose proof PAGE_SIZE_nat as HP.
  assert (Hpos : 0 < PAGE_SIZE) by done.
  induction free as [|free IH]; intros data.
  - destruct data as [|x d]; cbn [pipe_fill fst snd concat length app].
    + repeat split; lia.
    + repeat split; lia.
  - destruct data as [|x d]; [cbn; repeat split; lia|].
    cbn [pipe_fill].
    destruct (IH (drop (Z.to_nat PAGE_SIZE) (x :: d)))
      as (Hcat & Hrest & Hlen & Hcount).
    destruct (pipe_fill free (drop (Z.to_nat PAGE_SIZE) (x :: d)))
      as [bufs rest].
    cbn [fst snd concat] in *. rewrite length_drop in Hrest, Hcount.
    split.
    { rewrite <- app_assoc, Hcat. apply take_drop. }
    split; [|split].
    + rewrite Hrest. cbn [length] in *. lia.
    + cbn [length]. lia.
    + cbn [length] in *. unfold PAGE_SIZE in *. lia.
Qed.

(** [pipe_write] in two steps: the merge into the last buffer, then the
    new buffers. *)
Lemma pipe_write_steps m bufs data :
  exists bufs1 data1,
    pipe_write m bufs data
    = (bufs1
         ++ fst (pipe_fill (Z.to_nat (m - Z.of_nat (length bufs))) data1),
       Z.of_nat (length data)
       - Z.of_nat (length (snd (pipe_fill
                                  (Z.to_nat (m - Z.of_nat (length bufs)))
                                  data1))))
    /\ concat bufs1 ++ data1 = concat bufs ++ data
    /\ length bufs1 = length bufs
    /\ (length data1 <= length data)%nat
    /\ ((bufs1 = bufs /\ data1 = data
         /\ (last bufs = None
             \/ exists buf, last bufs = Some buf
                  /\ (0 <? Z.of_nat (length data) mod PAGE_SIZE)
                     && (Z.of_nat (length buf)
                         + Z.of_nat (length data) mod PAGE_SIZE
                         <=? PAGE_SIZE) = false))
        \/ (exists buf,
              last bufs = Some buf
              /\ 0 < Z.of_nat (length data) mod PAGE_SIZE
              /\ Z.of_nat (length buf)
                 + Z.of_nat (length data) mod PAGE_SIZE <= PAGE_SIZE
              /\ data1 = drop (Z.to_nat (Z.of_nat (length data)
                                         mod PAGE_SIZE)) data)).
Proof.
  unfold pipe_write.
  destruct (last bufs) as [buf|] eqn:Elast.
  - destruct ((0 <? Z.of_nat (length data) mod PAGE_SIZE)
              && (Z.of_nat (length buf)
                  + Z.of_nat (length data) mod PAGE_SIZE <=? PAGE_SIZE))
      eqn:Emerge.
    + apply last_Some in Elast as [init ->].
      rewrite removelast_last.
      set (chars := Z.to_nat (Z.of_nat (length data) mod PAGE_SIZE)).
      exists (init ++ [buf ++ take chars data]), (drop chars data).
      assert (Hlen : length (init ++ [buf ++ take chars data])
                     = length (init ++ [buf])) by (by rewrite !length_app).
      rewrite Hlen.
      destruct (pipe_fill _ (drop chars data)) as [new rest] eqn:Efill.
      cbn [fst snd]. split; [done|]. split.
      { rewrite !concat_app. cbn [concat]. rewrite !app_nil_r.
        rewrite <- !app_assoc. by rewrite take_drop. }
      split; [done|]. split; [rewrite length_drop; lia|].
      right. exists buf. split; [done|].
      apply andb_true_iff in Emerge as [Hc Hfit].
      apply Z.leb_le in Hfit. split; [lia|]. split; [exact Hfit|done].
    + exists bufs, data.
      destruct (pipe_fill _ data) as [new rest] eqn:Efill. cbn [fst snd].
      split; [done|]. split; [done|]. split; [done|]. split; [done|].
      left. split; [done|]. split; [done|]. right. by exists buf.
  - exists bufs, data.
    destruct (pipe_fill _ data) as [new rest] eqn:Efill. cbn [fst snd].
    split; [done|]. split; [done|]. split; [done|]. split; [done|].
    left. split; [done|]. split; [done|]. by left.
Qed.

(** What is in the pipe after a write is what was in it and the bytes that
    were taken, which are the first of the data. *)
Lemma pipe_write_content m bufs data :
  concat (fst (pipe_write m bufs data))
  = concat bufs ++ take (Z.to_nat (snd (pipe_write m bufs data))) data
  /\ 0 <= snd (pipe_write m bufs data) <= Z.of_nat (length data).
Proof.
  destruct (pipe_write_steps m bufs data)
    as (bufs1 & data1 & -> & Hcat & _ & Hle & _).
  cbn [fst snd].
  destruct (pipe_fill_spec (Z.to_nat (m - Z.of_nat (length bufs))) data1)
    as (Hfill & Hrest & _).
  set (new := fst (pipe_fill _ data1)) in *.
  set (rest := snd (pipe_fill _ data1)) in *.
  assert (Hrl : (length rest <= length data1)%nat).
  { pose proof (f_equal length Hfill) as Hl. rewrite length_app in Hl. lia. }
  split; [|lia].
  assert (Hall : (concat bufs1 ++ concat new) ++ rest = concat bufs ++ data)
    by (by rewrite <- app_assoc, Hfill).
  assert (Hlen : length (concat bufs1 ++ concat new)
                 = (length (concat bufs) + (length data - length rest))%nat).
  { apply (f_equal length) in Hall. rewrite !length_app in Hall.
    rewrite length_app. lia. }
  rewrite concat_app.
  rewrite <- (take_app_length (concat bufs1 ++ concat new) rest), Hall, Hlen.
  rewrite take_app_ge by lia. f_equal. f_equal. lia.
Qed.

(** A pipe with room for every byte takes the write whole. *)
Lemma pipe_write_room m bufs data :
  Z.of_nat (length bufs + length data) <= m ->
  snd (pipe_write m bufs data) = Z.of_nat (length data).
Proof.
  intros Hm.
  destruct (pipe_write_steps m bufs data)
    as (bufs1 & data1 & -> & _ & _ & Hle & _).
  cbn [snd].
  destruct (pipe_fill_spec (Z.to_nat (m - Z.of_nat (length bufs))) data1)
    as (_ & Hrest & _).
  unfold PAGE_SIZE in *. lia.
Qed.

(** An empty pipe takes what its buffers hold, and cuts the rest off. *)
Lemma pipe_write_empty m data :
  0 <= m ->
  snd (pipe_write m [] data)
  = Z.min (Z.of_nat (length data)) (PAGE_SIZE * m).
Proof.
  intros Hm.
  destruct (pipe_write_steps m [] data)
    as (bufs1 & data1 & -> & _ & _ & _ & Hcase).
  cbn [snd].
  assert (data1 = data) as ->.
  { destruct Hcase as [(_ & E & _)|(buf & Hlast & _)]; done. }
  destruct (pipe_fill_spec (Z.to_nat (m - Z.of_nat (length (@nil bytes))))
              data) as (_ & Hrest & _).
  cbn [length] in *. unfold PAGE_SIZE in *. lia.
Qed.

(** A write of a page at most goes in whole when a buffer is free, and
    takes one buffer at most. *)
Lemma pipe_write_page m bufs data :
  Z.of_nat (length data) <= PAGE_SIZE ->
  Z.of_nat (length bufs) < m ->
  snd (pipe_write m bufs data) = Z.of_nat (length data)
  /\ (length (fst (pipe_write m bufs data)) <= length bufs + 1)%nat.
Proof.
  intros Hpage Hfree.
  assert (Hpos : 0 < PAGE_SIZE) by done.
  destruct (pipe_write_steps m bufs data)
    as (bufs1 & data1 & -> & _ & Hlen & _ & Hcase).
  cbn [fst snd]. rewrite length_app, Hlen.
  destruct Hcase as [(_ & -> & _)|(buf & _ & Hchars & _ & ->)].
  - destruct (pipe_fill_spec (Z.to_nat (m - Z.of_nat (length bufs))) data)
      as (_ & Hrest & _ & Hcount).
    unfold PAGE_SIZE in *. split; lia.
  - assert (Hmod : Z.of_nat (length data) mod PAGE_SIZE
                   = Z.of_nat (length data)).
    { apply Z.mod_small. split; [lia|].
      destruct (Z.eq_dec (Z.of_nat (length data)) PAGE_SIZE) as [E|]; [|lia].
      rewrite E, Z.mod_same in Hchars by lia. lia. }
    rewrite Hmod, Nat2Z.id, drop_all, pipe_fill_nil. cbn. lia.
Qed.

(** A pipe without a byte in it takes less than a page whole. *)
Lemma pipe_write_no_bytes m bufs data :
  concat bufs = [] ->
  Z.of_nat (length data) < PAGE_SIZE ->
  1 <= m ->
  snd (pipe_write m bufs data) = Z.of_nat (length data).
Proof.
  intros Hnone Hsmall Hm.
  assert (Hpos : 0 < PAGE_SIZE) by done.
  assert (Hmod : Z.of_nat (length data) mod PAGE_SIZE
                 = Z.of_nat (length data)) by (apply Z.mod_small; lia).
  destruct (pipe_write_steps m bufs data)
    as (bufs1 & data1 & -> & _ & _ & _ & Hcase).
  cbn [snd].
  destruct Hcase as [(_ & -> & [Hlast|(buf & Hlast & Hno)])
                    |(buf & _ & _ & _ & ->)].
  - apply last_None in Hlast as ->.
    destruct (pipe_fill_spec (Z.to_nat (m - Z.of_nat (length (@nil bytes))))
                data) as (_ & Hrest & _).
    cbn [length] in *. unfold PAGE_SIZE in *. lia.
  - assert (Hbuf : buf = []).
    { apply last_Some in Hlast as [init ->].
      rewrite concat_app in Hnone. cbn in Hnone.
      apply app_eq_nil in Hnone as [_ Hb]. by rewrite app_nil_r in Hb. }
    subst buf. rewrite Hmod in Hno. cbn [length] in Hno.
    destruct data as [|x d]; [by rewrite pipe_fill_nil|].
    exfalso. apply andb_false_iff in Hno as [Hno|Hno].
    + apply Z.ltb_ge in Hno. cbn [length] in Hno. lia.
    + apply Z.leb_gt in Hno. lia.
  - rewrite Hmod, Nat2Z.id, drop_all, pipe_fill_nil. cbn. lia.
Qed.

(** A pipe whose buffers are all in use, the last one full, takes
    nothing. *)
Lemma pipe_write_full m bufs buf data :
  m <= Z.of_nat (length bufs) ->
  last bufs = Some buf ->
  PAGE_SIZE <= Z.of_nat (length buf) ->
  pipe_write m bufs data = (bufs, 0).
Proof.
  intros Hfull Hlast Hbuf.
  destruct (pipe_write_steps m bufs data)
    as (bufs1 & data1 & -> & _ & _ & _ & Hcase).
  destruct Hcase as [(-> & -> & _)|(buf' & Hlast' & Hchars & Hfit & _)].
  - replace (Z.to_nat (m - Z.of_nat (length bufs))) with O by lia.
    destruct data as [|x d]; cbn [pipe_fill fst snd].
    + by rewrite app_nil_r.
    + rewrite app_nil_r. f_equal. lia.
  - rewrite Hlast in Hlast'. simplify_eq. lia.
Qed.

(** A write of the component to a pipe leaves the files and the nodes
    alone, and the other pipes. *)
Lemma sent_files p data w :
  files (sent p data w) = files w /\ nodes (sent p data w) = nodes w.
Proof.
  unfold sent, pipe_put.
  destruct (pipe_write _ _ data) as [bufs n]. by destruct (_ && _).
Qed.

Lemma sent_frame p q data w :
  p ≠ q -> pipes (sent p data w) !! q = pipes w !! q.
Proof.
  intros Hne. unfold sent, pipe_put.
  destruct (pipe_write _ _ data) as [bufs n].
  destruct (_ && _); [done|]. cbn. by rewrite lookup_insert_ne.
Qed.

Lemma taken_bounds w p data : 0 <= taken w p data <= Z.of_nat (length data).
Proof. apply pipe_write_content. Qed.

Lemma waiting_sent p data w :
  waiting (sent p data w) p
  = waiting w p ++ take (Z.to_nat (taken w p data)) data.
Proof.
  unfold sent, pipe_put, taken, buffers, waiting.
  destruct (pipe_write_content PIPE_DEF_BUFFERS (default [] (pipes w !! p))
              data) as [Hcat _].
  destruct (pipe_write _ _ data) as [bufs n]. cbn [fst snd] in *.
  destruct ((n =? 0) && _) eqn:E.
  - apply andb_true_iff in E as [E _]. apply Z.eqb_eq in E. subst n.
    cbn. by rewrite app_nil_r.
  - cbn. by rewrite lookup_insert_eq.
Qed.

Lemma waiting_sent_frame p q data w :
  p ≠ q -> waiting (sent p data w) q = waiting w q.
Proof. intros Hne. unfold waiting. by rewrite sent_frame. Qed.

Lemma buffers_sent p data w :
  0 < taken w p data ->
  buffers (sent p data w) p
  = fst (pipe_write PIPE_DEF_BUFFERS (buffers w p) data).
Proof.
  unfold sent, pipe_put, taken, buffers.
  destruct (pipe_write _ _ data) as [bufs n]. cbn [fst snd].
  intros Hn. destruct (Z.eqb_spec n 0); [lia|]. cbn.
  by rewrite lookup_insert_eq.
Qed.

(** A whole write puts the data after what is waiting. *)
Lemma waiting_sent_whole p data w :
  taken w p data = Z.of_nat (length data) ->
  waiting (sent p data w) p = waiting w p ++ data.
Proof.
  intros Hall. by rewrite waiting_sent, Hall, Nat2Z.id, firstn_all.
Qed.

Lemma sent_full p data w buf :
  data ≠ [] ->
  PIPE_DEF_BUFFERS <= Z.of_nat (length (buffers w p)) ->
  last (buffers w p) = Some buf ->
  PAGE_SIZE <= Z.of_nat (length buf) ->
  sent p data w = w /\ taken w p data = 0.
Proof.
  intros Hdata Hfull Hlast Hbuf. unfold sent, taken, pipe_put.
  fold (buffers w p).
  rewrite (pipe_write_full _ _ buf data Hfull Hlast Hbuf). cbn.
  by rewrite bool_decide_eq_false_2.
Qed.

Lemma taken_empty p data w :
  buffers w p = [] ->
  taken w p data
  = Z.min (Z.of_nat (length data)) (PAGE_SIZE * PIPE_DEF_BUFFERS).
Proof. intros Hb. unfold taken. rewrite Hb. by apply pipe_write_empty. Qed.

Lemma taken_page p data w :
  Z.of_nat (length data) <= PAGE_SIZE ->
  Z.of_nat (length (buffers w p)) < PIPE_DEF_BUFFERS ->
  taken w p data = Z.of_nat (length data).
Proof. intros Hpage Hfree. by apply pipe_write_page. Qed.

Lemma waiting_buffers w p : buffers w p = [] -> waiting w p = [].
Proof. unfold waiting, buffers. by intros ->. Qed.

Lemma taken_no_bytes p data w :
  waiting w p = [] ->
  Z.of_nat (length data) < PAGE_SIZE ->
  taken w p data = Z.of_nat (length data).
Proof. intros Hw Hsmall. by apply pipe_write_no_bytes. Qed.

Lemma peer_write_files p data w :
  files (peer_write p data w) = files w /\ nodes (peer_write p data w) = nodes w.
Proof. done. Qed.

End Pipe.

(** ** Component: [init], [cleanup] and the initialized flag *)
Section ComponentInit.
Context `{FloatConv} `{Environ}.
Import Component.

Lemma bind_ok {S A B} (m : M S A) (k : A -> M S B) s a s' :
  m s = (Ok a, s') -> bind m k s = k a s'.
Proof. intros E. unfold bind. by rewrite E. Qed.

Lemma bind_raise {S A B} (m : M S A) (k : A -> M S B) s e s' :
  m s = (Raise e, s') -> bind m k s = (Raise e, s').
Proof. intros E. unfold bind. by rewrite E. Qed.

Lemma for_each_app {S A} (xs ys : list A) (body : A -> M S unit) s :
  for_each (xs ++ ys) body s
  = bind (for_each xs body) (fun _ => for_each ys body) s.
Proof.
  revert s. induction xs as [|x xs IH]; intros s; [done|].
  cbn [app for_each]. unfold bind.
  destruct (body x s) as [[[]|e] s1]; [|done]. rewrite IH. done.
Qed.

Lemma os_run {A} (m : M World A) c w :
  os m (c, w) = (fst (m w), (c, snd (m w))).
Proof. unfold os, zoom. cbn. by destruct (m w). Qed.

Lemma opened_keeps_non_directory path q w :
  nodes w !! q ≠ Some Directory ->
  nodes (opened path w) !! q ≠ Some Directory.
Proof.
  intros Hq. cbn. destruct (decide (path = q)) as [->|Hne].
  - by rewrite lookup_insert_eq.
  - by rewrite lookup_insert_ne.
Qed.

Lemma opened_keeps_files path k o w :
  files w !! k = Some o -> files (opened path w) !! k = Some o.
Proof.
  intros Hk. cbn. rewrite lookup_insert_ne; [done|].
  intros E. pose proof (is_fresh (dom (files w))) as Hfresh.
  rewrite E in Hfresh. apply Hfresh, elem_of_dom. eauto.
Qed.

Lemma open_all_keeps_files fn nums : forall w k o,
  files w !! k = Some o -> files (snd (open_all fn nums w)) !! k = Some o.
Proof.
  induction nums as [|i rest IH]; intros w k o Hk; [done|].
  cbn. destruct (open_all fn rest (opened (path_of fn i) w)) as [fs w'] eqn:E.
  cbn. change w' with (snd (fs, w')). rewrite <- E.
  by apply IH, opened_keeps_files.
Qed.

Lemma open_all_filenames fn nums : forall w,
  map FIFOFile.__filename (fst (open_all fn nums w)) = map (path_of fn) nums.
Proof.
  induction nums as [|i rest IH]; intros w; [done|].
  cbn. specialize (IH (opened (path_of fn i) w)).
  destruct (open_all fn rest (opened (path_of fn i) w)) as [fs w'].
  cbn in *. by rewrite IH.
Qed.

Lemma open_all_length fn nums w :
  length (fst (open_all fn nums w)) = length nums.
Proof.
  rewrite <- (length_map FIFOFile.__filename), open_all_filenames.
  apply length_map.
Qed.

Lemma open_all_is_open fn nums : forall w,
  Forall (is_open (snd (open_all fn nums w))) (fst (open_all fn nums w)).
Proof.
  induction nums as [|i rest IH]; intros w; [by constructor|].
  cbn. specialize (IH (opened (path_of fn i) w)).
  pose proof (open_all_keeps_files fn rest (opened (path_of fn i) w)) as Hk.
  destruct (open_all fn rest (opened (path_of fn i) w)) as [fs w'].
  cbn in *. constructor; [|done].
  exists (fresh (dom (pipes w))). apply Hk. cbn. apply lookup_insert_eq.
Qed.

(** The loop of [init()] over the channel numbers. *)
Lemma init_loop fn nums : forall c acc w,
  __fifos c = Some acc ->
  Forall (fun i => nodes w !! path_of fn i ≠ Some Directory) nums ->
  for_each nums (fun i =>
      bind (os (FIFOFile.__init__ fn i)) (fun f => fifos_append f)) (c, w)
  = (Ok tt, (set_fifos (Some (acc ++ fst (open_all fn nums w))) c,
             snd (open_all fn nums w))).
Proof.
  induction nums as [|i rest IH]; intros c acc w Hacc Hdir.
  - cbn. unfold ret. rewrite app_nil_r. destruct c; cbn in *. by subst.
  - inversion Hdir as [|? ? Hi Hrest]; subst.
    cbn [for_each]. unfold bind at 1. unfold bind at 1.
    rewrite os_run, FIFOFile_init_spec by done. cbn [fst snd].
    unfold fifos_append at 1. unfold bind at 1, self at 1. cbn [fst snd].
    rewrite Hacc. unfold update at 1. cbn [fst snd].
    rewrite (IH _ (acc ++ [{| FIFOFile.__filename := path_of fn i;
                              FIFOFile.__fd := fresh (dom (files w)) |}])).
    + cbn [open_all].
      destruct (open_all fn rest (opened (path_of fn i) w)) as [fs w'].
      cbn. by rewrite <- app_assoc.
    + done.
    + eapply Forall_impl; [exact Hrest|].
      intros q Hq. by apply opened_keeps_non_directory.
Qed.

(** What [init()] does, as long as no directory is in the way: it opens the
    pipe files of [suffixes c] in turn and stores them; the flag is left as
    it was. *)
Lemma init_spec c w :
  Forall (fun i => nodes w !! path_of (__fn c) i ≠ Some Directory)
         (suffixes c) ->
  init (c, w)
  = (Ok tt, (set_fifos (Some (fst (open_all (__fn c) (suffixes c) w))) c,
             snd (open_all (__fn c) (suffixes c) w))).
Proof.
  intros Hdir. unfold init, suffixes in *.
  unfold bind at 1, self at 1. cbn [fst snd].
  destruct (Z.of_nat (length (__channels c)) <? 2) eqn:E.
  - inversion Hdir as [|? ? Hzero _]; subst.
    unfold bind. rewrite os_run, FIFOFile_init_spec by done. done.
  - unfold bind at 1, update at 1. cbn [fst snd].
    rewrite (init_loop (__fn c) (__channels c) _ []); done.
Qed.

End ComponentInit.

(** ** Where the pipe files are *)
Section PipePaths.
Context `{FloatConv} `{Environ}.
Import Component.

Lemma os_path_join_relative a p :
  a ≠ [] -> str_endswith SLASH a = false -> str_startswith SLASH p = false ->
  os_path_join a p = a ++ [SLASH] ++ p.
Proof.
  intros Ha He Hs. unfold os_path_join. rewrite Hs, He.
  rewrite bool_decide_eq_false_2 by done. done.
Qed.

Lemma os_path_join_slash a p :
  str_endswith SLASH a = true -> str_startswith SLASH p = false ->
  os_path_join a p = a ++ p.
Proof.
  intros He Hs. unfold os_path_join. rewrite Hs, He.
  by rewrite orb_true_r.
Qed.

Lemma suffixes_of_new cls fn numchannels offset c :
  __init__ cls fn numchannels offset = Ok c ->
  suffixes c = if numchannels <? 2 then [0] else seqZ offset numchannels.
Proof.
  unfold __init__, result_bind. intros E.
  assert (Hch : __channels c = seqZ offset numchannels).
  { assert (Hr : range offset (numchannels + offset)
                 = seqZ offset numchannels) by (unfold range; f_equal; lia).
    destruct fn as [[|x f]|], cls; simplify_eq; cbn; exact Hr. }
  unfold suffixes. rewrite Hch, length_seqZ.
  destruct (Z.ltb_spec numchannels 2),
           (Z.ltb_spec (Z.of_nat (Z.to_nat numchannels)) 2); try done; lia.
Qed.

Lemma open_all_nodes fn nums : forall w,
  Forall (fun f => exists p m,
            nodes (snd (open_all fn nums w)) !! FIFOFile.__filename f
            = Some (Fifo p m))
         (fst (open_all fn nums w)).
Proof.
  assert (Hkeep : forall nums w q,
            (exists p m, nodes w !! q = Some (Fifo p m)) ->
            exists p m, nodes (snd (open_all fn nums w)) !! q
                        = Some (Fifo p m)).
  { clear nums. induction nums as [|i rest IH]; intros w q Hq; [done|].
    cbn. pose proof (IH (opened (path_of fn i) w) q) as IH'.
    destruct (open_all fn rest (opened (path_of fn i) w)) as [fs w'].
    cbn in *. apply IH'. destruct (decide (path_of fn i = q)) as [->|Hne].
    - rewrite lookup_insert_eq. eauto.
    - by rewrite lookup_insert_ne. }
  induction nums as [|i rest IH]; intros w; [by constructor|].
  cbn. specialize (IH (opened (path_of fn i) w)).
  pose proof (Hkeep rest (opened (path_of fn i) w) (path_of fn i)) as Hi.
  destruct (open_all fn rest (opened (path_of fn i) w)) as [fs w'].
  cbn in *. constructor; [|done].
  apply Hi. rewrite lookup_insert_eq. eauto.
Qed.

(** C3, as the code has it.  [init()] on a new component, when no directory
    sits at a path it needs, creates the pipes at these paths: with fewer
    than two channels one pipe at [os.path.join(BASE_DIR, name + "0")],
    whatever the offset; with two or more, for each [i] of
    [range(offset, numchannels + offset)], in this order, one at
    [os.path.join(BASE_DIR, name + str(i))]. *)
Theorem init_pipe_paths cls fn numchannels offset c w :
  __init__ cls fn numchannels offset = Ok c ->
  Forall (fun i => nodes w !! path_of (__fn c) i ≠ Some Directory)
         (suffixes c) ->
  exists fs w',
    init (c, w) = (Ok tt, (set_fifos (Some fs) c, w'))
    /\ map FIFOFile.__filename fs
       = (if numchannels <? 2
          then [os_path_join BASE_DIR (__fn c ++ u "0")]
          else map (fun i => os_path_join BASE_DIR (__fn c ++ str_of_int i))
                   (seqZ offset numchannels))
    /\ Forall (fun f => exists p m,
                 nodes w' !! FIFOFile.__filename f = Some (Fifo p m)) fs.
Proof.
  intros Hnew Hdir.
  exists (fst (open_all (__fn c) (suffixes c) w)),
         (snd (open_all (__fn c) (suffixes c) w)).
  split; [by apply init_spec|].
  split; [|apply open_all_nodes].
  rewrite open_all_filenames, (suffixes_of_new _ _ _ _ _ Hnew).
  by destruct (numchannels <? 2).
Qed.

End PipePaths.

Lemma init_pipe_paths_witness :
  let F := CPython.conv in
  let E := plain_environ in
  let c := {| Component._FN := None; Component.__fn := u "motor";
              Component.__channels := [4; 5; 6];
              Component.__fifos := None; Component.__readdata := ∅;
              Component.__initialized := false |} in
  Component.__init__ None (Some (u "motor")) 3 4 = Ok c
  /\ Forall (fun i => nodes empty_world !! path_of (u "motor") i
                      ≠ Some Directory) [4; 5; 6]
  /\ exists fs w',
       Component.init (c, empty_world)
       = (Ok tt, (Component.set_fifos (Some fs) c, w'))
       /\ map FIFOFile.__filename fs
          = [u "/var/run/motor4"; u "/var/run/motor5"; u "/var/run/motor6"].
Proof.
  intros F E c.
  assert (Hnew : Component.__init__ None (Some (u "motor")) 3 4 = Ok c)
    by reflexivity.
  assert (Hdir : Forall (fun i => nodes empty_world !! path_of (u "motor") i
                                  ≠ Some Directory) [4; 5; 6]).
  { repeat constructor; cbn; rewrite lookup_empty; discriminate. }
  split; [exact Hnew|]. split; [exact Hdir|].
  destruct (init_pipe_paths None (Some (u "motor")) 3 4 c empty_world Hnew Hdir)
    as (fs & w' & Hinit & Hnames & _).
  exists fs, w'. split; [exact Hinit|exact Hnames].
Defined.

(** C3, as the spec has it, fails: the one pipe of a single-channel
    component is [/var/run/led0], index suffix included, not
    [/var/run/led]. *)
Lemma single_channel_path_has_suffix :
  let F := CPython.conv in
  let E := plain_environ in
  let c := {| Component._FN := None; Component.__fn := u "led";
              Component.__channels := [0];
              Component.__fifos := None; Component.__readdata := ∅;
              Component.__initialized := false |} in
  let s := Component.init (c, empty_world) in
  Component.__init__ None (Some (u "led")) 1 0 = Ok c
  /\ fst s = Ok tt
  /\ (map FIFOFile.__filename <$> Component.__fifos (fst (snd s)))
     = Some [u "/var/run/led0"]
  /\ (map FIFOFile.__filename <$> Component.__fifos (fst (snd s)))
     ≠ Some [os_path_join BASE_DIR (u "led")]
  /\ (exists p m, nodes (snd (snd s)) !! u "/var/run/led0" = Some (Fifo p m))
  /\ nodes (snd (snd s)) !! u "/var/run/led" = None.
Proof.
  intros F E c s.
  split; [reflexivity|].
  split; [vm_compute; reflexivity|].
  split; [vm_compute; reflexivity|].
  split; [vm_compute; discriminate|].
  split; [|vm_compute; reflexivity].
  exists 0%nat, 0x1b6%N. vm_compute. reflexivity.
Qed.

(** ** The initialized flag *)
Section InitializedFlag.
Context `{FloatConv} `{Environ}.
Import Component.

Lemma blind_ret {A} (a : A) : flag_blind (ret a).
Proof. done. Qed.

Lemma blind_raise {A} e : flag_blind (@raise state A e).
Proof. done. Qed.

Lemma blind_lift {A} (r : result A) : flag_blind (lift_result r).
Proof. done. Qed.

Lemma blind_bind {A B} (m : M state A) (k : A -> M state B) :
  flag_blind m -> (forall a, flag_blind (k a)) -> flag_blind (bind m k).
Proof.
  intros Hm Hk b c w. unfold bind. rewrite Hm.
  destruct (m (c, w)) as [[a|e] [c' w']]; cbn; [apply Hk|done].
Qed.

Lemma blind_os {A} (m : M World A) : flag_blind (os m).
Proof. intros b c w. rewrite !os_run. done. Qed.

Lemma blind_fifo channel : flag_blind (fifo channel).
Proof.
  intros b c w. unfold fifo, bind, self. cbn.
  by destruct (__fifos c).
Qed.

Lemma blind_readdata_getitem channel : flag_blind (readdata_getitem channel).
Proof.
  intros b c w. unfold readdata_getitem, bind, self. cbn.
  by destruct (__readdata c !! channel).
Qed.

Lemma blind_readdata_setitem channel v :
  flag_blind (readdata_setitem channel v).
Proof. done. Qed.

Lemma blind_set_fifos v : flag_blind (update (set_fifos v)).
Proof. done. Qed.

Lemma blind_fifos_append x : flag_blind (fifos_append x).
Proof.
  intros b c w. unfold fifos_append, bind, self. cbn.
  by destruct (__fifos c).
Qed.

Lemma blind_for_each {A} (xs : list A) (body : A -> M state unit) :
  (forall x, flag_blind (body x)) -> flag_blind (for_each xs body).
Proof.
  intros Hb. induction xs as [|x xs IH]; [apply blind_ret|].
  cbn. apply blind_bind; [apply Hb|done].
Qed.

Lemma blind_list_comp {A B} (xs : list A) (f : A -> M state B) :
  (forall x, flag_blind (f x)) -> flag_blind (list_comp xs f).
Proof.
  intros Hf. induction xs as [|x xs IH]; [apply blind_ret|].
  cbn. apply blind_bind; [apply Hf|]. intros y.
  apply blind_bind; [done|]. intros ys. apply blind_ret.
Qed.

Lemma blind_writedata data channel : flag_blind (writedata data channel).
Proof.
  unfold writedata. apply blind_bind.
  - destruct (if hasattr_iter data then _ else _) as [x|bs|xs];
      [apply blind_lift|apply blind_ret|apply blind_raise].
  - intros bs. apply blind_bind; [apply blind_fifo|]. intros f.
    apply blind_bind; [apply blind_os|]. intros _. apply blind_ret.
Qed.

Lemma blind_readdata channel : flag_blind (readdata channel).
Proof.
  unfold readdata. apply blind_bind; [apply blind_fifo|]. intros f.
  apply blind_bind; [apply blind_os|]. intros data.
  apply blind_bind.
  - destruct data as [[|x d]|]; try apply blind_ret.
    apply blind_bind; [apply blind_readdata_getitem|]. intros buf.
    apply blind_readdata_setitem.
  - intros _. apply blind_bind; [apply blind_readdata_getitem|]. intros buf.
    destruct (bytes_contains LF buf); [|apply blind_ret].
    apply blind_bind; [apply blind_readdata_getitem|]. intros buf'.
    destruct (bytes_partition LF buf') as [[data' nl] rest].
    apply blind_bind; [apply blind_readdata_setitem|]. intros _.
    apply blind_bind; [apply blind_lift|]. intros text.
    destruct (str_contains COMMA text).
    + apply blind_bind; [|intros; apply blind_ret].
      apply blind_list_comp. intros; apply blind_lift.
    + apply blind_bind; [apply blind_lift|]. intros; apply blind_ret.
Qed.

Lemma blind_self {A} (k : t -> M state A) :
  (forall b c, k (set_initialized b c) = k c) ->
  (forall c, flag_blind (k c)) -> flag_blind (bind self k).
Proof.
  intros Hk Hb b c w. unfold bind, self. cbn [fst snd].
  rewrite Hk. apply Hb.
Qed.

Lemma blind_init : flag_blind init.
Proof.
  unfold init. apply blind_self; [done|]. intros c.
  destruct (Z.of_nat (length (__channels c)) <? 2).
  - apply blind_bind; [apply blind_os|]. intros f. apply blind_set_fifos.
  - apply blind_bind; [apply blind_set_fifos|]. intros _.
    apply blind_for_each. intros i.
    apply blind_bind; [apply blind_os|]. intros f. apply blind_fifos_append.
Qed.

Lemma set_initialized_same c : set_initialized (__initialized c) c = c.
Proof. by destruct c. Qed.

(** A method that never looks at the flag never changes it either. *)
Lemma blind_keeps_flag {A} (m : M state A) c w :
  flag_blind m -> __initialized (fst (snd (m (c, w)))) = __initialized c.
Proof.
  intros Hm. specialize (Hm (__initialized c) c w).
  rewrite set_initialized_same in Hm. rewrite Hm. done.
Qed.

Lemma cleanup_clears c w :
  fst (cleanup (c, w)) = Ok tt ->
  __initialized (fst (snd (cleanup (c, w)))) = false.
Proof.
  unfold cleanup. unfold bind at 1 3. unfold bind at 1 2.
  unfold self at 1 2. cbn [fst snd].
  destruct (match __fifos c with
            | Some l => for_each l (fun i => os (FIFOFile.close i))
            | None => raise AttributeError
            end (c, w)) as [[[]|e] [c' w']]; cbn; done.
Qed.

Lemma close_loop_keeps_object l : forall c w,
  fst (snd (for_each l (fun i => os (FIFOFile.close i)) (c, w))) = c.
Proof.
  induction l as [|f l IH]; intros c w; [done|].
  cbn [for_each]. unfold bind. rewrite os_run.
  destruct (FIFOFile.close f w) as [[[]|e] w1]; cbn [fst snd]; [apply IH|done].
Qed.

(** [cleanup()] clears the flag when it goes through, and leaves it as it
    was when it raises. *)
Lemma cleanup_flag c w :
  __initialized (fst (snd (cleanup (c, w))))
  = match fst (cleanup (c, w)) with
    | Ok _ => false
    | Raise _ => __initialized c
    end.
Proof.
  unfold cleanup. unfold bind at 1 3. unfold bind at 1 2.
  unfold self at 1 2. cbn [fst snd].
  destruct (__fifos c) as [l|]; [|done].
  pose proof (close_loop_keeps_object l c w) as Hkeep.
  destruct (for_each l (fun i => os (FIFOFile.close i)) (c, w))
    as [[[]|e] [c' w']]; cbn [fst snd] in *; [done|by subst].
Qed.

(** C4, as the code has it.  The flag is set by [_set_init] and cleared by a
    [cleanup()] that went through, by nothing else: a [cleanup()] that
    raises leaves the flag as it was, and [init()] opens every pipe and
    leaves the flag as it was.  [writedata] and [readdata] never
    look at the flag: whatever it is, they do the same and leave it alone.
    Only [_checkInit] tests it: [_checkInit()] raises [RuntimeError] exactly
    when the flag is false, [_checkInit(True)] returns the flag. *)
Theorem flag_set_and_tested c w data channel b :
  __initialized (fst (snd (init (c, w)))) = __initialized c
  /\ (Forall (fun i => nodes w !! path_of (__fn c) i ≠ Some Directory)
             (suffixes c) ->
      fst (init (c, w)) = Ok tt
      /\ all_open (fst (snd (init (c, w)))) (snd (snd (init (c, w)))))
  /\ _set_init (c, w) = (Ok tt, (set_initialized true c, w))
  /\ __initialized (fst (snd (cleanup (c, w))))
     = match fst (cleanup (c, w)) with
       | Ok _ => false
       | Raise _ => __initialized c
       end
  /\ writedata data channel (set_initialized b c, w)
     = with_flag b (writedata data channel (c, w))
  /\ readdata channel (set_initialized b c, w)
     = with_flag b (readdata channel (c, w))
  /\ _checkInit false (c, w)
     = (if __initialized c then Ok None else Raise RuntimeError, (c, w))
  /\ _checkInit true (c, w) = (Ok (Some (__initialized c)), (c, w)).
Proof.
  split; [apply blind_keeps_flag, blind_init|].
  split.
  { intros Hdir. rewrite init_spec by done. cbn [fst snd].
    split; [done|].
    exists (fst (open_all (__fn c) (suffixes c) w)).
    split; [done|]. split; [|apply open_all_is_open].
    intros E. apply (f_equal length) in E.
    rewrite open_all_length in E. unfold suffixes in E.
    destruct (Z.ltb_spec (Z.of_nat (length (__channels c))) 2);
      [done|cbn in E; lia]. }
  split; [done|].
  split; [apply cleanup_flag|].
  split; [apply blind_writedata|].
  split; [apply blind_readdata|].
  unfold _checkInit, bind, self; cbn.
  by destruct (__initialized c).
Qed.

End InitializedFlag.

Lemma flag_set_and_tested_witness :
  let F := CPython.conv in
  let E := plain_environ in
  let c := {| Component._FN := None; Component.__fn := u "led";
              Component.__channels := [0];
              Component.__fifos := None; Component.__readdata := ∅;
              Component.__initialized := false |} in
  let flagged := Component.set_initialized true c in
  Forall (fun i => nodes empty_world !! path_of (u "led") i ≠ Some Directory)
         [0]
  /\ fst (Component.init (c, empty_world)) = Ok tt
  /\ all_open (fst (snd (Component.init (c, empty_world))))
              (snd (snd (Component.init (c, empty_world))))
  /\ Component._checkInit false (c, empty_world)
     = (Raise RuntimeError, (c, empty_world))
  /\ fst (Component.cleanup (flagged, empty_world)) = Raise AttributeError
  /\ Component.__initialized
       (fst (snd (Component.cleanup (flagged, empty_world)))) = true
  /\ fst (Component.cleanup
            (snd (Component.init (flagged, empty_world)))) = Ok tt
  /\ Component.__initialized
       (fst (snd (Component.cleanup
                    (snd (Component.init (flagged, empty_world)))))) = false.
Proof.
  intros F E c flagged.
  assert (Hdir : Forall (fun i => nodes empty_world !! path_of (u "led") i
                                  ≠ Some Directory) [0]).
  { repeat constructor; cbn; rewrite lookup_empty; discriminate. }
  split; [exact Hdir|].
  destruct (flag_set_and_tested c empty_world (Scalar (Int 7)) 0 false)
    as (_ & Hopen & _ & _ & _ & _ & Hcheck & _).
  destruct (Hopen Hdir) as [Hok Hall].
  split; [exact Hok|]. split; [exact Hall|]. split; [exact Hcheck|].
  assert (Hraise : fst (Component.cleanup (flagged, empty_world))
                   = Raise AttributeError) by (vm_compute; reflexivity).
  split; [exact Hraise|].
  destruct (flag_set_and_tested flagged empty_world (Scalar (Int 7)) 0 false)
    as (_ & _ & _ & Hkept & _).
  rewrite Hraise in Hkept. split; [exact Hkept|].
  assert (Hthrough : fst (Component.cleanup
                            (snd (Component.init (flagged, empty_world))))
                     = Ok tt) by (vm_compute; reflexivity).
  split; [exact Hthrough|].
  destruct (flag_set_and_tested
              (fst (snd (Component.init (flagged, empty_world))))
              (snd (snd (Component.init (flagged, empty_world))))
              (Scalar (Int 7)) 0 false)
    as (_ & _ & _ & Hcleared & _).
  destruct (snd (Component.init (flagged, empty_world))) as [c1 w1] eqn:E1.
  cbn [fst snd] in Hcleared. rewrite Hthrough in Hcleared. exact Hcleared.
Defined.

(** C4, as the spec has it, fails on a plain Component: after [init()] its
    pipe is open while the flag is still false, and [writedata] and
    [readdata] go through without any fault. *)
Lemma open_yet_not_initialized :
  let F := CPython.conv in
  let E := plain_environ in
  let c := {| Component._FN := None; Component.__fn := u "led";
              Component.__channels := [0];
              Component.__fifos := None; Component.__readdata := ∅;
              Component.__initialized := false |} in
  let s1 := snd (Component.init (c, empty_world)) in
  let s2 := snd (Component.writedata (Scalar (Int 7)) 0 s1) in
  Component.__init__ None (Some (u "led")) 1 0 = Ok c
  /\ fst (Component.init (c, empty_world)) = Ok tt
  /\ all_open (fst s1) (snd s1)
  /\ Component.__initialized (fst s1) = false
  /\ fst (Component.writedata (Scalar (Int 7)) 0 s1) = Ok tt
  /\ fst (Component.readdata 0 s2) = Ok (Some (Number 7)).
Proof.
  intros F E c s1 s2.
  split; [reflexivity|].
  split; [vm_compute; reflexivity|].
  split.
  { exists (default [] (Component.__fifos (fst s1))).
    split; [vm_compute; reflexivity|]. split; [vm_compute; discriminate|].
    vm_compute. repeat constructor. exists 0%nat. reflexivity. }
  split; [vm_compute; reflexivity|].
  split; [vm_compute; reflexivity|].
  vm_compute. reflexivity.
Qed.

(** ** [readdata]: one call *)
Section ReadOne.
Context `{FloatConv} `{Environ}.
Import Component.

Lemma buffer_set_buffer channel v c : buffer (set_buffer channel v c) channel = v.
Proof. unfold buffer, set_buffer. cbn. by rewrite lookup_insert_eq. Qed.

Lemma buffer_set_buffer_ne channel channel' v c :
  channel ≠ channel' ->
  buffer (set_buffer channel v c) channel' = buffer c channel'.
Proof.
  intros Hne. unfold buffer, set_buffer. cbn. by rewrite lookup_insert_ne.
Qed.

Lemma set_buffer_twice channel v v' c :
  set_buffer channel v (set_buffer channel v' c) = set_buffer channel v c.
Proof.
  unfold set_buffer, set_readdata. cbn. f_equal. apply insert_insert_eq.
Qed.

Lemma readdata_getitem_spec channel c w :
  readdata_getitem channel (c, w)
  = (Ok (buffer c channel), (set_buffer channel (buffer c channel) c, w)).
Proof.
  unfold readdata_getitem, bind, self, buffer, set_buffer. cbn [fst snd].
  destruct (__readdata c !! channel) as [v|] eqn:E; cbn.
  - unfold ret. do 2 f_equal. rewrite insert_id by done. by destruct c.
  - done.
Qed.

Lemma readdata_setitem_spec channel v c w :
  readdata_setitem channel v (c, w) = (Ok tt, (set_buffer channel v c, w)).
Proof. done. Qed.

Lemma fifo_attached c w channel f p :
  attached c w channel f p -> fifo channel (c, w) = (Ok f, (c, w)).
Proof.
  intros [(fs & Hfs & Hget) _]. unfold fifo, bind, self. cbn [fst snd].
  rewrite Hfs. unfold lift_result. by rewrite Hget.
Qed.

Lemma read_attached c w channel f p :
  attached c w channel f p ->
  FIFOFile.read f w
  = (Ok (match waiting w p with [] => None | data => Some data end),
     drained p w).
Proof.
  intros [_ Hfile]. unfold FIFOFile.read, file_read. rewrite Hfile. cbn.
  unfold drained, waiting. by destruct (concat (default [] (pipes w !! p))).
Qed.

Lemma attached_frame c w channel f p v :
  attached c w channel f p ->
  attached (set_buffer channel v c) (drained p w) channel f p.
Proof.
  intros [Hfs Hfile]. split; [done|].
  unfold drained. by destruct (waiting w p).
Qed.

Lemma attached_peer_write c w channel f p q x :
  attached c w channel f p -> attached c (peer_write q x w) channel f p.
Proof. intros [Hfs Hfile]. by split. Qed.

Lemma attached_sent c w channel f p q x :
  attached c w channel f p -> attached c (sent q x w) channel f p.
Proof.
  intros [Hfs Hfile]. split; [done|].
  by rewrite (proj1 (sent_files q x w)).
Qed.

Lemma waiting_drained p w : waiting (drained p w) p = [].
Proof.
  unfold drained. destruct (waiting w p) eqn:E; [done|].
  unfold waiting. cbn. by rewrite lookup_insert_eq.
Qed.

Lemma waiting_peer_write p x w :
  waiting (peer_write p x w) p = waiting w p ++ x.
Proof.
  unfold waiting, peer_write. cbn. rewrite lookup_insert_eq. cbn.
  destruct (pipe_write_content
              (Z.of_nat (length (default [] (pipes w !! p)) + length x))
              (default [] (pipes w !! p)) x) as [-> _].
  rewrite pipe_write_room by lia. by rewrite Nat2Z.id, firstn_all.
Qed.

Lemma list_comp_lift {S A B} (g : A -> result B) xs (s : S) :
  list_comp xs (fun i => lift_result (g i)) s = (result_map g xs, s).
Proof.
  induction xs as [|x xs IH]; [done|].
  cbn [list_comp result_map]. unfold bind at 1. unfold lift_result at 1.
  destruct (g x) as [y|e]; [|done].
  unfold bind at 1. rewrite IH. cbn. by destruct (result_map g xs).
Qed.

(** After the buffer has been cut, the line is decoded and parsed. *)
Lemma parse_tail line (s : state) :
  bind (lift_result (decode line)) (fun text =>
    if str_contains COMMA text then
      bind (list_comp (str_split COMMA text)
              (fun i => lift_result (float_of_str i)))
           (fun xs => ret (Some (Tuple xs)))
    else bind (lift_result (float_of_str text))
              (fun x => ret (Some (Number x)))) s
  = (result_bind (parse_line line) (fun r => Ok (Some r)), s).
Proof.
  unfold parse_line, bind, lift_result at 1.
  destruct (decode line) as [text|e]; [|done]. cbn.
  destruct (str_contains COMMA text).
  - rewrite list_comp_lift. by destruct (result_map float_of_str _).
  - unfold lift_result. by destruct (float_of_str text).
Qed.

(** One call of [readdata] on an attached channel: the waiting bytes join
    the buffer, and [take_line] says what is returned and what stays. *)
Lemma readdata_spec c w channel f p :
  attached c w channel f p ->
  readdata channel (c, w)
  = (fst (take_line (buffer c channel ++ waiting w p)),
     (set_buffer channel
        (snd (take_line (buffer c channel ++ waiting w p))) c,
      drained p w)).
Proof.
  intros Hatt. unfold readdata.
  rewrite (bind_ok _ _ _ _ _ (fifo_attached _ _ _ _ _ Hatt)).
  erewrite bind_ok; [|rewrite os_run, (read_attached _ _ _ _ _ Hatt); done].
  set (all := buffer c channel ++ waiting w p).
  assert (Hmid : exists c1,
    match (match waiting w p with [] => None | data => Some data end) with
    | Some (x :: d) =>
        bind (readdata_getitem channel) (fun buf =>
          readdata_setitem channel (buf ++ x :: d))
    | _ => ret tt
    end (c, drained p w) = (Ok tt, (c1, drained p w))
    /\ buffer c1 channel = all
    /\ set_buffer channel all c1 = set_buffer channel all c
    /\ forall v, set_buffer channel v c1 = set_buffer channel v c).
  { subst all. destruct (waiting w p) as [|x d] eqn:Ew.
    - exists c. rewrite app_nil_r. done.
    - exists (set_buffer channel (buffer c channel ++ x :: d) c).
      unfold bind. rewrite readdata_getitem_spec, readdata_setitem_spec.
      rewrite set_buffer_twice, buffer_set_buffer.
      split; [done|]. split; [done|]. split; [apply set_buffer_twice|].
      intros v. apply set_buffer_twice. }
  destruct Hmid as (c1 & Hmid & Hbuf & _ & Hset).
  rewrite (bind_ok _ _ _ _ _ Hmid).
  rewrite (bind_ok _ _ _ _ _ (readdata_getitem_spec _ _ _)).
  rewrite Hbuf, Hset. unfold take_line.
  destruct (bytes_contains LF all) eqn:Ec; [|done].
  rewrite (bind_ok _ _ _ _ _ (readdata_getitem_spec _ _ _)).
  rewrite buffer_set_buffer, set_buffer_twice.
  destruct (bytes_partition LF all) as [[line nl] rest].
  rewrite (bind_ok _ _ _ _ _ (readdata_setitem_spec _ _ _ _)).
  rewrite set_buffer_twice. apply parse_tail.
Qed.

End ReadOne.

(** ** [readdata]: a stream of messages in chunks *)
Section Stream.
Context `{FloatConv}.

#[local] Arguments Byte.eqb : simpl never.

Lemma eqb_LF_sym c : Byte.eqb c LF = Byte.eqb LF c.
Proof.
  destruct (Byte.eqb c LF) eqn:E1, (Byte.eqb LF c) eqn:E2; try done.
  - apply Byte.byte_dec_bl in E1. subst. by rewrite Byte.byte_dec_lb in E2.
  - apply Byte.byte_dec_bl in E2. subst. by rewrite Byte.byte_dec_lb in E1.
Qed.

Lemma contains_app a b :
  bytes_contains LF (a ++ b) = bytes_contains LF a || bytes_contains LF b.
Proof. apply existsb_app. Qed.

Lemma contains_cons_LF t : bytes_contains LF (LF :: t) = true.
Proof. done. Qed.

(** [partition] cuts at the first line feed. *)
Lemma partition_found s :
  bytes_contains LF s = true ->
  exists h t, s = h ++ LF :: t /\ bytes_contains LF h = false
              /\ bytes_partition LF s = (h, [LF], t).
Proof.
  induction s as [|c s IH]; [done|]. intros Hc.
  cbn [bytes_partition]. destruct (Byte.eqb c LF) eqn:E.
  - apply Byte.byte_dec_bl in E. subst. by exists [], s.
  - cbn in Hc. rewrite <- eqb_LF_sym, E in Hc. cbn in Hc.
    destruct (IH Hc) as (h & t & -> & Hh & Hp). rewrite Hp.
    exists (c :: h), t. split; [done|]. split; [|done].
    cbn. by rewrite <- eqb_LF_sym, E.
Qed.

Lemma first_line_feed_unique h t m t' :
  bytes_contains LF h = false -> bytes_contains LF m = false ->
  h ++ LF :: t = m ++ LF :: t' -> h = m /\ t = t'.
Proof.
  revert m. induction h as [|c h IH]; intros [|d m] Hh Hm E; cbn in *.
  - by simplify_eq.
  - simplify_eq; try by rewrite Byte.byte_dec_lb in Hm.
  - simplify_eq; try by rewrite Byte.byte_dec_lb in Hh.
  - apply orb_false_iff in Hh as [_ Hh]. apply orb_false_iff in Hm as [_ Hm].
    simplify_eq. destruct (IH m Hh Hm) as [-> ->]; done.
Qed.

Lemma lines_cons m ms : lines (m :: ms) = m ++ LF :: lines ms.
Proof. unfold lines. cbn. by rewrite <- app_assoc. Qed.

Lemma lines_app a b : lines (a ++ b) = lines a ++ lines b.
Proof. unfold lines. by rewrite map_app, concat_app. Qed.

Lemma take_line_none all :
  bytes_contains LF all = false -> take_line all = (Ok None, all).
Proof. intros E. unfold take_line. by rewrite E. Qed.

(** A buffer that starts a stream of messages and holds a line feed holds
    the whole first message: that is the line taken off. *)
Lemma take_line_first all tail m ms rest :
  bytes_contains LF m = false -> bytes_contains LF rest = false ->
  bytes_contains LF all = true ->
  all ++ tail = lines (m :: ms) ++ rest ->
  exists buf1,
    take_line all = (result_bind (parse_line m) (fun r => Ok (Some r)), buf1)
    /\ buf1 ++ tail = lines ms ++ rest.
Proof.
  intros Hm Hrest Hc E. unfold take_line. rewrite Hc.
  destruct (partition_found all Hc) as (h & t & -> & Hh & ->).
  rewrite lines_cons, <- !app_assoc in E. cbn in E.
  destruct (first_line_feed_unique _ _ _ _ Hh Hm E) as [-> Et].
  by exists t.
Qed.

Lemma no_line_in_rest all tail rest :
  bytes_contains LF rest = false -> all ++ tail = rest ->
  bytes_contains LF all = false.
Proof.
  intros Hrest E. rewrite <- E, contains_app in Hrest.
  by apply orb_false_iff in Hrest as [? _].
Qed.

Lemma delivered_app a b : delivered (a ++ b) = delivered a ++ delivered b.
Proof.
  induction a as [|[[r|]|e] a IH]; cbn; by rewrite ?IH.
Qed.

Lemma feed_app buf xs ys :
  feed buf (xs ++ ys)
  = (fst (feed buf xs) ++ fst (feed (snd (feed buf xs)) ys),
     snd (feed (snd (feed buf xs)) ys)).
Proof.
  revert buf. induction xs as [|x xs IH]; intros buf.
  - cbn. by destruct (feed buf ys).
  - cbn. destruct (take_line (buf ++ x)) as [out buf1].
    rewrite IH. destruct (feed buf1 xs) as [o1 b1]. cbn.
    by destruct (feed b1 ys).
Qed.

(** However the stream is cut into chunks, the calls give the messages of a
    front part of it, in order, and the buffer holds exactly what is left. *)
Lemma feed_lines chunks : forall buf msgs rest,
  Forall (fun m => bytes_contains LF m = false) msgs ->
  bytes_contains LF rest = false ->
  buf ++ concat chunks = lines msgs ++ rest ->
  exists done todo,
    msgs = done ++ todo
    /\ delivered (fst (feed buf chunks)) = map parse_line done
    /\ snd (feed buf chunks) = lines todo ++ rest.
Proof.
  induction chunks as [|x chunks IH]; intros buf msgs rest Hmsgs Hrest E.
  - exists [], msgs. cbn in *. rewrite app_nil_r in E. done.
  - cbn [feed]. cbn [concat] in E. rewrite app_assoc in E.
    destruct (bytes_contains LF (buf ++ x)) eqn:Ec.
    + destruct msgs as [|m ms].
      { cbn in E. by rewrite (no_line_in_rest _ _ _ Hrest E) in Ec. }
      inversion Hmsgs as [|? ? Hm Hms]; subst.
      destruct (take_line_first _ _ _ _ _ Hm Hrest Ec E) as (buf1 & -> & E1).
      destruct (IH buf1 ms rest Hms Hrest E1) as (done & todo & -> & Hd & Hb).
      destruct (feed buf1 chunks) as [outs buf2]. cbn in *.
      exists (m :: done), todo. split; [done|]. split; [|done].
      cbn [map]. destruct (parse_line m); cbn; by rewrite Hd.
    + rewrite (take_line_none _ Ec).
      destruct (IH (buf ++ x) msgs rest Hmsgs Hrest E)
        as (done & todo & -> & Hd & Hb).
      destruct (feed (buf ++ x) chunks) as [outs buf2]. cbn in *.
      by exists done, todo.
Qed.

Lemma feed_quiet n : forall buf,
  bytes_contains LF buf = false ->
  feed buf (replicate n []) = (replicate n (Ok None), buf).
Proof.
  induction n as [|n IH]; intros buf Hbuf; [done|].
  cbn [replicate feed]. rewrite app_nil_r, (take_line_none _ Hbuf).
  by rewrite IH.
Qed.

Lemma delivered_quiet n : delivered (replicate n (Ok None)) = [].
Proof. induction n; done. Qed.

(** Calls with no new data take the buffered messages off one by one. *)
Lemma feed_drain n : forall todo rest,
  Forall (fun m => bytes_contains LF m = false) todo ->
  bytes_contains LF rest = false ->
  delivered (fst (feed (lines todo ++ rest) (replicate n [])))
  = map parse_line (take n todo)
  /\ snd (feed (lines todo ++ rest) (replicate n []))
     = lines (drop n todo) ++ rest.
Proof.
  induction n as [|n IH]; intros todo rest Htodo Hrest; [done|].
  destruct todo as [|m ms].
  - change (lines [] ++ rest) with rest. rewrite feed_quiet by done.
    cbn [fst snd take drop map]. split; [apply delivered_quiet|done].
  - cbn [replicate feed]. rewrite app_nil_r.
    inversion Htodo as [|? ? Hm Hms]; subst.
    assert (Ec : bytes_contains LF (lines (m :: ms) ++ rest) = true).
    { rewrite lines_cons, <- app_assoc, contains_app. cbn.
      by rewrite orb_true_r. }
    destruct (take_line_first (lines (m :: ms) ++ rest) [] m ms rest
                Hm Hrest Ec) as (buf1 & -> & E1); [by rewrite app_nil_r|].
    rewrite app_nil_r in E1. subst buf1.
    destruct (IH ms rest Hms Hrest) as [Hd Hb].
    destruct (feed (lines ms ++ rest) (replicate n [])) as [outs buf2].
    cbn in *. split; [|done].
    cbn [map take]. destruct (parse_line m); cbn; by rewrite Hd.
Qed.

End Stream.

(** ** The reader on the component *)
Section Protocol.
Context `{FloatConv} `{Environ}.
Import Component.

Lemma deliver_feed channel f p chunks : forall c w,
  attached c w channel f p -> waiting w p = [] ->
  exists c' w',
    deliver channel p chunks (c, w)
    = (fst (feed (buffer c channel) chunks), (c', w'))
    /\ buffer c' channel = snd (feed (buffer c channel) chunks)
    /\ attached c' w' channel f p
    /\ waiting w' p = []
    /\ forall channel', channel' ≠ channel ->
         buffer c' channel' = buffer c channel'.
Proof.
  induction chunks as [|x chunks IH]; intros c w Hatt Hw.
  - by exists c, w.
  - cbn [deliver feed fst snd].
    pose proof (attached_peer_write _ _ _ _ _ p x Hatt) as Hatt1.
    rewrite (readdata_spec _ _ _ _ _ Hatt1), waiting_peer_write, Hw.
    cbn [app].
    destruct (take_line (buffer c channel ++ x)) as [out buf1].
    cbn [fst snd].
    destruct (IH (set_buffer channel buf1 c) (drained p (peer_write p x w)))
      as (c' & w' & Hrun & Hbuf & Hatt' & Hw' & Hframe).
    { by apply attached_frame. }
    { apply waiting_drained. }
    rewrite buffer_set_buffer in Hrun, Hbuf.
    rewrite Hrun. destruct (feed buf1 chunks) as [outs buf2]. cbn in *.
    exists c', w'. split; [done|]. split; [done|]. split; [done|].
    split; [done|]. intros channel' Hne.
    rewrite Hframe by done. by apply buffer_set_buffer_ne.
Qed.

(** [readdata] returns [None] exactly when the buffer, with what is waiting
    in the pipe, holds no complete line. *)
Lemma readdata_none_iff c w channel f p :
  attached c w channel f p ->
  fst (readdata channel (c, w)) = Ok None
  <-> bytes_contains LF (buffer c channel ++ waiting w p) = false.
Proof.
  intros Hatt. rewrite (readdata_spec _ _ _ _ _ Hatt). cbn [fst].
  unfold take_line.
  destruct (bytes_contains LF (buffer c channel ++ waiting w p)); [|done].
  destruct (bytes_partition LF _) as [[line nl] rest]. cbn.
  by destruct (parse_line line).
Qed.

(** C1.  A channel of a component is attached to an open pipe that has
    nothing waiting.  Another process sends a stream that, after what the
    channel has buffered, is the messages [msgs], each ended by a line feed,
    and a rest without one; the stream arrives in any chunks, the reader
    calls [readdata] after each chunk and [n] more times with no new data.
    Then the calls that do not return [None] give, in order, the parses of
    the first messages [done] of the stream; the others, [todo], with the
    rest are exactly what the buffer still holds; after [length msgs] calls
    with no new data nothing is left to do; the buffers of the other
    channels are as before; and once all messages are out every further call
    returns [None] and the buffer keeps the rest. *)
Theorem readdata_gives_each_message_once c w channel f p msgs rest chunks n :
  attached c w channel f p ->
  waiting w p = [] ->
  Forall (fun m => bytes_contains LF m = false) msgs ->
  bytes_contains LF rest = false ->
  buffer c channel ++ concat chunks = lines msgs ++ rest ->
  exists outs c' w' done todo,
    deliver channel p (chunks ++ replicate n []) (c, w) = (outs, (c', w'))
    /\ msgs = done ++ todo
    /\ delivered outs = map parse_line done
    /\ buffer c' channel = lines todo ++ rest
    /\ ((length msgs <= n)%nat -> todo = [])
    /\ (forall channel', channel' ≠ channel ->
          buffer c' channel' = buffer c channel')
    /\ (todo = [] -> forall k, exists c'' w'',
          deliver channel p (replicate k []) (c', w')
          = (replicate k (Ok None), (c'', w''))
          /\ buffer c'' channel = rest).
Proof.
  intros Hatt Hw Hmsgs Hrest E.
  destruct (deliver_feed channel f p (chunks ++ replicate n []) c w Hatt Hw)
    as (c' & w' & Hrun & Hbuf & Hatt' & Hw' & Hframe).
  rewrite feed_app in Hrun, Hbuf. cbn [fst snd] in Hrun, Hbuf.
  destruct (feed_lines chunks _ msgs rest Hmsgs Hrest E)
    as (done1 & todo1 & Hsplit & Hd1 & Hb1).
  assert (Htodo1 : Forall (fun m => bytes_contains LF m = false) todo1).
  { rewrite Hsplit in Hmsgs. by apply Forall_app in Hmsgs as [_ ?]. }
  rewrite Hb1 in Hrun, Hbuf.
  destruct (feed_drain n todo1 rest Htodo1 Hrest) as [Hd2 Hb2].
  exists (fst (feed (buffer c channel) chunks)
          ++ fst (feed (lines todo1 ++ rest) (replicate n []))).
  exists c', w', (done1 ++ take n todo1), (drop n todo1).
  split; [done|].
  split; [by rewrite <- app_assoc, take_drop|].
  split; [by rewrite delivered_app, Hd1, Hd2, map_app|].
  split; [by rewrite Hbuf, Hb2|].
  split.
  { intros Hn. apply drop_ge. rewrite Hsplit, length_app in Hn. lia. }
  split; [done|].
  intros Hnil k.
  destruct (deliver_feed channel f p (replicate k []) c' w' Hatt' Hw')
    as (c'' & w'' & Hrun' & Hbuf' & _).
  rewrite Hbuf, Hb2, Hnil in Hrun', Hbuf'. cbn [lines map concat app] in *.
  rewrite feed_quiet in Hrun', Hbuf' by done.
  by exists c'', w''.
Qed.

(** C10.  A complete line is in the buffer or arrives from the pipe, and
    its text, or one of its fields between commas, is not a float literal
    for [float].  Then [readdata] raises, and when it does the line is
    already cut off: the buffer holds what followed the line feed, and the
    next call goes on from there. *)
Theorem readdata_drops_malformed_line c w channel f p line tail text field e :
  attached c w channel f p ->
  buffer c channel ++ waiting w p = line ++ LF :: tail ->
  bytes_contains LF line = false ->
  decode line = Ok text ->
  field ∈ str_split COMMA text ->
  float_of_str field = Raise e ->
  exists e' c' w',
    readdata channel (c, w) = (Raise e', (c', w'))
    /\ buffer c' channel = tail
    /\ readdata channel (c', w')
       = (fst (take_line tail),
          (set_buffer channel (snd (take_line tail)) c', drained p w')).
Proof.
  intros Hatt Hall Hline Hdec Hfield He.
  assert (Hc : bytes_contains LF (buffer c channel ++ waiting w p) = true).
  { rewrite Hall, contains_app. cbn. by rewrite orb_true_r. }
  assert (Hraise : exists e', parse_line line = Raise e').
  { unfold parse_line. rewrite Hdec. cbn.
    assert (Hmap : exists e', result_map float_of_str (str_split COMMA text)
                              = Raise e').
    { clear -Hfield He.
      induction (str_split COMMA text) as [|y l IH].
      - by apply elem_of_nil in Hfield.
      - cbn. apply elem_of_cons in Hfield as [<-|Hin].
        + rewrite He. by exists e.
        + destruct (float_of_str y) as [v|e0]; [|by exists e0].
          destruct (IH Hin) as [e1 E1]. rewrite E1. by exists e1. }
    destruct (str_contains COMMA text) eqn:Ecomma.
    - destruct Hmap as [e' ->]. by exists e'.
    - assert (Hone : str_split COMMA text = [text]).
      { clear -Ecomma. induction text as [|x t IH]; [done|].
        change (str_contains COMMA (x :: t))
          with (N.eqb COMMA x || str_contains COMMA t) in Ecomma.
        apply orb_false_iff in Ecomma as [Ex Et].
        change (str_split COMMA (x :: t))
          with (if N.eqb x COMMA then [] :: str_split COMMA t
                else match str_split COMMA t with
                     | fd :: fs => (x :: fd) :: fs
                     | [] => [[x]]
                     end).
        rewrite N.eqb_sym, Ex, (IH Et). done. }
      rewrite Hone in Hfield. apply list_elem_of_singleton in Hfield.
      subst. rewrite He. by exists e. }
  destruct Hraise as [e' He'].
  pose proof (readdata_spec _ _ _ _ _ Hatt) as Hrun.
  unfold take_line in Hrun at 1 2. rewrite Hc in Hrun.
  destruct (partition_found _ Hc) as (h & t & E & Hh & Hp).
  rewrite Hp in Hrun. rewrite Hall in E.
  destruct (first_line_feed_unique _ _ _ _ Hline Hh E) as [<- <-].
  rewrite He' in Hrun. cbn [result_bind fst snd] in Hrun.
  exists e', (set_buffer channel tail c), (drained p w).
  split; [done|]. split; [apply buffer_set_buffer|].
  rewrite (readdata_spec _ _ _ f p) by (by apply attached_frame).
  by rewrite buffer_set_buffer, waiting_drained, app_nil_r.
Qed.

End Protocol.

(** ** [writedata], and a round trip *)
Section Write.
Context `{FloatConv} `{Environ}.
Import Component.

(** [writedata] on an attached channel: the text of [serialized], encoded,
    with one line feed after it, is written to the pipe, and what the write
    returns is dropped. *)
Lemma writedata_spec c w channel f p data bs :
  attached c w channel f p ->
  encode (serialized data) = Ok bs ->
  writedata data channel (c, w)
  = (Ok tt, (c, sent p (bs ++ [LF]) w)).
Proof.
  intros Hatt Henc. unfold writedata.
  assert (Hser : match (if hasattr_iter data
                        then Scalar (Str (str_join (u ",") (map str_ (iter data))))
                        else data) with
                 | Scalar x => lift_result (encode (str_ x))
                 | Bytes s => ret s
                 | Iterable _ => raise TypeError
                 end (c, w) = (Ok bs, (c, w))).
  { unfold lift_result. rewrite <- Henc.
    destruct data as [[z|x|s]|s|xs]; cbn; try done.
    - by rewrite map_map.
    - by rewrite map_map. }
  rewrite (bind_ok _ _ _ _ _ Hser).
  rewrite (bind_ok _ _ _ _ _ (fifo_attached _ _ _ _ _ Hatt)).
  destruct Hatt as [_ Hfile].
  unfold bind. rewrite os_run. unfold FIFOFile.write, file_write.
  rewrite Hfile. done.
Qed.

Lemma attached_led_ready : attached (fst led_ready) (snd led_ready) 0 led_fifo 0.
Proof.
  split.
  - exists [led_fifo]. split; vm_compute; reflexivity.
  - vm_compute. reflexivity.
Qed.

End Write.

(** C2 fails on a string.  [writedata("ab")] puts [b"a,b\n"] into the pipe:
    a string has [__iter__], so it is joined character by character; the
    encoding of the string followed by a line feed would be [b"ab\n"]. *)
Lemma writedata_str_is_joined_by_commas :
  let F := CPython.conv in
  let E := plain_environ in
  let s := Component.writedata (Scalar (Str (u "ab"))) 0 led_ready in
  fst s = Ok tt
  /\ waiting (snd (snd s)) 0 = b "a,b" ++ [LF]
  /\ encode (u "ab") = Ok (b "ab")
  /\ waiting (snd (snd s)) 0 ≠ b "ab" ++ [LF].
Proof.
  intros F E s.
  split; [vm_compute; reflexivity|].
  split; [vm_compute; reflexivity|].
  split; [vm_compute; reflexivity|].
  vm_compute. discriminate.
Qed.

Section RoundTrip.
Context `{Environ}.
Import Component.

(** C5.  On a channel that is attached to an open pipe, with nothing
    buffered and nothing waiting: after [writedata((1, 2.5, 3))] the next
    [readdata] on the channel returns [(1.0, 2.5, 3.0)], and after
    [writedata(7)] it returns [7.0], with the conversions of CPython. *)
Theorem roundtrip_tuple_and_scalar c w channel f p :
  attached c w channel f p ->
  waiting w p = [] ->
  buffer c channel = [] ->
  let F := CPython.conv in
  fst (bind (writedata (Iterable [Int 1; Float 2.5; Int 3]) channel)
         (fun _ => readdata channel) (c, w))
  = Ok (Some (Tuple [1; 2.5; 3]%float))
  /\ fst (bind (writedata (Scalar (Int 7)) channel)
            (fun _ => readdata channel) (c, w))
     = Ok (Some (Number 7%float)).
Proof.
  intros Hatt Hw Hbuf F.
  assert (Hrun : forall data bs,
    encode (serialized data) = Ok bs ->
    Z.of_nat (length (bs ++ [LF])) < PAGE_SIZE ->
    fst (bind (writedata data channel) (fun _ => readdata channel) (c, w))
    = fst (take_line (bs ++ [LF]))).
  { intros data bs Henc Hsmall.
    rewrite (bind_ok _ _ _ _ _ (writedata_spec _ _ _ _ _ _ _ Hatt Henc)).
    rewrite (readdata_spec _ _ _ f p) by (by apply attached_sent).
    rewrite waiting_sent_whole by (by apply taken_no_bytes).
    by rewrite Hw, Hbuf. }
  split.
  - rewrite (Hrun _ (b "1,2.5,3")) by (vm_compute; reflexivity).
    vm_compute. reflexivity.
  - rewrite (Hrun _ (b "7")) by (vm_compute; reflexivity).
    vm_compute. reflexivity.
Qed.

End RoundTrip.

Lemma roundtrip_tuple_and_scalar_witness :
  let F := CPython.conv in
  let E := plain_environ in
  attached (fst led_ready) (snd led_ready) 0 led_fifo 0
  /\ waiting (snd led_ready) 0 = []
  /\ buffer (fst led_ready) 0 = []
  /\ fst (bind (Component.writedata (Iterable [Int 1; Float 2.5; Int 3]) 0)
            (fun _ => Component.readdata 0) led_ready)
     = Ok (Some (Tuple [1; 2.5; 3]%float))
  /\ fst (bind (Component.writedata (Scalar (Int 7)) 0)
            (fun _ => Component.readdata 0) led_ready)
     = Ok (Some (Number 7%float)).
Proof.
  intros F E.
  assert (Hatt : attached (fst led_ready) (snd led_ready) 0 led_fifo 0)
    by exact attached_led_ready.
  assert (Hw : waiting (snd led_ready) 0 = []) by (vm_compute; reflexivity).
  assert (Hb : buffer (fst led_ready) 0 = []) by (vm_compute; reflexivity).
  split; [exact Hatt|]. split; [exact Hw|]. split; [exact Hb|].
  exact (roundtrip_tuple_and_scalar (fst led_ready) (snd led_ready) 0
           led_fifo 0 Hatt Hw Hb).
Defined.

Lemma readdata_gives_each_message_once_witness :
  let F := CPython.conv in
  let E := plain_environ in
  let msgs := [b "1,2.5"; b "7"] in
  let chunks := [b "1,2"; b ".5" ++ [LF] ++ b "7"; [LF] ++ b "3."] in
  attached (fst led_ready) (snd led_ready) 0 led_fifo 0
  /\ waiting (snd led_ready) 0 = []
  /\ Forall (fun m => bytes_contains LF m = false) msgs
  /\ bytes_contains LF (b "3.") = false
  /\ buffer (fst led_ready) 0 ++ concat chunks = lines msgs ++ b "3."
  /\ exists outs s',
       deliver 0 0 (chunks ++ replicate 2 [])
         (fst led_ready, snd led_ready) = (outs, s')
       /\ delivered outs
          = [Ok (Tuple [1; 2.5]%float); Ok (Number 7%float)]
       /\ buffer (fst s') 0 = b "3.".
Proof.
  intros F E msgs chunks.
  assert (Hatt : attached (fst led_ready) (snd led_ready) 0 led_fifo 0)
    by exact attached_led_ready.
  assert (Hw : waiting (snd led_ready) 0 = []) by (vm_compute; reflexivity).
  assert (Hmsgs : Forall (fun m => bytes_contains LF m = false) msgs)
    by (repeat constructor).
  assert (Hrest : bytes_contains LF (b "3.") = false) by reflexivity.
  assert (Hstream : buffer (fst led_ready) 0 ++ concat chunks
                    = lines msgs ++ b "3.") by (vm_compute; reflexivity).
  split; [exact Hatt|]. split; [exact Hw|]. split; [exact Hmsgs|].
  split; [exact Hrest|]. split; [exact Hstream|].
  destruct (readdata_gives_each_message_once (fst led_ready) (snd led_ready)
              0 led_fifo 0 msgs (b "3.") chunks 2 Hatt Hw Hmsgs Hrest Hstream)
    as (outs & c' & w' & done & todo & Hrun & Hsplit & Hd & Hb & Hn & _).
  exists outs, (c', w').
  rewrite (Hn (le_n 2)) in Hsplit, Hb. rewrite app_nil_r in Hsplit.
  rewrite <- Hsplit in Hd.
  split; [exact Hrun|]. split; [|exact Hb].
  rewrite Hd. vm_compute. reflexivity.
Defined.

Lemma readdata_drops_malformed_line_witness :
  let F := CPython.conv in
  let E := plain_environ in
  let w := peer_write 0 (b "1,x" ++ [LF] ++ b "2" ++ [LF]) (snd led_ready) in
  attached (fst led_ready) w 0 led_fifo 0
  /\ buffer (fst led_ready) 0 ++ waiting w 0
     = b "1,x" ++ LF :: (b "2" ++ [LF])
  /\ bytes_contains LF (b "1,x") = false
  /\ decode (b "1,x") = Ok (u "1,x")
  /\ u "x" ∈ str_split COMMA (u "1,x")
  /\ float_of_str (u "x") = Raise ValueError
  /\ exists e' c' w',
       Component.readdata 0 (fst led_ready, w) = (Raise e', (c', w'))
       /\ buffer c' 0 = b "2" ++ [LF].
Proof.
  intros F E w.
  assert (Hatt : attached (fst led_ready) w 0 led_fifo 0)
    by (apply attached_peer_write; exact attached_led_ready).
  assert (Hall : buffer (fst led_ready) 0 ++ waiting w 0
                 = b "1,x" ++ LF :: (b "2" ++ [LF]))
    by (vm_compute; reflexivity).
  assert (Hline : bytes_contains LF (b "1,x") = false) by reflexivity.
  assert (Hdec : decode (b "1,x") = Ok (u "1,x")) by reflexivity.
  assert (Hin : u "x" ∈ str_split COMMA (u "1,x")).
  { apply list_elem_of_In. vm_compute. right. left. reflexivity. }
  assert (He : float_of_str (u "x") = Raise ValueError)
    by (vm_compute; reflexivity).
  split; [exact Hatt|]. split; [exact Hall|]. split; [exact Hline|].
  split; [exact Hdec|]. split; [exact Hin|]. split; [exact He|].
  destruct (readdata_drops_malformed_line (fst led_ready) w 0 led_fifo 0
              (b "1,x") (b "2" ++ [LF]) (u "1,x") (u "x") ValueError
              Hatt Hall Hline Hdec Hin He)
    as (e' & c' & w' & Hrun & Hb & _).
  exists e', c', w'. split; [exact Hrun|exact Hb].
Defined.

(** ** The handler registry: dispatch *)
Section Dispatch.
Context {callback : Type}.
Variable call : callback -> Z -> M (EventedInput.t callback) unit.
Import EventedInput.

Lemma the_dict_touched k k' (r : t callback) :
  the_dict k (touched k' r) = the_dict k r.
Proof.
  unfold touched, handlers_getitem, the_dict.
  destruct (__handlers r !! k') eqn:E; cbn; [done|].
  destruct (decide (k' = k)) as [->|Hne].
  - by rewrite lookup_insert_eq, E.
  - by rewrite lookup_insert_ne.
Qed.

Lemma get_values_run pin generic k (r : t callback)
    (lg : list (event callback)) :
  @_get_handlers callback pin generic = handlers_getitem k ->
  registry (bind (_get_handlers pin generic) values) (r, lg)
  = (Ok (dict_values (the_dict k r)), (touched k r, lg)).
Proof.
  intros ->. unfold registry, zoom, bind, values, touched. cbn [fst snd].
  pose proof (the_dict_touched k k r) as Hd. unfold touched in Hd.
  unfold handlers_getitem in *.
  destruct (__handlers r !! k); cbn in *; by rewrite ?Hd.
Qed.

(** The loop of [_handle_pin] when no handler raises past [Exception]. *)
Lemma dispatch_loop pin hs : forall (r : t callback) lg,
  (forall i s e, i ∈ hs -> fst (call i pin s) = Raise e ->
                 is_Exception e = true) ->
  for_each hs (fun i =>
    try_except (bind (log (Called i pin)) (fun _ => registry (call i pin)))
      is_Exception (fun e => log (Printed e))) (r, lg)
  = (Ok tt, (snd (dispatched call pin hs r),
             lg ++ fst (dispatched call pin hs r))).
Proof.
  induction hs as [|i hs IH]; intros r lg Hexc.
  - cbn. unfold ret. by rewrite app_nil_r.
  - cbn [for_each dispatched].
    assert (Hrest : forall j s e, j ∈ hs -> fst (call j pin s) = Raise e ->
                                  is_Exception e = true).
    { intros j s e Hj. apply Hexc. by apply elem_of_cons; right. }
    pose proof (Hexc i r) as Hi.
    unfold bind at 1, try_except, bind, log at 1, registry, zoom.
    cbn [fst snd].
    destruct (call i pin r) as [[[]|e] r1] eqn:Ecall; cbn [fst snd] in *.
    + rewrite IH by done.
      destruct (dispatched call pin hs r1) as [evs r2]. cbn.
      by rewrite <- app_assoc.
    + rewrite (Hi e) by (by try apply list_elem_of_here).
      unfold log. cbn [fst snd]. rewrite IH by done.
      destruct (dispatched call pin hs r1) as [evs r2]. cbn.
      by rewrite <- !app_assoc.
Qed.

Lemma calls_dispatched pin hs : forall r : t callback,
  calls (fst (dispatched call pin hs r)) = hs.
Proof.
  induction hs as [|i hs IH]; intros r; [done|].
  cbn [dispatched]. destruct (call i pin r) as [out r1].
  specialize (IH r1). destruct (dispatched call pin hs r1) as [evs r2].
  cbn in *. destruct out; cbn; by rewrite IH.
Qed.

Lemma calls_app (evs evs' : list (event callback)) :
  calls (evs ++ evs') = calls evs ++ calls evs'.
Proof.
  induction evs as [|[i p|e] evs IH]; cbn; [done| |done]. by rewrite IH.
Qed.

(** One handler in the loop of [_handle_pin]. *)
Lemma dispatch_step pin i (r : t callback) lg :
  try_except (bind (log (Called i pin)) (fun _ => registry (call i pin)))
    is_Exception (fun e => log (Printed e)) (r, lg)
  = match fst (call i pin r) with
    | Ok _ => (Ok tt, (snd (call i pin r), lg ++ [Called i pin]))
    | Raise e =>
        if is_Exception e
        then (Ok tt, (snd (call i pin r),
                      (lg ++ [Called i pin]) ++ [Printed e]))
        else (Raise e, (snd (call i pin r), lg ++ [Called i pin]))
    end.
Proof.
  unfold try_except, bind, log at 1, registry, zoom. cbn [fst snd].
  destruct (call i pin r) as [[[]|e] r1]; cbn [fst snd]; [done|].
  by destruct (is_Exception e).
Qed.

(** The loop of [_handle_pin] at a handler that raises past [Exception],
    after handlers that did not: the exception leaves the loop, nothing is
    printed for it, and the handlers after it are not called. *)
Lemma dispatch_loop_stops pin pre i post e : forall (r : t callback) lg,
  (forall j s e', j ∈ pre -> fst (call j pin s) = Raise e' ->
                  is_Exception e' = true) ->
  fst (call i pin (snd (dispatched call pin pre r))) = Raise e ->
  is_Exception e = false ->
  for_each (pre ++ i :: post) (fun i =>
    try_except (bind (log (Called i pin)) (fun _ => registry (call i pin)))
      is_Exception (fun e => log (Printed e))) (r, lg)
  = (Raise e,
     (snd (call i pin (snd (dispatched call pin pre r))),
      lg ++ fst (dispatched call pin pre r) ++ [Called i pin])).
Proof.
  intros r lg Hpre Hraise Hout.
  rewrite for_each_app.
  rewrite (bind_ok _ _ _ _ _ (dispatch_loop pin pre r lg Hpre)).
  cbn [for_each]. unfold bind at 1. rewrite dispatch_step, Hraise, Hout.
  by rewrite <- app_assoc.
Qed.

(** The loop of [_handle_pin], whatever the handlers do: it returns after
    it has called every handler, or it raises an exception that does not
    derive from [Exception] after it has called the handlers up to the one
    that raised it. *)
Lemma dispatch_loop_outcome pin hs : forall (r : t callback) lg,
  exists evs out r',
    for_each hs (fun i =>
      try_except (bind (log (Called i pin)) (fun _ => registry (call i pin)))
        is_Exception (fun e => log (Printed e))) (r, lg)
    = (out, (r', lg ++ evs))
    /\ match out with
       | Ok _ => calls evs = hs
       | Raise e =>
           is_Exception e = false
           /\ exists pre i post, hs = pre ++ i :: post
                                 /\ calls evs = pre ++ [i]
       end.
Proof.
  induction hs as [|i hs IH]; intros r lg.
  - exists [], (Ok tt), r. cbn. by rewrite app_nil_r.
  - cbn [for_each]. pose proof (dispatch_step pin i r lg) as Hstep.
    destruct (call i pin r) as [[[]|e] r1]; cbn [fst snd] in Hstep.
    + rewrite (bind_ok _ _ _ _ _ Hstep).
      destruct (IH r1 (lg ++ [Called i pin])) as (evs & out & r' & -> & Hout).
      exists (Called i pin :: evs), out, r'. rewrite <- app_assoc.
      split; [done|]. destruct out as [[]|e].
      * cbn. by rewrite Hout.
      * destruct Hout as (He & pre & j & post & -> & Hcalls).
        split; [done|]. exists (i :: pre), j, post. cbn.
        by rewrite Hcalls.
    + destruct (is_Exception e) eqn:He.
      * rewrite (bind_ok _ _ _ _ _ Hstep).
        destruct (IH r1 ((lg ++ [Called i pin]) ++ [Printed e]))
          as (evs & out & r' & -> & Hout).
        exists (Called i pin :: Printed e :: evs), out, r'.
        rewrite <- !app_assoc. split; [done|]. destruct out as [[]|e'].
        -- cbn. by rewrite Hout.
        -- destruct Hout as (He' & pre & j & post & -> & Hcalls).
           split; [done|]. exists (i :: pre), j, post. cbn.
           by rewrite Hcalls.
      * rewrite (bind_raise _ _ _ _ _ Hstep).
        exists [Called i pin], (Raise e), r1. split; [done|].
        split; [done|]. by exists [], i, hs.
Qed.

(** C6, as the code has it.  When the handlers that are called raise, if
    they raise, only exceptions that derive from [Exception], then
    [_handle_pin(pin)] returns, and it has called the handlers of the
    generic group and then those of the pin, each group in the order of its
    dict, every one exactly once, whichever of them raised; the traceback
    of every exception has been printed right after the call that raised
    it.  An exception that does not derive from [Exception] is not caught:
    when a handler raises one, after handlers that did not,
    [_handle_pin(pin)] raises it, no traceback is printed for it, and the
    handlers after it are not called.  In every case [_handle_pin(pin)]
    either returns, having called every handler in this order, or raises
    an exception outside [Exception], having called the handlers up to the
    one that raised it and none after. *)
Theorem handle_pin_calls_every_handler pin (r : t callback) lg :
  ((forall i s e,
      i ∈ dict_values (the_dict Generic r)
          ++ dict_values (the_dict (Pin pin) r) ->
      fst (call i pin s) = Raise e -> is_Exception e = true) ->
   exists evs r',
     _handle_pin call pin (r, lg) = (Ok tt, (r', lg ++ evs))
     /\ (evs, r')
        = dispatched call pin
            (dict_values (the_dict Generic r)
               ++ dict_values (the_dict (Pin pin) r))
            (touched (Pin pin) (touched Generic r))
     /\ calls evs
        = dict_values (the_dict Generic r)
            ++ dict_values (the_dict (Pin pin) r))
  /\ (forall pre i post e,
        dict_values (the_dict Generic r)
          ++ dict_values (the_dict (Pin pin) r) = pre ++ i :: post ->
        (forall j s e', j ∈ pre -> fst (call j pin s) = Raise e' ->
                        is_Exception e' = true) ->
        fst (call i pin
               (snd (dispatched call pin pre
                       (touched (Pin pin) (touched Generic r)))))
        = Raise e ->
        is_Exception e = false ->
        _handle_pin call pin (r, lg)
        = (Raise e,
           (snd (call i pin
                   (snd (dispatched call pin pre
                           (touched (Pin pin) (touched Generic r))))),
            lg ++ fst (dispatched call pin pre
                         (touched (Pin pin) (touched Generic r)))
               ++ [Called i pin]))
        /\ calls (fst (dispatched call pin pre
                         (touched (Pin pin) (touched Generic r)))
                  ++ [Called i pin])
           = pre ++ [i])
  /\ (exists evs,
        snd (snd (_handle_pin call pin (r, lg))) = lg ++ evs
        /\ match fst (_handle_pin call pin (r, lg)) with
           | Ok _ =>
               calls evs
               = dict_values (the_dict Generic r)
                   ++ dict_values (the_dict (Pin pin) r)
           | Raise e =>
               is_Exception e = false
               /\ exists pre i post,
                    dict_values (the_dict Generic r)
                      ++ dict_values (the_dict (Pin pin) r)
                    = pre ++ i :: post
                    /\ calls evs = pre ++ [i]
           end).
Proof.
  set (hs := dict_values (the_dict Generic r)
               ++ dict_values (the_dict (Pin pin) r)) in *.
  set (r0 := touched (Pin pin) (touched Generic r)).
  assert (Hrun : _handle_pin call pin (r, lg)
                 = for_each hs (fun i =>
                     try_except (bind (log (Called i pin))
                                   (fun _ => registry (call i pin)))
                       is_Exception (fun e => log (Printed e))) (r0, lg)).
  { unfold _handle_pin.
    rewrite (bind_ok _ _ _ _ _ (get_values_run None true Generic r lg eq_refl)).
    rewrite (bind_ok _ _ _ _ _
               (get_values_run (Some pin) false (Pin pin) _ lg eq_refl)).
    by rewrite the_dict_touched. }
  split; [|split].
  - intros Hexc.
    exists (fst (dispatched call pin hs r0)), (snd (dispatched call pin hs r0)).
    split; [|split].
    + rewrite Hrun. by apply dispatch_loop.
    + by destruct (dispatched call pin hs r0).
    + apply calls_dispatched.
  - intros pre i post e Hsplit Hpre Hraise Hout. split.
    + rewrite Hrun, Hsplit. by apply dispatch_loop_stops.
    + rewrite calls_app, calls_dispatched. done.
  - rewrite Hrun.
    destruct (dispatch_loop_outcome pin hs r0 lg)
      as (evs & out & r' & -> & Hout).
    by exists evs.
Qed.

End Dispatch.

Lemma handle_pin_calls_every_handler_witness :
  (forall i s e,
     i ∈ EventedInput.dict_values
           (EventedInput.the_dict EventedInput.Generic two_on_pin_5)
         ++ EventedInput.dict_values
              (EventedInput.the_dict (EventedInput.Pin 5) two_on_pin_5) ->
     fst (zero_raises ValueError i 5 s) = Raise e -> is_Exception e = true)
  /\ (exists evs r',
        EventedInput._handle_pin (zero_raises ValueError) 5 (two_on_pin_5, [])
        = (Ok tt, (r', [] ++ evs))
        /\ calls evs = [0%nat; 1%nat])
  /\ EventedInput.dict_values
       (EventedInput.the_dict EventedInput.Generic two_on_pin_5)
     ++ EventedInput.dict_values
          (EventedInput.the_dict (EventedInput.Pin 5) two_on_pin_5)
     = [] ++ 0%nat :: [1%nat]
  /\ is_Exception KeyboardInterrupt = false
  /\ fst (EventedInput._handle_pin (zero_raises KeyboardInterrupt) 5
            (two_on_pin_5, [])) = Raise KeyboardInterrupt
  /\ snd (snd (EventedInput._handle_pin (zero_raises KeyboardInterrupt) 5
                 (two_on_pin_5, []))) = [EventedInput.Called 0%nat 5].
Proof.
  assert (Hexc : forall i s e,
     i ∈ EventedInput.dict_values
           (EventedInput.the_dict EventedInput.Generic two_on_pin_5)
         ++ EventedInput.dict_values
              (EventedInput.the_dict (EventedInput.Pin 5) two_on_pin_5) ->
     fst (zero_raises ValueError i 5 s) = Raise e -> is_Exception e = true).
  { intros [|i] s e _ E; cbn in E; [|discriminate].
    injection E as <-. reflexivity. }
  split; [exact Hexc|].
  destruct (handle_pin_calls_every_handler (zero_raises ValueError) 5
              two_on_pin_5 []) as (Hall & _ & _).
  destruct (Hall Hexc) as (evs & r' & Hrun & _ & Hcalls).
  split.
  { exists evs, r'. split; [exact Hrun|].
    rewrite Hcalls. vm_compute. reflexivity. }
  assert (Hsplit : EventedInput.dict_values
                     (EventedInput.the_dict EventedInput.Generic two_on_pin_5)
                   ++ EventedInput.dict_values
                        (EventedInput.the_dict (EventedInput.Pin 5)
                           two_on_pin_5)
                   = [] ++ 0%nat :: [1%nat]) by (vm_compute; reflexivity).
  split; [exact Hsplit|]. split; [reflexivity|].
  destruct (handle_pin_calls_every_handler (zero_raises KeyboardInterrupt) 5
              two_on_pin_5 []) as (_ & Hstop & _).
  destruct (Hstop [] 0%nat [1%nat] KeyboardInterrupt Hsplit) as [Hraise _].
  - intros j s e' Hj. by apply elem_of_nil in Hj.
  - reflexivity.
  - reflexivity.
  - rewrite Hraise. split; reflexivity.
Defined.

(** C6, as the spec has it, fails: a handler that raises [SystemExit], which
    does not derive from [Exception], is not caught; [_handle_pin] raises it
    on, nothing is printed, and the handler registered after it is never
    called. *)
Lemma handler_raising_SystemExit_stops_dispatch :
  let s := EventedInput._handle_pin (zero_raises SystemExit) 5
             (two_on_pin_5, []) in
  EventedInput.dict_values
    (EventedInput.the_dict (EventedInput.Pin 5) two_on_pin_5)
  = [0%nat; 1%nat]
  /\ fst s = Raise SystemExit
  /\ snd (snd s) = [EventedInput.Called 0%nat 5]
  /\ calls (snd (snd s)) = [0%nat].
Proof.
  intros s. split; [vm_compute; reflexivity|].
  split; [vm_compute; reflexivity|].
  split; vm_compute; reflexivity.
Qed.

(** ** The handler registry: ids *)
Section HandlerIds.
Context {callback : Type}.
Import EventedInput.

Lemma get_handlers_run pin generic (r : t callback) :
  fst (_get_handlers pin generic r)
  = (if has_key pin generic
     then Ok (if generic then Generic
              else match pin with Some p => Pin p | None => Generic end)
     else Raise TypeError)
  /\ __next_id (snd (_get_handlers pin generic r)) = __next_id r.
Proof.
  unfold _get_handlers, handlers_getitem, raise.
  destruct pin as [p|], generic; cbn;
    try destruct (__handlers r !! _); done.
Qed.

(** [add_handler] takes the next id, also when it then raises. *)
Lemma add_handler_run cb pin generic (r : t callback) :
  fst (add_handler cb pin generic r)
  = (if has_key pin generic then Ok (__next_id r + 1) else Raise TypeError)
  /\ __next_id (snd (add_handler cb pin generic r)) = __next_id r + 1.
Proof.
  unfold add_handler, bind, modify, get, setitem, ret.
  set (r1 := {| __next_id := __next_id r + 1; __handlers := __handlers r |}).
  destruct (get_handlers_run pin generic r1) as [Hout Hid].
  destruct (_get_handlers pin generic r1) as [[k|e] r2]; cbn [fst snd] in *.
  - destruct (has_key pin generic); [|done]. by rewrite Hid.
  - destruct (has_key pin generic); [done|]. by simplify_eq.
Qed.

Lemma remove_handler_run hid pin generic (r : t callback) :
  __next_id (snd (remove_handler hid pin generic r)) = __next_id r.
Proof.
  unfold remove_handler, bind.
  destruct (get_handlers_run pin generic r) as [_ Hid].
  destruct (_get_handlers pin generic r) as [[k|e] r2]; cbn [fst snd] in *;
    [|done].
  unfold delitem. by destruct (dict_mem hid (the_dict k r2)).
Qed.

Lemma serve_add cb pin generic (r : t callback) :
  fst (serve (Add cb pin generic) r)
  = (if has_key pin generic then Ok (Some (__next_id r + 1))
     else Raise TypeError)
  /\ __next_id (snd (serve (Add cb pin generic) r)) = __next_id r + 1.
Proof.
  destruct (add_handler_run cb pin generic r) as [Hout Hid].
  unfold serve, bind.
  destruct (add_handler cb pin generic r) as [[hid|e] r1]; cbn in *.
  - destruct (has_key pin generic); by simplify_eq.
  - destruct (has_key pin generic); by simplify_eq.
Qed.

Lemma serve_remove hid pin generic (r : t callback) :
  issued [fst (serve (Remove hid pin generic) r)] = []
  /\ __next_id (snd (serve (Remove hid pin generic) r)) = __next_id r.
Proof.
  pose proof (remove_handler_run hid pin generic r) as Hid.
  unfold serve, bind.
  by destruct (remove_handler hid pin generic r) as [[[]|e] r1].
Qed.

(** The ids a run of calls returns are above the counter it started from,
    and no id is returned twice. *)
Lemma issued_above rqs : forall r : t callback,
  Forall (fun hid => __next_id r < hid) (issued (fst (serve_all rqs r)))
  /\ NoDup (issued (fst (serve_all rqs r))).
Proof.
  induction rqs as [|rq rqs IH]; intros r.
  - split; constructor.
  - cbn [serve_all]. destruct rq as [cb pin generic|hid pin generic].
    + destruct (serve_add cb pin generic r) as [Hout Hid].
      destruct (serve (Add cb pin generic) r) as [out r1].
      destruct (IH r1) as [Habove Hnodup].
      destruct (serve_all rqs r1) as [outs r2]. cbn [fst snd] in *.
      rewrite Hid in Habove. subst out.
      destruct (has_key pin generic); cbn [issued].
      * split.
        -- constructor; [lia|].
           eapply Forall_impl; [exact Habove|]. cbn. lia.
        -- constructor; [|done]. intros Hin.
           rewrite Forall_forall in Habove. specialize (Habove _ Hin). lia.
      * split; [|done].
        eapply Forall_impl; [exact Habove|]. cbn. lia.
    + destruct (serve_remove hid pin generic r) as [Hout Hid].
      destruct (serve (Remove hid pin generic) r) as [out r1].
      destruct (IH r1) as [Habove Hnodup].
      destruct (serve_all rqs r1) as [outs r2]. cbn [fst snd] in *.
      rewrite Hid in Habove.
      assert (E : issued (out :: outs) = issued outs).
      { destruct out as [[x|]|e]; cbn in *; done. }
      by rewrite E.
Qed.

(** What a call of [add_handler] in a run of calls returns: the counter the
    run started from, plus one, plus the number of calls of [add_handler]
    before it. *)
Lemma add_outcome pre : forall (r : t callback) cb pin generic post,
  fst (serve_all (pre ++ Add cb pin generic :: post) r) !! length pre
  = Some (if has_key pin generic
          then Ok (Some (__next_id r + 1 + Z.of_nat (count_adds pre)))
          else Raise TypeError).
Proof.
  induction pre as [|rq pre IH]; intros r cb pin generic post.
  - cbn [app serve_all length].
    destruct (serve_add cb pin generic r) as [Hout _].
    destruct (serve (Add cb pin generic) r) as [out r1].
    destruct (serve_all post r1) as [outs r2]. cbn in *. subst out.
    destruct (has_key pin generic); [|done]. do 3 f_equal. cbn. lia.
  - cbn [app serve_all length].
    specialize (IH (snd (serve rq r)) cb pin generic post).
    assert (Hid : __next_id (snd (serve rq r)) + Z.of_nat (count_adds pre)
                  = __next_id r + Z.of_nat (count_adds (rq :: pre))).
    { destruct rq as [cb' pin' generic'|hid pin' generic'].
      - destruct (serve_add cb' pin' generic' r) as [_ ->].
        unfold count_adds. cbn. lia.
      - destruct (serve_remove hid pin' generic' r) as [_ ->]. done. }
    destruct (serve rq r) as [out r1]. cbn [snd] in *.
    destruct (serve_all (pre ++ Add cb pin generic :: post) r1) as [outs r2].
    cbn [fst] in *.
    change ((out :: outs) !! S (length pre)) with (outs !! length pre).
    rewrite IH.
    destruct (has_key pin generic); [|done]. do 3 f_equal. lia.
Qed.

(** C7, as the code has it.  In any run of calls of [add_handler] and
    [remove_handler] on a new registry, no handler id is returned twice; and
    a call of [add_handler] either raises [TypeError], when it is given
    neither a pin nor [generic], or returns the number of calls of
    [add_handler] made before it, those that raised included: the first
    call returns zero if it returns. *)
Theorem handler_ids_count_add_calls (rqs : list (request callback)) :
  NoDup (issued (fst (serve_all rqs __init__)))
  /\ (forall pre cb pin generic post,
        rqs = pre ++ Add cb pin generic :: post ->
        fst (serve_all rqs __init__) !! length pre
        = Some (if has_key pin generic
                then Ok (Some (Z.of_nat (count_adds pre)))
                else Raise TypeError)).
Proof.
  split; [apply issued_above|].
  intros pre cb pin generic post ->. rewrite add_outcome.
  change (__next_id __init__) with (-1).
  destruct (has_key pin generic); [|done]. do 3 f_equal; lia.
Qed.

End HandlerIds.

(** C7, as the spec has it, fails: when the first call of [add_handler]
    raises for want of a pin, the counter has moved all the same, and the
    first id that is issued is one, not zero. *)
Lemma first_issued_id_after_failed_add :
  let outs := fst (serve_all [Add 0%nat None false; Add 0%nat (Some 3) false]
                     EventedInput.__init__) in
  outs = [Raise TypeError; Ok (Some 1)]
  /\ issued outs = [1]
  /\ hd_error (issued outs) ≠ Some 0.
Proof.
  intros outs. split; [vm_compute; reflexivity|].
  split; [vm_compute; reflexivity|]. vm_compute. discriminate.
Qed.

(** ** The handler registry: registration order *)
Section RegistrationOrder.
Context {callback : Type}.
Import EventedInput.

Lemma dict_set_new hid (cb : callback) d :
  (forall h c, (h, c) ∈ d -> h ≠ hid) ->
  dict_set hid cb d = d ++ [(hid, cb)].
Proof.
  induction d as [|[h c] d IH]; intros Hnew; [done|].
  cbn. destruct (Z.eqb_spec h hid) as [->|Hne].
  - exfalso. by apply (Hnew hid c); [apply list_elem_of_here|].
  - rewrite IH; [done|]. intros h' c' Hin. apply (Hnew h' c').
    by apply list_elem_of_further.
Qed.

(** The registry after an [add_handler] that is given a key. *)
Lemma add_handler_state cb pin generic (r : t callback) :
  has_key pin generic = true ->
  snd (add_handler cb pin generic r)
  = {| __next_id := __next_id r + 1;
       __handlers :=
         <[key_of pin generic :=
             dict_set (__next_id r + 1) cb (the_dict (key_of pin generic) r)]>
           (__handlers r) |}.
Proof.
  intros Hkey. unfold add_handler, bind, modify, get, setitem, ret.
  cbn [fst snd].
  assert (Hget : forall r1 : t callback,
    _get_handlers pin generic r1
    = (Ok (key_of pin generic), touched (key_of pin generic) r1)).
  { intros r1. unfold _get_handlers, key_of, touched.
    destruct pin as [p|], generic; try done;
      unfold handlers_getitem; by destruct (__handlers r1 !! _). }
  rewrite Hget. cbn [fst snd].
  set (r1 := {| __next_id := __next_id r + 1; __handlers := __handlers r |}).
  assert (Hid : __next_id (touched (key_of pin generic) r1) = __next_id r + 1).
  { unfold touched, handlers_getitem.
    by destruct (__handlers r1 !! key_of pin generic). }
  rewrite Hid, the_dict_touched. f_equal.
  unfold touched, handlers_getitem, the_dict. subst r1. cbn [__handlers].
  destruct (__handlers r !! key_of pin generic) eqn:E; cbn; [done|].
  by rewrite insert_insert_eq.
Qed.

(** With ids bounded by the counter, [add_handler] puts the new handler
    last in the dict of its key, leaves the other dicts alone, and keeps the
    ids bounded: the order of a dict is the order of registration. *)
Lemma add_handler_appends cb pin generic (r : t callback) :
  has_key pin generic = true -> ids_bounded r ->
  let r' := snd (add_handler cb pin generic r) in
  the_dict (key_of pin generic) r'
  = the_dict (key_of pin generic) r ++ [(__next_id r + 1, cb)]
  /\ (forall k, k ≠ key_of pin generic -> the_dict k r' = the_dict k r)
  /\ ids_bounded r'.
Proof.
  intros Hkey Hb r'. subst r'. rewrite add_handler_state by done.
  assert (Hset : dict_set (__next_id r + 1) cb (the_dict (key_of pin generic) r)
                 = the_dict (key_of pin generic) r ++ [(__next_id r + 1, cb)]).
  { apply dict_set_new. intros h c Hin. specialize (Hb _ _ _ Hin). lia. }
  rewrite Hset.
  assert (Hsame : the_dict (key_of pin generic)
            {| __next_id := __next_id r + 1;
               __handlers :=
                 <[key_of pin generic :=
                     the_dict (key_of pin generic) r ++ [(__next_id r + 1, cb)]]>
                   (__handlers r) |}
          = the_dict (key_of pin generic) r ++ [(__next_id r + 1, cb)]).
  { unfold the_dict at 1. cbn. by rewrite lookup_insert_eq. }
  assert (Hother : forall k, k ≠ key_of pin generic ->
            the_dict k
              {| __next_id := __next_id r + 1;
                 __handlers :=
                   <[key_of pin generic :=
                       the_dict (key_of pin generic) r
                         ++ [(__next_id r + 1, cb)]]> (__handlers r) |}
            = the_dict k r).
  { intros k Hne. unfold the_dict at 1. cbn. by rewrite lookup_insert_ne. }
  split; [done|]. split; [done|].
  intros k hid c. destruct (decide (k = key_of pin generic)) as [->|Hne].
  - rewrite Hsame. intros [Hin|Hin]%elem_of_app.
    + specialize (Hb _ _ _ Hin). cbn. lia.
    + apply list_elem_of_singleton in Hin. simplify_eq. cbn. lia.
  - rewrite Hother by done. intros Hin. specialize (Hb _ _ _ Hin). cbn. lia.
Qed.

Lemma ids_bounded_new : ids_bounded (@__init__ callback).
Proof. intros k hid cb Hin. by apply elem_of_nil in Hin. Qed.

End RegistrationOrder.

Lemma handler_ids_count_add_calls_witness :
  let rqs := [Add 0%nat (Some 3) false; Remove 0 (Some 3) false;
              Add 1%nat None true] in
  rqs = [Add 0%nat (Some 3) false; Remove 0 (Some 3) false]
        ++ Add 1%nat None true :: []
  /\ NoDup (issued (fst (serve_all rqs EventedInput.__init__)))
  /\ fst (serve_all rqs EventedInput.__init__) !! 2%nat = Some (Ok (Some 1)).
Proof.
  intros rqs.
  destruct (handler_ids_count_add_calls rqs) as [Hnodup Hid].
  split; [reflexivity|]. split; [exact Hnodup|].
  exact (Hid [Add 0%nat (Some 3) false; Remove 0 (Some 3) false]
             1%nat None true [] eq_refl).
Defined.

(** ** The polling loop *)
Section Looped.
Context {conv : FloatConv} {env : Environ}.
Variable tick : M Component.state unit.
Import LoopedComponent.

Lemma super_run {A} (m : M Component.state A) l w :
  super m (l, w)
  = (fst (m (base l, w)),
     ({| base := fst (snd (m (base l, w))); __started := __started l |},
      snd (snd (m (base l, w))))).
Proof. unfold super, zoom. cbn. by destruct (m (base l, w)) as [r [c w']]. Qed.

Lemma start_spec l w :
  start (l, w)
  = if Component.__initialized (base l)
    then (Ok tt, ({| base := base l; __started := true |}, w))
    else (Raise RuntimeError, (l, w)).
Proof.
  unfold start, bind. rewrite super_run.
  unfold Component._checkInit, bind, Component.self. cbn.
  destruct l as [c st]; cbn. by destruct (Component.__initialized c).
Qed.

Lemma stop_spec l w :
  stop (l, w) = (Ok tt, ({| base := base l; __started := false |}, w)).
Proof. done. Qed.

Lemma cleanup_spec l w :
  cleanup (l, w)
  = super Component.cleanup ({| base := base l; __started := false |}, w).
Proof.
  unfold cleanup, bind, get. cbn [fst snd].
  destruct l as [c [|]]; done.
Qed.

Lemma main_keeps_stopped c s :
  quiet [Main c] = true -> __started (fst s) = false ->
  __started (fst (snd (run_call c s))) = false.
Proof.
  destruct s as [l w]. intros Hq Hs. cbn in Hs.
  destruct c as [[|]| | |]; try done; cbn [run_call].
  - unfold init, bind. rewrite super_run. cbn [fst snd].
    destruct (Component.init (base l, w)) as [[[]|e] [c1 w1]]; cbn [fst snd];
      [|done].
    rewrite super_run. done.
  - rewrite cleanup_spec, super_run. done.
Qed.

(** Once the flag is false and nothing starts the component again, the loop
    calls [tick] at most once more: the call it had already decided on. *)
Lemma ticks_after_stop acts : forall s,
  quiet acts = true -> __started (fst (obj s)) = false ->
  (ticks (run tick acts s)
   <= ticks s + match at_ s with AtTick => 1 | _ => 0 end)%nat
  /\ __started (fst (obj (run tick acts s))) = false.
Proof.
  induction acts as [|a acts IH]; intros s Hq Hs.
  - cbn. split; [lia|done].
  - cbn in Hq. apply andb_true_iff in Hq as [Ha Hq].
    change (run tick (a :: acts) s) with (run tick acts (step tick a s)).
    destruct a as [|c].
    + cbn [step]. unfold runloop_step.
      destruct (at_ s) eqn:Eat.
      * rewrite Hs.
        destruct (IH {| obj := obj s; at_ := AtWait; ticks := ticks s |} Hq Hs)
          as [Ht Hst]. cbn in Ht. split; [lia|done].
      * destruct (obj s) as [l w] eqn:Eobj. rewrite super_run.
        cbn [fst snd] in *.
        match goal with
        | |- context [run tick acts ?s'] =>
            destruct (IH s' Hq Hs) as [Ht Hst];
            assert (Hat : at_ s' <> AtTick)
              by (cbn; destruct (fst (tick (base l, w))); discriminate)
        end.
        split; [|done].
        match type of Ht with
        | context [at_ ?s'] => destruct (at_ s'); cbn in Ht; try done; lia
        end.
      * destruct (IH {| obj := obj s; at_ := AtTest; ticks := ticks s |} Hq Hs)
          as [Ht Hst]. cbn in Ht. split; [lia|done].
      * destruct (IH s Hq Hs) as [Ht Hst]. rewrite Eat in Ht.
        split; [lia|done].
    + cbn [step].
      assert (Hs' : __started (fst (snd (run_call c (obj s)))) = false).
      { apply main_keeps_stopped; [|done]. cbn. by rewrite Ha. }
      destruct (IH {| obj := snd (run_call c (obj s));
                      at_ := at_ s; ticks := ticks s |} Hq Hs') as [Ht Hst].
      cbn in Ht. split; [lia|done].
Qed.

(** C8, as the code has it.  [start()] raises [RuntimeError] on a component
    that is not initialized and changes nothing, and otherwise sets the
    flag; [stop()] clears it whatever the state; [cleanup()] is the base
    cleanup after the flag has been cleared.  The loop calls [tick] only in
    the step after a test that found the flag set: another thread may clear
    the flag between the two, so after [stop()], as long as nothing starts
    the component again, [tick] is called at most once more, namely when
    the loop had passed its test already, and never when it had not. *)
Theorem looped_component_runs_while_started l w (s : system) acts :
  start (l, w)
  = (if Component.__initialized (base l)
     then (Ok tt, ({| base := base l; __started := true |}, w))
     else (Raise RuntimeError, (l, w)))
  /\ stop (l, w) = (Ok tt, ({| base := base l; __started := false |}, w))
  /\ cleanup (l, w)
     = super Component.cleanup ({| base := base l; __started := false |}, w)
  /\ __started (fst (snd (cleanup (l, w)))) = false
  /\ (ticks (runloop_step tick s) ≠ ticks s -> at_ s = AtTick)
  /\ (at_ (runloop_step tick s) = AtTick ->
      at_ s = AtTest /\ __started (fst (obj s)) = true)
  /\ (quiet acts = true -> __started (fst (obj s)) = false ->
      (ticks (run tick acts s)
       <= ticks s + match at_ s with AtTick => 1 | _ => 0 end)%nat
      /\ __started (fst (obj (run tick acts s))) = false).
Proof.
  split; [apply start_spec|]. split; [apply stop_spec|].
  split; [apply cleanup_spec|].
  split; [rewrite cleanup_spec, super_run; done|].
  split.
  { unfold runloop_step. destruct (at_ s); try done.
    all: destruct (super tick (obj s)); done. }
  split.
  { unfold runloop_step. destruct (at_ s) eqn:E; cbn; try done.
    all: try (by destruct (__started (fst (obj s)))).
    all: try (destruct (super tick (obj s)) as [[|] o]; done).
    all: try (by rewrite E). }
  apply ticks_after_stop.
Qed.

End Looped.

Lemma looped_component_runs_while_started_witness :
  let F := CPython.conv in
  let E := plain_environ in
  let acts := [LoopedComponent.Loop; LoopedComponent.Main LoopedComponent.Stop;
               LoopedComponent.Loop; LoopedComponent.Loop;
               LoopedComponent.Loop; LoopedComponent.Loop] in
  quiet acts = true
  /\ LoopedComponent.__started
       (fst (LoopedComponent.obj stopped_after_test)) = false
  /\ LoopedComponent.at_ stopped_after_test = LoopedComponent.AtTick
  /\ (LoopedComponent.ticks
        (LoopedComponent.run idle_tick acts stopped_after_test)
      <= LoopedComponent.ticks stopped_after_test + 1)%nat.
Proof.
  intros F E acts.
  assert (Hq : quiet acts = true) by reflexivity.
  assert (Hs : LoopedComponent.__started
                 (fst (LoopedComponent.obj stopped_after_test)) = false)
    by (vm_compute; reflexivity).
  assert (Hat : LoopedComponent.at_ stopped_after_test
                = LoopedComponent.AtTick) by (vm_compute; reflexivity).
  split; [exact Hq|]. split; [exact Hs|]. split; [exact Hat|].
  destruct (looped_component_runs_while_started idle_tick
              (fst (LoopedComponent.obj stopped_after_test))
              (snd (LoopedComponent.obj stopped_after_test))
              stopped_after_test acts)
    as (_ & _ & _ & _ & _ & _ & Hticks).
  destruct (Hticks Hq Hs) as [Hle _].
  rewrite Hat in Hle. exact Hle.
Defined.

(** C8, as the spec has it, fails: the loop tests the flag and calls [tick]
    in two steps, and a [stop()] between them does not hold the call back.
    After [init(autostart=True)], one step of the loop and [stop()], the
    flag is false and [tick] has not been called; the next step of the loop
    calls it. *)
Lemma tick_after_stop :
  let F := CPython.conv in
  let E := plain_environ in
  LoopedComponent.__started (fst (LoopedComponent.obj stopped_after_test))
  = false
  /\ LoopedComponent.ticks stopped_after_test = 0%nat
  /\ LoopedComponent.ticks
       (LoopedComponent.run idle_tick [LoopedComponent.Loop]
          stopped_after_test) = 1%nat.
Proof.
  intros F E. split; [vm_compute; reflexivity|].
  split; vm_compute; reflexivity.
Qed.

(** ** More on [writedata] and on channel numbers *)
Section WriteMore.
Context `{FloatConv} `{Environ}.
Import Component.

(** [writedata] in three steps: the text is encoded, the pipe file of the
    channel is looked up, the line is written. *)
Lemma writedata_steps data channel s :
  writedata data channel s
  = bind (lift_result (encode (serialized data))) (fun bs =>
      bind (fifo channel) (fun f =>
        bind (os (FIFOFile.write f (bs ++ [LF]))) (fun _ => ret tt))) s.
Proof.
  unfold writedata.
  assert (Hser : match (if hasattr_iter data
                        then Scalar (Str (str_join (u ",") (map str_ (iter data))))
                        else data) with
                 | Scalar x => lift_result (encode (str_ x))
                 | Bytes bs => ret bs
                 | Iterable _ => raise TypeError
                 end = @lift_result state _ (encode (serialized data))).
  { destruct data as [[z|x|t]|t|xs]; cbn; try done; by rewrite map_map. }
  by rewrite Hser.
Qed.

Lemma peer_write_frame p q x w :
  p ≠ q -> waiting (peer_write p x w) q = waiting w q.
Proof.
  intros Hne. unfold waiting, peer_write. cbn. by rewrite lookup_insert_ne.
Qed.


(** The loop of a writer whose lines are a page at most each, on a pipe
    with a free buffer for every one of them. *)
Lemma write_all_run channel f p datas : forall c w,
  attached c w channel f p ->
  Forall (fun d => exists bs, encode (serialized d) = Ok bs
                              /\ Z.of_nat (length bs) < PAGE_SIZE) datas ->
  Z.of_nat (length (buffers w p) + length datas) <= PIPE_DEF_BUFFERS ->
  exists w',
    write_all channel datas (c, w) = (Ok tt, (c, w'))
    /\ waiting w' p = waiting w p ++ concat (map wire datas)
    /\ attached c w' channel f p
    /\ (forall q, p ≠ q -> waiting w' q = waiting w q)
    /\ files w' = files w /\ nodes w' = nodes w.
Proof.
  induction datas as [|d datas IH]; intros c w Hatt Hok Hroom.
  - exists w. cbn. by rewrite app_nil_r.
  - inversion Hok as [|? ? (bs & Hbs & Hpage) Hrest]; subst.
    unfold write_all. cbn [for_each].
    rewrite (bind_ok _ _ _ _ _ (writedata_spec _ _ _ _ _ _ _ Hatt Hbs)).
    assert (Hlen : Z.of_nat (length (bs ++ [LF])) <= PAGE_SIZE)
      by (rewrite length_app; cbn [length]; lia).
    assert (Hall : taken w p (bs ++ [LF]) = Z.of_nat (length (bs ++ [LF]))).
    { apply taken_page; [done|]. cbn [length] in Hroom. lia. }
    assert (Hbufs : (length (buffers (sent p (bs ++ [LF]) w) p)
                     <= length (buffers w p) + 1)%nat).
    { rewrite buffers_sent
        by (rewrite Hall, length_app; cbn [length]; lia).
      apply pipe_write_page; [done|]. cbn [length] in Hroom. lia. }
    destruct (IH c (sent p (bs ++ [LF]) w)) as
      (w' & Hrun & Hw & Hatt' & Hframe & Hfiles & Hnodes);
      [by apply attached_sent|done|cbn [length] in Hroom; lia|].
    destruct (sent_files p (bs ++ [LF]) w) as [Hf Hn].
    exists w'. split; [exact Hrun|].
    split.
    { rewrite Hw, waiting_sent_whole by done. cbn [map concat].
      unfold wire at 2. rewrite Hbs. by rewrite <- app_assoc. }
    split; [done|]. split; [|by rewrite Hfiles, Hnodes].
    intros q Hne. rewrite Hframe by done. by apply waiting_sent_frame.
Qed.

(** Lines written on one channel reach its pipe in the order of the calls,
    as long as the pipe has room for them.  When every line with its line
    feed is a page at most, and the pipe has a free buffer for each of
    them: after [writedata] of each of [datas] in turn, the pipe of the
    channel holds what it held followed by the lines of the calls, whole
    and in call order; the other pipes, the open files and the file system
    are as before, and so is the component. *)
Theorem writedata_calls_arrive_in_order c w channel f p datas :
  attached c w channel f p ->
  Forall (fun d => exists bs, encode (serialized d) = Ok bs
                              /\ Z.of_nat (length bs) < PAGE_SIZE) datas ->
  Z.of_nat (length (buffers w p) + length datas) <= PIPE_DEF_BUFFERS ->
  exists w',
    write_all channel datas (c, w) = (Ok tt, (c, w'))
    /\ waiting w' p = waiting w p ++ concat (map wire datas)
    /\ (forall q, p ≠ q -> waiting w' q = waiting w q)
    /\ files w' = files w /\ nodes w' = nodes w.
Proof.
  intros Hatt Hok Hroom.
  destruct (write_all_run channel f p datas c w Hatt Hok Hroom)
    as (w' & Hrun & Hw & _ & Hframe & Hfiles & Hnodes).
  by exists w'.
Qed.

Lemma fifo_unset c w channel :
  __fifos c = None -> fifo channel (c, w) = (Raise AttributeError, (c, w)).
Proof. intros E. unfold fifo, bind, self. cbn. by rewrite E. Qed.

Lemma fifo_out_of_range c w channel fs :
  __fifos c = Some fs ->
  (channel < - Z.of_nat (length fs) \/ Z.of_nat (length fs) <= channel) ->
  fifo channel (c, w) = (Raise IndexError, (c, w)).
Proof.
  intros E Hr. unfold fifo, bind, self. cbn. rewrite E.
  unfold lift_result, list_getitem.
  destruct (Z.ltb_spec channel 0).
  - destruct (Z.leb_spec 0 (channel + Z.of_nat (length fs))); [lia|done].
  - destruct (Z.leb_spec 0 channel); [|lia].
    destruct (Z.ltb_spec channel (Z.of_nat (length fs))); [lia|done].
Qed.

(** A channel that has no pipe file.  Before [init()] both [readdata] and
    [writedata] raise [AttributeError]; after it, for a channel number
    outside [-n .. n-1], with [n] the number of pipe files, both raise
    [IndexError].  Nothing is read or written and no state changes.
    ([writedata] encodes its text first: a text that cannot be encoded
    raises the encoding error instead.) *)
Theorem channel_without_pipe_file c w channel data bs :
  encode (serialized data) = Ok bs ->
  (__fifos c = None ->
     readdata channel (c, w) = (Raise AttributeError, (c, w))
     /\ writedata data channel (c, w) = (Raise AttributeError, (c, w)))
  /\ (forall fs, __fifos c = Some fs ->
        (channel < - Z.of_nat (length fs) \/ Z.of_nat (length fs) <= channel) ->
        readdata channel (c, w) = (Raise IndexError, (c, w))
        /\ writedata data channel (c, w) = (Raise IndexError, (c, w))).
Proof.
  intros Henc. split.
  - intros E. split.
    + unfold readdata. by rewrite (bind_raise _ _ _ _ _ (fifo_unset _ _ _ E)).
    + rewrite writedata_steps. unfold bind at 1, lift_result. rewrite Henc.
      by rewrite (bind_raise _ _ _ _ _ (fifo_unset _ _ _ E)).
  - intros fs E Hr. split.
    + unfold readdata.
      by rewrite (bind_raise _ _ _ _ _ (fifo_out_of_range _ _ _ _ E Hr)).
    + rewrite writedata_steps. unfold bind at 1, lift_result. rewrite Henc.
      by rewrite (bind_raise _ _ _ _ _ (fifo_out_of_range _ _ _ _ E Hr)).
Qed.

Lemma list_getitem_negative {A} (fs : list A) channel :
  0 <= channel < Z.of_nat (length fs) ->
  list_getitem fs (channel - Z.of_nat (length fs)) = list_getitem fs channel.
Proof.
  intros Hr. unfold list_getitem.
  destruct (Z.ltb_spec (channel - Z.of_nat (length fs)) 0); [|lia].
  destruct (Z.ltb_spec channel 0); [lia|].
  by replace (channel - Z.of_nat (length fs) + Z.of_nat (length fs))
    with channel by lia.
Qed.

(** A negative channel number is the same pipe under another buffer.  With
    [n] pipe files and [0 <= channel < n], [readdata(channel - n)] reads the
    pipe of [channel], but it keeps what it read under the key
    [channel - n]: the bytes are gone from the pipe and the buffer of
    [channel] never sees them. *)
Theorem negative_channel_shares_pipe c w channel f p fs :
  __fifos c = Some fs ->
  0 <= channel < Z.of_nat (length fs) ->
  attached c w channel f p ->
  let alias := channel - Z.of_nat (length fs) in
  attached c w alias f p
  /\ readdata alias (c, w)
     = (fst (take_line (buffer c alias ++ waiting w p)),
        (set_buffer alias (snd (take_line (buffer c alias ++ waiting w p))) c,
         drained p w))
  /\ buffer (fst (snd (readdata alias (c, w)))) channel = buffer c channel
  /\ waiting (snd (snd (readdata alias (c, w)))) p = [].
Proof.
  intros Hfs Hr Hatt alias.
  assert (Halias : attached c w alias f p).
  { destruct Hatt as [(fs' & Hfs' & Hget) Hfile]. split; [|done].
    exists fs. split; [done|]. rewrite Hfs in Hfs'. simplify_eq.
    subst alias. by rewrite list_getitem_negative. }
  split; [done|]. rewrite (readdata_spec _ _ _ _ _ Halias). cbn [fst snd].
  split; [done|]. split; [|apply waiting_drained].
  apply buffer_set_buffer_ne. subst alias. lia.
Qed.

End WriteMore.

(** ** Written lines are read back one per call *)
Section Queue.
Context `{FloatConv} `{Environ}.
Import Component.

Lemma feed_shift buf x rest :
  feed buf (x :: rest) = feed (buf ++ x) ([] :: rest).
Proof. cbn [feed]. by rewrite app_nil_r. Qed.

(** Calls of [readdata] with nothing arriving in between. *)
Lemma read_n_feed channel f p n : forall c w,
  attached c w channel f p -> waiting w p = [] ->
  exists c' w',
    read_n channel n (c, w)
    = (fst (feed (buffer c channel) (replicate n [])), (c', w'))
    /\ buffer c' channel = snd (feed (buffer c channel) (replicate n []))
    /\ attached c' w' channel f p /\ waiting w' p = [].
Proof.
  induction n as [|n IH]; intros c w Hatt Hw.
  - by exists c, w.
  - cbn [read_n replicate feed].
    rewrite (readdata_spec _ _ _ _ _ Hatt), Hw.
    destruct (take_line (buffer c channel ++ [])) as [out buf1]. cbn [fst snd].
    destruct (IH (set_buffer channel buf1 c) (drained p w))
      as (c' & w' & Hrun & Hbuf & Hatt' & Hw');
      [by apply attached_frame|apply waiting_drained|].
    rewrite buffer_set_buffer in Hrun, Hbuf. rewrite Hrun.
    destruct (feed buf1 (replicate n [])) as [outs buf2].
    by exists c', w'.
Qed.

(** The first call finds what is waiting in the pipe. *)
Lemma read_n_feed_waiting channel f p n c w :
  attached c w channel f p ->
  exists c' w',
    read_n channel (S n) (c, w)
    = (fst (feed (buffer c channel ++ waiting w p) (replicate (S n) [])),
       (c', w'))
    /\ buffer c' channel
       = snd (feed (buffer c channel ++ waiting w p) (replicate (S n) []))
    /\ attached c' w' channel f p /\ waiting w' p = [].
Proof.
  intros Hatt. cbn [read_n replicate feed]. rewrite app_nil_r.
  rewrite (readdata_spec _ _ _ _ _ Hatt).
  destruct (take_line (buffer c channel ++ waiting w p)) as [out buf1].
  cbn [fst snd].
  destruct (read_n_feed channel f p n (set_buffer channel buf1 c) (drained p w))
    as (c' & w' & Hrun & Hbuf & Hatt' & Hw');
    [by apply attached_frame|apply waiting_drained|].
  rewrite buffer_set_buffer in Hrun, Hbuf. rewrite Hrun.
  destruct (feed buf1 (replicate n [])) as [outs buf2].
  by exists c', w'.
Qed.

(** As many calls as there are buffered messages give one message each. *)
Lemma feed_each_line msgs : forall rest,
  Forall (fun m => bytes_contains LF m = false) msgs ->
  bytes_contains LF rest = false ->
  feed (lines msgs ++ rest) (replicate (length msgs) [])
  = (map (fun m => result_bind (parse_line m) (fun r => Ok (Some r))) msgs,
     rest).
Proof.
  induction msgs as [|m ms IH]; intros rest Hmsgs Hrest; [done|].
  inversion Hmsgs as [|? ? Hm Hms]; subst.
  cbn [length replicate feed]. rewrite app_nil_r.
  assert (Ec : bytes_contains LF (lines (m :: ms) ++ rest) = true).
  { rewrite lines_cons, <- app_assoc, contains_app.
    change (bytes_contains LF (LF :: lines ms ++ rest)) with true.
    by rewrite orb_true_r. }
  destruct (take_line_first (lines (m :: ms) ++ rest) [] m ms rest
              Hm Hrest Ec) as (buf1 & -> & E1); [by rewrite app_nil_r|].
  rewrite app_nil_r in E1. subst buf1. by rewrite IH.
Qed.

Lemma wire_lines datas :
  Forall (fun d => exists bs, encode (serialized d) = Ok bs
                              /\ bytes_contains LF bs = false) datas ->
  exists msgs,
    concat (map wire datas) = lines msgs
    /\ Forall (fun m => bytes_contains LF m = false) msgs
    /\ Forall2 (fun d m => encode (serialized d) = Ok m) datas msgs.
Proof.
  induction 1 as [|d datas (bs & Hbs & Hlf) _ (msgs & Hcat & Hmsgs & Hall)].
  - exists []. by repeat split; constructor.
  - exists (bs :: msgs). cbn [map concat]. rewrite lines_cons, Hcat.
    unfold wire. rewrite Hbs, <- app_assoc.
    split; [done|]. split; by constructor.
Qed.

(** The pipe of a channel is a queue of messages, as far as it has room.
    On an attached channel with nothing buffered and an empty pipe, after
    [writedata] of each of [datas] in turn, no more of them than the pipe
    has buffers, whose texts encode without a line feed to less than a
    page: as many calls of [readdata] return one message each, in the
    order of the writes, none of them [None]: the value the line of the
    write parses to, or the error its parse raises.  After that the buffer
    is empty again. *)
Theorem written_lines_are_read_in_order c w channel f p datas :
  attached c w channel f p ->
  buffers w p = [] ->
  buffer c channel = [] ->
  Forall (fun d => exists bs, encode (serialized d) = Ok bs
                              /\ bytes_contains LF bs = false
                              /\ Z.of_nat (length bs) < PAGE_SIZE) datas ->
  Z.of_nat (length datas) <= PIPE_DEF_BUFFERS ->
  exists msgs s1 s2,
    write_all channel datas (c, w) = (Ok tt, s1)
    /\ Forall2 (fun d m => encode (serialized d) = Ok m) datas msgs
    /\ read_n channel (length datas) s1
       = (map (fun m => result_bind (parse_line m) (fun r => Ok (Some r)))
              msgs, s2)
    /\ buffer (fst s2) channel = [].
Proof.
  intros Hatt Hempty Hbuf Hdatas Hcount.
  pose proof (waiting_buffers w p Hempty) as Hw.
  assert (Hok : Forall (fun d => exists bs, encode (serialized d) = Ok bs
                                 /\ Z.of_nat (length bs) < PAGE_SIZE) datas).
  { eapply Forall_impl; [exact Hdatas|].
    intros d (bs & Hbs & _ & Hpage). by exists bs. }
  assert (Hlf : Forall (fun d => exists bs, encode (serialized d) = Ok bs
                                 /\ bytes_contains LF bs = false) datas).
  { eapply Forall_impl; [exact Hdatas|].
    intros d (bs & Hbs & Hno & _). by exists bs. }
  assert (Hroom : Z.of_nat (length (buffers w p) + length datas)
                  <= PIPE_DEF_BUFFERS) by (rewrite Hempty; cbn; lia).
  destruct (write_all_run channel f p datas c w Hatt Hok Hroom)
    as (w' & Hrun & Hw' & Hatt' & _).
  destruct (wire_lines datas Hlf) as (msgs & Hcat & Hmsgs & Hall).
  rewrite Hw, Hcat in Hw'. cbn [app] in Hw'.
  assert (Hlen : length datas = length msgs) by (by eapply Forall2_length).
  exists msgs, (c, w').
  destruct datas as [|d datas].
  - destruct msgs; [|done]. exists (c, w'). done.
  - destruct msgs as [|m ms]; [done|].
    cbn [length] in *.
    destruct (read_n_feed_waiting channel f p (length datas) c w' Hatt')
      as (c' & w'' & Hread & Hbuf' & _).
    rewrite Hbuf, Hw' in Hread, Hbuf'. cbn [app] in Hread, Hbuf'.
    assert (Hn : S (length datas) = length (m :: ms)) by (cbn; lia).
    rewrite Hn in Hread, Hbuf'.
    pose proof (feed_each_line (m :: ms) [] Hmsgs eq_refl) as Hfeed.
    rewrite app_nil_r in Hfeed. rewrite Hfeed in Hread, Hbuf'.
    exists (c', w''). rewrite Hn. cbn [fst snd] in *. done.
Qed.

End Queue.

(** ** Sequences read back *)
Section SequenceBack.
Context `{FloatConv} `{Environ}.
Import Component.

#[local] Arguments N.ltb : simpl never.
#[local] Arguments N.eqb : simpl never.
#[local] Arguments Byte.eqb : simpl never.

Lemma to_N_byte_of_N ch : (ch <? 128)%N = true -> Byte.to_N (byte_of_N ch) = ch.
Proof.
  intros Hc. apply N.ltb_lt in Hc. unfold byte_of_N.
  destruct (Byte.of_N ch) as [x|] eqn:E.
  - cbn. by apply Byte.to_of_N.
  - apply Byte.of_N_None_iff in E. lia.
Qed.

Lemma plain_text_cons ch s :
  plain_text (ch :: s) = true ->
  (ch <? 128)%N = true /\ (ch =? 44)%N = false /\ (ch =? 10)%N = false
  /\ plain_text s = true.
Proof.
  unfold plain_text. cbn [forallb]. intros Hp.
  apply andb_true_iff in Hp as [Hc Hs].
  apply andb_true_iff in Hc as [Hc H10].
  apply andb_true_iff in Hc as [Hc H44].
  apply negb_true_iff in H10, H44. done.
Qed.

Lemma no_comma_plain s : plain_text s = true -> str_contains COMMA s = false.
Proof.
  induction s as [|ch s IH]; [done|]. intros Hp.
  apply plain_text_cons in Hp as (_ & H44 & _ & Hs).
  unfold str_contains. cbn [existsb]. fold (str_contains COMMA s).
  rewrite (IH Hs), orb_false_r. by rewrite N.eqb_sym.
Qed.

Lemma split_no_comma txt :
  str_contains COMMA txt = false -> str_split COMMA txt = [txt].
Proof.
  induction txt as [|x txt IH]; [done|]. intros Hc.
  unfold str_contains in Hc. cbn [existsb] in Hc.
  fold (str_contains COMMA txt) in Hc.
  apply orb_false_iff in Hc as [Ex Et].
  cbn [str_split]. by rewrite N.eqb_sym, Ex, (IH Et).
Qed.

Lemma split_at_comma a rest :
  str_contains COMMA a = false ->
  str_split COMMA (a ++ COMMA :: rest) = a :: str_split COMMA rest.
Proof.
  induction a as [|x a IH]; intros Hc.
  - cbn [app str_split]. by rewrite N.eqb_refl.
  - unfold str_contains in Hc. cbn [existsb] in Hc.
    fold (str_contains COMMA a) in Hc.
    apply orb_false_iff in Hc as [Ex Ea].
    cbn [app str_split]. by rewrite N.eqb_sym, Ex, (IH Ea).
Qed.

Lemma contains_comma_app a rest :
  str_contains COMMA (a ++ COMMA :: rest) = true.
Proof.
  unfold str_contains. rewrite existsb_app. cbn [existsb].
  by rewrite N.eqb_refl, orb_true_r.
Qed.

(** Fields without commas, joined by commas, split back into the fields. *)
Lemma split_join fd fs :
  Forall (fun t => str_contains COMMA t = false) (fd :: fs) ->
  str_split COMMA (str_join (u ",") (fd :: fs)) = fd :: fs.
Proof.
  revert fd. induction fs as [|g fs IH]; intros fd Hall.
  - inversion Hall; subst. by apply split_no_comma.
  - inversion Hall as [|? ? Hfd Hrest]; subst.
    change (str_join (u ",") (fd :: g :: fs))
      with (fd ++ COMMA :: str_join (u ",") (g :: fs)).
    rewrite split_at_comma by done. by rewrite IH.
Qed.

(** The text of a sequence of plain items: ASCII, no line feed. *)
Lemma join_ascii fs :
  Forall (fun t => plain_text t = true) fs ->
  forallb (fun ch => (ch <? 128)%N && negb (ch =? 10)%N) (str_join (u ",") fs)
  = true.
Proof.
  assert (Hweak : forall txt, plain_text txt = true ->
            forallb (fun ch => (ch <? 128)%N && negb (ch =? 10)%N) txt = true).
  { induction txt as [|ch txt IH]; [done|]. intros Hp.
    apply plain_text_cons in Hp as (Hc & _ & H10 & Hs).
    cbn [forallb]. by rewrite Hc, H10, (IH Hs). }
  induction fs as [|fd fs IH]; intros Hall; [done|].
  inversion Hall as [|? ? Hfd Hrest]; subst.
  destruct fs as [|g fs]; [by apply Hweak|].
  change (str_join (u ",") (fd :: g :: fs))
    with (fd ++ COMMA :: str_join (u ",") (g :: fs)).
  rewrite forallb_app. cbn [forallb]. rewrite (Hweak _ Hfd), (IH Hrest). done.
Qed.

Lemma encode_decode_ascii s :
  forallb (fun ch => (ch <? 128)%N && negb (ch =? 10)%N) s = true ->
  encode s = Ok (map byte_of_N s)
  /\ decode (map byte_of_N s) = Ok s
  /\ bytes_contains LF (map byte_of_N s) = false.
Proof.
  induction s as [|ch s IH]; [done|]. cbn [forallb]. intros Hp.
  apply andb_true_iff in Hp as [Hc Hs].
  apply andb_true_iff in Hc as [Hc H10]. apply negb_true_iff in H10.
  destruct (IH Hs) as (He & Hd & Hl).
  split; [|split].
  - cbn [encode map]. unfold encode_char. change 0x80%N with 128%N.
    rewrite Hc. cbn [result_bind]. by rewrite He.
  - cbn [map decode]. rewrite (to_N_byte_of_N _ Hc).
    change 0x80%N with 128%N. rewrite Hc. by rewrite Hd.
  - cbn [map]. unfold bytes_contains. cbn [existsb].
    fold (bytes_contains LF (map byte_of_N s)). rewrite Hl, orb_false_r.
    destruct (Byte.eqb LF (byte_of_N ch)) eqn:E; [|done].
    apply Byte.byte_dec_bl in E. apply (f_equal Byte.to_N) in E.
    rewrite (to_N_byte_of_N _ Hc) in E. subst ch. done.
Qed.

(** A write followed by a read, on a fresh channel whose pipe has room for
    the line. *)
Lemma write_then_read c w channel f p data bs :
  attached c w channel f p -> buffers w p = [] -> buffer c channel = [] ->
  encode (serialized data) = Ok bs -> bytes_contains LF bs = false ->
  Z.of_nat (length bs) < PAGE_SIZE * PIPE_DEF_BUFFERS ->
  fst (bind (writedata data channel) (fun _ => readdata channel) (c, w))
  = result_bind (parse_line bs) (fun r => Ok (Some r)).
Proof.
  intros Hatt Hempty Hbuf Henc Hlf Hroom.
  rewrite (bind_ok _ _ _ _ _ (writedata_spec _ _ _ _ _ _ _ Hatt Henc)).
  rewrite (readdata_spec _ _ _ f p) by (by apply attached_sent).
  assert (Hall : taken w p (bs ++ [LF]) = Z.of_nat (length (bs ++ [LF]))).
  { rewrite taken_empty by done. rewrite length_app. cbn [length]. lia. }
  rewrite waiting_sent_whole, (waiting_buffers w p Hempty), Hbuf by done.
  cbn [app fst].
  pose proof (take_line_first (bs ++ [LF]) [] bs [] [] Hlf eq_refl) as Hfirst.
  destruct Hfirst as (buf1 & -> & _); [| |done].
  - by rewrite contains_app, orb_true_r.
  - unfold lines. cbn. by rewrite !app_nil_r.
Qed.

Lemma encode_ascii_length s bs :
  forallb (fun ch => (ch <? 128)%N && negb (ch =? 10)%N) s = true ->
  encode s = Ok bs -> length bs = length s.
Proof.
  intros Hs Henc. destruct (encode_decode_ascii s Hs) as (E & _).
  rewrite E in Henc. simplify_eq. apply length_map.
Qed.


End SequenceBack.


(** ** [cleanup], and the life cycle of a component *)
Section Lifecycle.
Context `{FloatConv} `{Environ}.
Import Component.

Lemma closed_keeps_files f o k w :
  is_Some (files w !! k) -> is_Some (files (closed f o w) !! k).
Proof.
  intros Hk. cbn. destruct (decide (FIFOFile.__fd f = k)) as [->|Hne].
  - rewrite lookup_insert_eq. eauto.
  - by rewrite lookup_insert_ne.
Qed.

Lemma closed_keeps_non_directory f o q w :
  nodes w !! q ≠ Some Directory ->
  nodes (closed f o w) !! q ≠ Some Directory.
Proof.
  intros Hq. cbn. destruct (decide (FIFOFile.__filename f = q)) as [->|Hne].
  - by rewrite lookup_delete_eq.
  - by rewrite lookup_delete_ne.
Qed.

(** The loop of [cleanup]. *)
Lemma close_loop c fs : forall w,
  Forall (fun f => is_Some (files w !! FIFOFile.__fd f)) fs ->
  Forall (fun f => nodes w !! FIFOFile.__filename f ≠ Some Directory) fs ->
  for_each fs (fun i => os (FIFOFile.close i)) (c, w)
  = (Ok tt, (c, close_all fs w)).
Proof.
  induction fs as [|f fs IH]; intros w Hfiles Hnodes; [done|].
  inversion Hfiles as [|? ? [o Ho] Hfiles']; subst.
  inversion Hnodes as [|? ? Hn Hnodes']; subst.
  cbn [for_each close_all]. unfold bind.
  rewrite os_run, (FIFOFile_close_spec f o w Ho Hn). cbn [fst snd].
  rewrite Ho. apply IH.
  - eapply Forall_impl; [exact Hfiles'|]. intros g. apply closed_keeps_files.
  - eapply Forall_impl; [exact Hnodes'|]. intros g.
    apply closed_keeps_non_directory.
Qed.

Lemma cleanup_run c w fs :
  __fifos c = Some fs ->
  Forall (fun f => is_Some (files w !! FIFOFile.__fd f)) fs ->
  Forall (fun f => nodes w !! FIFOFile.__filename f ≠ Some Directory) fs ->
  cleanup (c, w) = (Ok tt, (set_initialized false c, close_all fs w)).
Proof.
  intros Hfs Hfiles Hnodes. unfold cleanup.
  unfold bind at 1. unfold bind at 1, self at 1. cbn [fst snd].
  rewrite Hfs, (close_loop c fs w Hfiles Hnodes). done.
Qed.

(** A file that is closed stays closed, a node that is gone stays gone. *)
Lemma close_all_keeps_shut fs : forall w g,
  is_shut w g -> is_shut (close_all fs w) g.
Proof.
  induction fs as [|f fs IH]; intros w g Hg; [done|].
  cbn [close_all]. apply IH. destruct Hg as [[p Hp] Hn]. split.
  - cbn. destruct (decide (FIFOFile.__fd f = FIFOFile.__fd g)) as [E|Hne].
    + rewrite <- E, lookup_insert_eq. eauto.
    + rewrite lookup_insert_ne by done. eauto.
  - cbn. destruct (decide (FIFOFile.__filename f = FIFOFile.__filename g))
      as [->|Hne].
    + by rewrite lookup_delete_eq.
    + by rewrite lookup_delete_ne.
Qed.

Lemma close_all_shuts fs : forall w,
  Forall (fun f => is_Some (files w !! FIFOFile.__fd f)) fs ->
  Forall (is_shut (close_all fs w)) fs.
Proof.
  induction fs as [|f fs IH]; intros w Hfiles; [constructor|].
  inversion Hfiles as [|? ? [o Ho] Hfiles']; subst.
  cbn [close_all]. rewrite Ho. constructor.
  - apply close_all_keeps_shut. split.
    + cbn. rewrite lookup_insert_eq. eauto.
    + cbn. by rewrite lookup_delete_eq.
  - apply IH. eapply Forall_impl; [exact Hfiles'|]. intros g.
    apply closed_keeps_files.
Qed.

Lemma close_all_pipes fs : forall w, pipes (close_all fs w) = pipes w.
Proof.
  induction fs as [|f fs IH]; intros w; [done|].
  cbn [close_all]. by rewrite IH.
Qed.

(** [close()] of a pipe file that is shut changes nothing. *)
Lemma close_shut f w : is_shut w f -> FIFOFile.close f w = (Ok tt, w).
Proof.
  intros [[p Hp] Hn].
  rewrite (FIFOFile_close_spec f _ w Hp) by (by rewrite Hn).
  f_equal. unfold closed. cbn [f_pipe].
  rewrite (delete_id _ _ Hn), (insert_id _ _ _ Hp). by destruct w.
Qed.

Lemma close_loop_shut c fs w :
  Forall (is_shut w) fs ->
  for_each fs (fun i => os (FIFOFile.close i)) (c, w) = (Ok tt, (c, w)).
Proof.
  induction 1 as [|f fs Hf _ IH]; [done|].
  cbn [for_each]. unfold bind. rewrite os_run, (close_shut f w Hf). exact IH.
Qed.

Lemma is_open_some w f : is_open w f -> is_Some (files w !! FIFOFile.__fd f).
Proof. intros [p Hp]. eauto. Qed.

Lemma cleanup_after_open fs w :
  Forall (is_open w) fs ->
  Forall (fun f => nodes w !! FIFOFile.__filename f ≠ Some Directory) fs ->
  Forall (is_shut (close_all fs w)) fs
  /\ forall c, __fifos c = Some fs ->
       cleanup (c, w) = (Ok tt, (set_initialized false c, close_all fs w)).
Proof.
  intros Hopen Hnodes.
  assert (Hfiles : Forall (fun f => is_Some (files w !! FIFOFile.__fd f)) fs).
  { eapply Forall_impl; [exact Hopen|]. apply is_open_some. }
  split; [by apply close_all_shuts|].
  intros c Hfs. by apply cleanup_run.
Qed.

(** [cleanup()] of a component whose pipe files are open, no directory
    having taken the place of a pipe: it returns, every file is closed,
    every node is removed, the flag is cleared, and the bytes still in the
    pipes are left alone.  A second [cleanup()] returns as well and changes
    nothing: closing a closed file and removing a missing node are both
    allowed. *)
Theorem cleanup_shuts_and_can_be_repeated c w fs :
  __fifos c = Some fs ->
  Forall (is_open w) fs ->
  Forall (fun f => nodes w !! FIFOFile.__filename f ≠ Some Directory) fs ->
  exists w',
    cleanup (c, w) = (Ok tt, (set_initialized false c, w'))
    /\ Forall (is_shut w') fs
    /\ pipes w' = pipes w
    /\ cleanup (set_initialized false c, w')
       = (Ok tt, (set_initialized false c, w')).
Proof.
  intros Hfs Hopen Hnodes.
  assert (Hfiles : Forall (fun f => is_Some (files w !! FIFOFile.__fd f)) fs).
  { eapply Forall_impl; [exact Hopen|]. apply is_open_some. }
  exists (close_all fs w).
  split; [by apply cleanup_run|].
  split; [by apply close_all_shuts|].
  split; [apply close_all_pipes|].
  unfold cleanup. unfold bind at 1. unfold bind at 1, self at 1.
  cbn [fst snd]. change (__fifos (set_initialized false c)) with (__fifos c).
  rewrite Hfs, close_loop_shut by (by apply close_all_shuts). done.
Qed.

(** [cleanup()] before [init()] raises [AttributeError], for want of
    [__fifos], and leaves everything as it was, the flag included. *)
Lemma cleanup_before_init c w :
  __fifos c = None -> cleanup (c, w) = (Raise AttributeError, (c, w)).
Proof.
  intros Hfs. unfold cleanup, bind, self. cbn [fst snd]. by rewrite Hfs.
Qed.

Lemma file_closed_read f p w :
  files w !! FIFOFile.__fd f = Some {| f_pipe := p; f_closed := true |} ->
  FIFOFile.read f w = (Raise ValueError, w)
  /\ forall data, FIFOFile.write f data w = (Raise ValueError, w).
Proof.
  intros Hf. unfold FIFOFile.read, FIFOFile.write, file_read, file_write.
  by rewrite Hf.
Qed.

Lemma detached_raises c w channel f data bs :
  encode (serialized data) = Ok bs ->
  detached c w channel f ->
  readdata channel (c, w) = (Raise ValueError, (c, w))
  /\ writedata data channel (c, w) = (Raise ValueError, (c, w)).
Proof.
  intros Henc [(fs & Hfs & Hget) [p Hp]].
  assert (Hfifo : fifo channel (c, w) = (Ok f, (c, w))).
  { unfold fifo, bind, self. cbn [fst snd]. rewrite Hfs.
    unfold lift_result. by rewrite Hget. }
  destruct (file_closed_read f p w Hp) as [Hread Hwrite].
  split.
  - unfold readdata. rewrite (bind_ok _ _ _ _ _ Hfifo).
    unfold bind. by rewrite os_run, Hread.
  - rewrite writedata_steps. unfold bind at 1, lift_result. rewrite Henc.
    rewrite (bind_ok _ _ _ _ _ Hfifo). unfold bind.
    by rewrite os_run, Hwrite.
Qed.

(** A component that was cleaned up keeps its list of pipe files, so
    [readdata] and [writedata] get as far as the file and fail there: both
    raise [ValueError], the error of an operation on a closed file, and
    change nothing; so does any of them before [init()] with
    [AttributeError], as [cleanup()] itself does. *)
Theorem use_after_cleanup c w channel f data bs :
  encode (serialized data) = Ok bs ->
  (detached c w channel f ->
     readdata channel (c, w) = (Raise ValueError, (c, w))
     /\ writedata data channel (c, w) = (Raise ValueError, (c, w)))
  /\ (__fifos c = None ->
        cleanup (c, w) = (Raise AttributeError, (c, w))).
Proof.
  intros Henc. split; [|apply cleanup_before_init].
  by apply (detached_raises c w channel f data bs).
Qed.

Lemma suffixes_same c v b :
  suffixes (set_initialized b (set_fifos v c)) = suffixes c.
Proof. done. Qed.

(** A component can be taken into use again.  From any world without a
    directory in the way, [init()], [cleanup()] and [init()] again all
    return; the second [init()] creates the pipes at the same paths as the
    first, every one open on a new pipe of its own, and the files of the
    first round stay closed. *)
Theorem init_again_after_cleanup c w :
  Forall (fun i => nodes w !! path_of (__fn c) i ≠ Some Directory)
         (suffixes c) ->
  exists fs1 w1 w2 fs2 w3,
    init (c, w) = (Ok tt, (set_fifos (Some fs1) c, w1))
    /\ cleanup (set_fifos (Some fs1) c, w1)
       = (Ok tt, (set_initialized false (set_fifos (Some fs1) c), w2))
    /\ init (set_initialized false (set_fifos (Some fs1) c), w2)
       = (Ok tt,
          (set_fifos (Some fs2)
             (set_initialized false (set_fifos (Some fs1) c)), w3))
    /\ map FIFOFile.__filename fs2 = map FIFOFile.__filename fs1
    /\ Forall (is_open w3) fs2
    /\ Forall (fun f => exists p m,
                 nodes w3 !! FIFOFile.__filename f = Some (Fifo p m)) fs2
    /\ Forall (fun f => exists p, files w3 !! FIFOFile.__fd f
                           = Some {| f_pipe := p; f_closed := true |}) fs1.
Proof.
  intros Hdir.
  set (fs1 := fst (open_all (__fn c) (suffixes c) w)).
  set (w1 := snd (open_all (__fn c) (suffixes c) w)).
  assert (Hopen1 : Forall (is_open w1) fs1) by apply open_all_is_open.
  assert (Hnodes1 : Forall (fun f => nodes w1 !! FIFOFile.__filename f
                                     ≠ Some Directory) fs1).
  { eapply Forall_impl; [apply open_all_nodes|].
    intros f (p & m & E). fold w1 in E. by rewrite E. }
  destruct (cleanup_after_open fs1 w1 Hopen1 Hnodes1) as (Hshut & Hrun).
  set (c2 := set_initialized false (set_fifos (Some fs1) c)).
  set (w2 := close_all fs1 w1) in *.
  assert (Hdir2 : Forall (fun i => nodes w2 !! path_of (__fn c2) i
                                   ≠ Some Directory) (suffixes c2)).
  { change (suffixes c2) with (suffixes c). change (__fn c2) with (__fn c).
    apply Forall_forall. intros i Hi.
    assert (Hin : path_of (__fn c) i ∈ map FIFOFile.__filename fs1).
    { unfold fs1. rewrite open_all_filenames. by apply list_elem_of_fmap_2. }
    apply list_elem_of_fmap in Hin as (f & Ef & Hf).
    rewrite Forall_forall in Hshut. destruct (Hshut f Hf) as [_ Hnone].
    rewrite Ef, Hnone. done. }
  exists fs1, w1, w2, (fst (open_all (__fn c) (suffixes c) w2)),
         (snd (open_all (__fn c) (suffixes c) w2)).
  split; [by apply init_spec|].
  split; [by apply Hrun|].
  split; [exact (init_spec c2 w2 Hdir2)|].
  split; [unfold fs1; by rewrite !open_all_filenames|].
  split; [apply open_all_is_open|].
  split; [apply open_all_nodes|].
  apply Forall_forall. intros f Hf.
  rewrite Forall_forall in Hshut. destruct (Hshut f Hf) as [[p Hp] _].
  exists p. by apply open_all_keeps_files.
Qed.

End Lifecycle.

(** ** More on the polling loop *)
Section LoopedMore.
Context {conv : FloatConv} {env : Environ}.
Variable tick : M Component.state unit.
Import LoopedComponent.

(** A constructed component is not polled until something starts it:
    whatever the main thread calls, as long as it is neither [start()] nor
    [init(autostart=True)], and however far the loop thread gets meanwhile,
    [tick] is not called and the started flag stays false. *)
Theorem no_tick_before_start c w acts :
  quiet acts = true ->
  ticks (run tick acts (boot c w)) = 0%nat
  /\ __started (fst (obj (run tick acts (boot c w)))) = false.
Proof.
  intros Hq.
  destruct (ticks_after_stop tick acts (boot c w) Hq eq_refl) as [Ht Hs].
  cbn in Ht. split; [lia|done].
Qed.

Lemma ended_stays acts : forall s,
  at_ s = Ended ->
  ticks (run tick acts s) = ticks s /\ at_ (run tick acts s) = Ended.
Proof.
  induction acts as [|a acts IH]; intros s Hend; [done|].
  change (run tick (a :: acts) s) with (run tick acts (step tick a s)).
  destruct a as [|c]; cbn [step].
  - unfold runloop_step. rewrite Hend. by apply IH.
  - destruct (IH {| obj := snd (run_call c (obj s)); at_ := at_ s;
                    ticks := ticks s |} Hend) as [Ht Ha].
    by rewrite Ht, Ha.
Qed.

(** An exception out of [tick] ends the polling for good.  When the call
    of [tick] the loop is about to make raises, the loop thread ends with
    it, and nothing the main thread does afterwards brings it back:
    [start()] still sets the flag, but [tick] is never called again. *)
Theorem raising_tick_ends_polling (s : system) e acts :
  at_ s = AtTick ->
  fst (tick (base (fst (obj s)), snd (obj s))) = Raise e ->
  ticks (run tick (Loop :: acts) s) = S (ticks s)
  /\ at_ (run tick (Loop :: acts) s) = Ended.
Proof.
  intros Hat Hraise.
  change (run tick (Loop :: acts) s) with (run tick acts (runloop_step tick s)).
  assert (Hstep : at_ (runloop_step tick s) = Ended
                  /\ ticks (runloop_step tick s) = S (ticks s)).
  { unfold runloop_step. rewrite Hat.
    destruct (obj s) as [l w]. rewrite super_run. cbn [fst snd] in *.
    by rewrite Hraise. }
  destruct Hstep as [Hend Hticks].
  destruct (ended_stays acts _ Hend) as [Ht Ha]. by rewrite Ht, Ha, Hticks.
Qed.

Lemma round_ticks_once (s : system) :
  (forall cs, fst (tick cs) = Ok tt) ->
  at_ s = AtTest -> __started (fst (obj s)) = true ->
  let s' := run tick [Loop; Loop; Loop] s in
  at_ s' = AtTest /\ __started (fst (obj s')) = true
  /\ ticks s' = S (ticks s).
Proof.
  intros Htick Hat Hs. destruct s as [[l w] a t]. cbn in Hat, Hs. subst a.
  pose proof (Htick (base l, w)) as Ht.
  unfold run. cbn [fold_left step]. unfold runloop_step, super, zoom. cbn.
  rewrite Hs. cbn.
  destruct (tick (base l, w)) as [r [c1 w1]]. cbn in *. subst r. done.
Qed.

(** While the component is started and left alone, the loop calls [tick]
    once a round: from the test of the flag, with a [tick] that does not
    raise, [n] rounds of the loop make [n] calls, and leave the loop at the
    test with the flag still set. *)
Theorem running_loop_ticks_once_a_round (s : system) n :
  (forall cs, fst (tick cs) = Ok tt) ->
  at_ s = AtTest -> __started (fst (obj s)) = true ->
  let s' := run tick (repeat Loop (3 * n)) s in
  ticks s' = (ticks s + n)%nat
  /\ at_ s' = AtTest
  /\ __started (fst (obj s')) = true.
Proof.
  intros Htick. revert s. induction n as [|n IH]; intros s Hat Hs.
  - cbn. split; [lia|done].
  - replace (3 * S n)%nat with (3 + 3 * n)%nat by lia.
    change (repeat Loop (3 + 3 * n))
      with ([Loop; Loop; Loop] ++ repeat Loop (3 * n)).
    unfold run. rewrite fold_left_app.
    destruct (round_ticks_once s Htick Hat Hs) as (Hat1 & Hs1 & Ht1).
    destruct (IH _ Hat1 Hs1) as (Ht & Ha & Hst).
    unfold run in *. cbn zeta in *. rewrite Ht, Ha, Hst, Ht1.
    split; [lia|done].
Qed.

Lemma looped_init_run autostart l w :
  Forall (fun i => nodes w !! path_of (Component.__fn (base l)) i
                   ≠ Some Directory)
         (suffixes (base l)) ->
  init autostart (l, w)
  = (Ok tt,
     ({| base := Component.set_initialized true
                   (Component.set_fifos
                      (Some (fst (open_all (Component.__fn (base l))
                                    (suffixes (base l)) w)))
                      (base l));
         __started := autostart || __started l |},
      snd (open_all (Component.__fn (base l)) (suffixes (base l)) w))).
Proof.
  intros Hdir. unfold init.
  unfold bind at 1. rewrite super_run, (init_spec (base l) w Hdir).
  cbn [fst snd]. unfold bind at 1. rewrite super_run.
  unfold Component._set_init, Component.update. cbn [fst snd base __started].
  destruct autostart; [|done].
  rewrite start_spec. done.
Qed.

(** The life of a looped component.  Before [init()] a [start()] raises
    [RuntimeError].  [init()], with no directory in the way of a pipe,
    creates the pipes and, unlike the [init()] of a plain Component, sets
    the initialized flag, so that [start()] goes through then, as it does
    within [init(autostart=True)]; [init()] does not stop a component that
    runs.  [cleanup()] stops the component, closes the pipes and clears
    the flag, after which [start()] raises [RuntimeError] again. *)
Theorem looped_life_cycle autostart l w :
  Component.__initialized (base l) = false ->
  Forall (fun i => nodes w !! path_of (Component.__fn (base l)) i
                   ≠ Some Directory)
         (suffixes (base l)) ->
  let s1 := snd (init autostart (l, w)) in
  let s2 := snd (start s1) in
  let s3 := snd (cleanup s2) in
  start (l, w) = (Raise RuntimeError, (l, w))
  /\ fst (init autostart (l, w)) = Ok tt
  /\ Component.__initialized (base (fst s1)) = true
  /\ all_open (base (fst s1)) (snd s1)
  /\ __started (fst s1) = autostart || __started l
  /\ fst (start s1) = Ok tt
  /\ __started (fst s2) = true
  /\ fst (cleanup s2) = Ok tt
  /\ __started (fst s3) = false
  /\ Component.__initialized (base (fst s3)) = false
  /\ (exists fs, Component.__fifos (base (fst s3)) = Some fs
                 /\ Forall (is_shut (snd s3)) fs)
  /\ start s3 = (Raise RuntimeError, s3).
Proof.
  intros Hflag Hdir s1 s2 s3.
  set (c := base l) in *.
  set (fs := fst (open_all (Component.__fn c) (suffixes c) w)).
  set (w1 := snd (open_all (Component.__fn c) (suffixes c) w)).
  set (c1 := Component.set_initialized true
               (Component.set_fifos (Some fs) c)).
  assert (Hopen : Forall (is_open w1) fs) by apply open_all_is_open.
  assert (Hnodes : Forall (fun f => nodes w1 !! FIFOFile.__filename f
                                    ≠ Some Directory) fs).
  { eapply Forall_impl; [apply open_all_nodes|].
    intros f (p & m & E). fold w1 in E. by rewrite E. }
  destruct (cleanup_after_open fs w1 Hopen Hnodes) as (Hshut & Hclose).
  split. { rewrite start_spec. fold c. by rewrite Hflag. }
  assert (E1 : s1 = ({| base := c1; __started := autostart || __started l |},
                     w1)).
  { unfold s1. by rewrite (looped_init_run autostart l w Hdir). }
  assert (E2 : start s1 = (Ok tt, ({| base := c1; __started := true |}, w1))).
  { rewrite E1, start_spec. done. }
  assert (E3 : cleanup ({| base := c1; __started := true |}, w1)
               = (Ok tt, ({| base := Component.set_initialized false c1;
                             __started := false |}, close_all fs w1))).
  { rewrite cleanup_spec, super_run. cbn [base __started].
    by rewrite (Hclose c1 eq_refl). }
  split. { by rewrite (looped_init_run autostart l w Hdir). }
  split. { by rewrite E1. }
  split.
  { rewrite E1. exists fs. split; [done|]. split; [|done].
    intros E. apply (f_equal length) in E. unfold fs in E.
    rewrite open_all_length in E. apply nil_length_inv in E.
    unfold suffixes in E.
    destruct (Z.ltb_spec (Z.of_nat (length (Component.__channels c))) 2);
      [done|]. rewrite E in *. cbn in *. lia. }
  split. { by rewrite E1. }
  subst s3 s2. rewrite E2. cbn [fst snd]. rewrite E3. cbn [fst snd].
  split; [done|]. split; [done|]. split; [done|]. split; [done|].
  split; [done|]. split; [by exists fs|].
  rewrite start_spec. done.
Qed.

End LoopedMore.

Lemma no_tick_before_start_witness :
  let F := CPython.conv in
  let E := plain_environ in
  let acts := [LoopedComponent.Main (LoopedComponent.Init false);
               LoopedComponent.Loop; LoopedComponent.Loop;
               LoopedComponent.Loop; LoopedComponent.Main LoopedComponent.Stop;
               LoopedComponent.Loop;
               LoopedComponent.Main LoopedComponent.Cleanup;
               LoopedComponent.Loop; LoopedComponent.Loop] in
  quiet acts = true
  /\ LoopedComponent.ticks
       (LoopedComponent.run idle_tick acts
          (LoopedComponent.boot led empty_world)) = 0%nat.
Proof.
  intros F E acts.
  assert (Hq : quiet acts = true) by reflexivity.
  split; [exact Hq|].
  exact (proj1 (no_tick_before_start idle_tick led empty_world acts Hq)).
Defined.

Lemma raising_tick_ends_polling_witness :
  let F := CPython.conv in
  let E := plain_environ in
  let acts := [LoopedComponent.Loop;
               LoopedComponent.Main LoopedComponent.Stop;
               LoopedComponent.Main LoopedComponent.Start;
               LoopedComponent.Loop; LoopedComponent.Loop;
               LoopedComponent.Loop] in
  LoopedComponent.at_ led_about_to_tick = LoopedComponent.AtTick
  /\ LoopedComponent.__started
       (fst (LoopedComponent.obj
               (LoopedComponent.run failing_tick
                  (LoopedComponent.Loop :: acts) led_about_to_tick))) = true
  /\ LoopedComponent.ticks
       (LoopedComponent.run failing_tick (LoopedComponent.Loop :: acts)
          led_about_to_tick)
     = S (LoopedComponent.ticks led_about_to_tick).
Proof.
  intros F E acts.
  assert (Hat : LoopedComponent.at_ led_about_to_tick
                = LoopedComponent.AtTick) by (vm_compute; reflexivity).
  split; [exact Hat|]. split; [vm_compute; reflexivity|].
  exact (proj1 (raising_tick_ends_polling failing_tick led_about_to_tick
                  ValueError acts Hat eq_refl)).
Defined.

Lemma running_loop_ticks_once_a_round_witness :
  let F := CPython.conv in
  let E := plain_environ in
  LoopedComponent.at_ started_led = LoopedComponent.AtTest
  /\ LoopedComponent.__started (fst (LoopedComponent.obj started_led)) = true
  /\ LoopedComponent.ticks
       (LoopedComponent.run idle_tick (repeat LoopedComponent.Loop (3 * 4))
          started_led)
     = (LoopedComponent.ticks started_led + 4)%nat.
Proof.
  intros F E.
  assert (Hat : LoopedComponent.at_ started_led = LoopedComponent.AtTest)
    by (vm_compute; reflexivity).
  assert (Hs : LoopedComponent.__started
                 (fst (LoopedComponent.obj started_led)) = true)
    by (vm_compute; reflexivity).
  split; [exact Hat|]. split; [exact Hs|].
  exact (proj1 (running_loop_ticks_once_a_round idle_tick started_led 4
                  (fun cs => eq_refl) Hat Hs)).
Defined.

Lemma looped_life_cycle_witness :
  let F := CPython.conv in
  let E := plain_environ in
  let l := LoopedComponent.__init__ led in
  let s1 := snd (LoopedComponent.init true (l, empty_world)) in
  let s3 := snd (LoopedComponent.cleanup (snd (LoopedComponent.start s1))) in
  Forall (fun i => nodes empty_world !! path_of (u "led") i ≠ Some Directory)
         [0]
  /\ LoopedComponent.start (l, empty_world)
     = (Raise RuntimeError, (l, empty_world))
  /\ fst (LoopedComponent.init true (l, empty_world)) = Ok tt
  /\ LoopedComponent.__started (fst s1) = true
  /\ LoopedComponent.start s3 = (Raise RuntimeError, s3).
Proof.
  intros F E l s1 s3.
  assert (Hdir : Forall (fun i => nodes empty_world !! path_of (u "led") i
                                  ≠ Some Directory) [0]).
  { repeat constructor; cbn; rewrite lookup_empty; discriminate. }
  split; [exact Hdir|].
  destruct (looped_life_cycle true l empty_world eq_refl Hdir)
    as (H0 & H1 & _ & _ & H2 & _ & _ & _ & _ & _ & _ & H3).
  split; [exact H0|]. split; [exact H1|]. split; [exact H2|exact H3].
Defined.

(** ** Channel numbers and positions *)
Section Channels.
Context {conv : FloatConv} {env : Environ}.
Import Component.

Lemma list_getitem_lookup {A} (fs : list A) k x :
  0 <= k -> fs !! Z.to_nat k = Some x -> list_getitem fs k = Ok x.
Proof.
  intros Hk Hx. unfold list_getitem.
  assert (Hlen : (Z.to_nat k < length fs)%nat)
    by (apply lookup_lt_is_Some; eauto).
  destruct (Z.ltb_spec k 0); [lia|].
  destruct (Z.leb_spec 0 k); [|lia].
  destruct (Z.ltb_spec k (Z.of_nat (length fs))); [|lia].
  cbn. by rewrite Hx.
Qed.

(** The [channel] of [readdata] and [writedata] is a position in the list
    of pipe files, not a channel number.  A component constructed with two
    or more channels and an offset creates its pipes under the numbers
    [offset .. offset+numchannels-1]; after [init()], [channel] [k] with
    [0 <= k < numchannels] is the open pipe file of number [offset + k],
    and every [channel] from [numchannels] on raises [IndexError], even
    when it is one of the component's own channel numbers. *)
Theorem channel_is_position_not_number cls fn numchannels offset c w :
  __init__ cls fn numchannels offset = Ok c ->
  2 <= numchannels ->
  Forall (fun i => nodes w !! path_of (__fn c) i ≠ Some Directory)
         (suffixes c) ->
  let s1 := snd (init (c, w)) in
  (forall k, 0 <= k < numchannels ->
     exists f p, attached (fst s1) (snd s1) k f p
                 /\ FIFOFile.__filename f = path_of (__fn c) (offset + k))
  /\ (forall k data bs,
        numchannels <= k -> encode (serialized data) = Ok bs ->
        readdata k s1 = (Raise IndexError, s1)
        /\ writedata data k s1 = (Raise IndexError, s1)).
Proof.
  intros Hnew Hnum Hdir s1.
  assert (Hsuf : suffixes c = seqZ offset numchannels).
  { rewrite (suffixes_of_new _ _ _ _ _ Hnew).
    by destruct (Z.ltb_spec numchannels 2); [lia|]. }
  set (fs := fst (open_all (__fn c) (suffixes c) w)).
  set (w1 := snd (open_all (__fn c) (suffixes c) w)).
  assert (Es1 : s1 = (set_fifos (Some fs) c, w1)).
  { unfold s1. by rewrite init_spec. }
  assert (Hlen : length fs = Z.to_nat numchannels).
  { unfold fs. rewrite open_all_length, Hsuf, length_seqZ. done. }
  rewrite Es1. cbn [fst snd]. split.
  - intros k Hk.
    destruct (lookup_lt_is_Some_2 fs (Z.to_nat k)) as [f Hf]; [lia|].
    pose proof (open_all_is_open (__fn c) (suffixes c) w) as Hopen.
    fold fs w1 in Hopen.
    destruct (Forall_lookup_1 _ _ _ _ Hopen Hf) as [p Hp].
    exists f, p. split.
    + split; [|done]. exists fs. split; [done|].
      apply list_getitem_lookup; [lia|done].
    + pose proof (open_all_filenames (__fn c) (suffixes c) w) as Hnames.
      fold fs in Hnames. apply (f_equal (fun l => l !! Z.to_nat k)) in Hnames.
      rewrite !list_lookup_fmap, Hf, Hsuf in Hnames.
      rewrite lookup_seqZ_lt in Hnames by lia. cbn in Hnames.
      simplify_eq. rewrite Hnames. f_equal. lia.
  - intros k data bs Hk Henc.
    assert (Hr : k < - Z.of_nat (length fs) \/ Z.of_nat (length fs) <= k)
      by (right; lia).
    assert (Hfifo : fifo k (set_fifos (Some fs) c, w1)
                    = (Raise IndexError, (set_fifos (Some fs) c, w1)))
      by (by apply (fifo_out_of_range _ _ _ fs)).
    split.
    + unfold readdata. by rewrite (bind_raise _ _ _ _ _ Hfifo).
    + rewrite writedata_steps. unfold bind at 1, lift_result. rewrite Henc.
      by rewrite (bind_raise _ _ _ _ _ Hfifo).
Qed.

End Channels.

Lemma channel_is_position_not_number_witness :
  let F := CPython.conv in
  let E := plain_environ in
  let c := {| Component._FN := None; Component.__fn := u "motor";
              Component.__channels := [4; 5; 6];
              Component.__fifos := None; Component.__readdata := ∅;
              Component.__initialized := false |} in
  let s1 := snd (Component.init (c, empty_world)) in
  Component.__init__ None (Some (u "motor")) 3 4 = Ok c
  /\ Forall (fun i => nodes empty_world !! path_of (u "motor") i
                      ≠ Some Directory) [4; 5; 6]
  /\ encode (serialized (Scalar (Int 7))) = Ok (b "7")
  /\ (exists f p, attached (fst s1) (snd s1) 0 f p
                  /\ FIFOFile.__filename f = path_of (u "motor") (4 + 0))
  /\ Component.writedata (Scalar (Int 7)) 4 s1 = (Raise IndexError, s1).
Proof.
  intros F E c s1.
  assert (Hnew : Component.__init__ None (Some (u "motor")) 3 4 = Ok c)
    by reflexivity.
  assert (Hdir : Forall (fun i => nodes empty_world !! path_of (u "motor") i
                                  ≠ Some Directory) [4; 5; 6]).
  { repeat constructor; cbn; rewrite lookup_empty; discriminate. }
  assert (Henc : encode (serialized (Scalar (Int 7))) = Ok (b "7"))
    by reflexivity.
  split; [exact Hnew|]. split; [exact Hdir|]. split; [exact Henc|].
  destruct (channel_is_position_not_number None (Some (u "motor")) 3 4 c
              empty_world Hnew ltac:(lia) Hdir) as [Hpos Hout].
  split; [apply Hpos; lia|].
  exact (proj2 (Hout 4 (Scalar (Int 7)) (b "7") ltac:(lia) Henc)).
Defined.

(** ** An [init()] that fails *)
Section InitFailure.
Context {conv : FloatConv} {env : Environ}.
Import Component.

Lemma open_all_keeps_directory fn nums : forall w q,
  nodes w !! q = Some Directory ->
  Forall (fun i => nodes w !! path_of fn i ≠ Some Directory) nums ->
  nodes (snd (open_all fn nums w)) !! q = Some Directory.
Proof.
  induction nums as [|i rest IH]; intros w q Hq Hfree; [done|].
  inversion Hfree as [|? ? Hi Hrest]; subst. cbn [open_all].
  pose proof (IH (opened (path_of fn i) w) q) as IH'.
  destruct (open_all fn rest (opened (path_of fn i) w)) as [fs w'].
  cbn [snd] in *. apply IH'.
  - cbn. rewrite lookup_insert_ne; [done|]. intros E. by rewrite E in Hi.
  - eapply Forall_impl; [exact Hrest|]. intros j.
    apply opened_keeps_non_directory.
Qed.

Lemma init_loop_directory fn pre i post c acc w :
  __fifos c = Some acc ->
  Forall (fun j => nodes w !! path_of fn j ≠ Some Directory) pre ->
  nodes w !! path_of fn i = Some Directory ->
  for_each (pre ++ i :: post) (fun i =>
      bind (os (FIFOFile.__init__ fn i)) (fun f => fifos_append f)) (c, w)
  = (Raise IsADirectoryError,
     (set_fifos (Some (acc ++ fst (open_all fn pre w))) c,
      snd (open_all fn pre w))).
Proof.
  intros Hacc Hfree Hdir. rewrite for_each_app.
  rewrite (bind_ok _ _ _ _ _ (init_loop fn pre c acc w Hacc Hfree)).
  cbn [for_each]. unfold bind. rewrite os_run.
  rewrite FIFOFile_init_directory by (by apply open_all_keeps_directory).
  done.
Qed.

(** An [init()] that meets a directory at the path of one of its pipes
    stops there with [IsADirectoryError].  The pipes of the numbers before
    it have been created and stay open; with two channels or more they are
    what [__fifos] lists, with fewer [__fifos] is not assigned at all;
    nothing is created for the numbers after it, and the initialized flag
    is as it was. *)
Theorem init_stops_at_a_directory c w pre i post :
  suffixes c = pre ++ i :: post ->
  Forall (fun j => nodes w !! path_of (__fn c) j ≠ Some Directory) pre ->
  nodes w !! path_of (__fn c) i = Some Directory ->
  let fs := fst (open_all (__fn c) pre w) in
  let w' := snd (open_all (__fn c) pre w) in
  init (c, w)
  = (Raise IsADirectoryError,
     (if Z.of_nat (length (__channels c)) <? 2 then c
      else set_fifos (Some fs) c, w'))
  /\ Forall (is_open w') fs
  /\ map FIFOFile.__filename fs = map (path_of (__fn c)) pre
  /\ nodes w' !! path_of (__fn c) i = Some Directory.
Proof.
  intros Hsuf Hfree Hdir fs w'.
  split; [|split; [apply open_all_is_open|
           split; [apply open_all_filenames|
                   by apply open_all_keeps_directory]]].
  unfold init, suffixes in *.
  unfold bind at 1, self at 1. cbn [fst snd].
  destruct (Z.of_nat (length (__channels c)) <? 2) eqn:E.
  - destruct pre as [|j pre]; cbn in Hsuf; simplify_eq.
    + unfold bind. rewrite os_run.
      by rewrite FIFOFile_init_directory.
    + by destruct pre.
  - unfold bind at 1, update at 1. cbn [fst snd]. rewrite Hsuf.
    rewrite (init_loop_directory (__fn c) pre i post _ [] w); done.
Qed.

End InitFailure.

Lemma init_stops_at_a_directory_witness :
  let F := CPython.conv in
  let E := plain_environ in
  let fs := fst (open_all (u "motor") [4] world_with_directory) in
  let w' := snd (open_all (u "motor") [4] world_with_directory) in
  suffixes motor = [4] ++ 5 :: [6]
  /\ Forall (fun j => nodes world_with_directory !! path_of (u "motor") j
                      ≠ Some Directory) [4]
  /\ nodes world_with_directory !! path_of (u "motor") 5 = Some Directory
  /\ Component.init (motor, world_with_directory)
     = (Raise IsADirectoryError, (Component.set_fifos (Some fs) motor, w'))
  /\ Forall (is_open w') fs
  /\ map FIFOFile.__filename fs = [u "/var/run/motor4"].
Proof.
  intros F E fs w'.
  assert (Hsuf : suffixes motor = [4] ++ 5 :: [6]) by reflexivity.
  assert (Hfree : Forall (fun j => nodes world_with_directory
                                     !! path_of (u "motor") j
                                   ≠ Some Directory) [4]).
  { constructor; [|constructor]. vm_compute. discriminate. }
  assert (Hdir : nodes world_with_directory !! path_of (u "motor") 5
                 = Some Directory) by (vm_compute; reflexivity).
  split; [exact Hsuf|]. split; [exact Hfree|]. split; [exact Hdir|].
  destruct (init_stops_at_a_directory motor world_with_directory [4] 5 [6]
              Hsuf Hfree Hdir) as (Hrun & Hopen & Hnames & _).
  split; [exact Hrun|]. split; [exact Hopen|exact Hnames].
Defined.

(** ** A line that the pipe cannot hold *)
Section Cut.
Context `{FloatConv} `{Environ}.
Import Component.

Lemma contains_take n : forall bs,
  bytes_contains LF bs = false -> bytes_contains LF (take n bs) = false.
Proof.
  induction n as [|n IH]; intros [|x bs] Hbs; try done.
  unfold bytes_contains in *. cbn [take existsb] in *.
  apply orb_false_iff in Hbs as [Hx Hrest]. rewrite Hx. cbn.
  by apply IH.
Qed.

(** An empty pipe keeps the first 65536 bytes of a longer line. *)
Lemma waiting_sent_cut p bs w :
  buffers w p = [] ->
  PAGE_SIZE * PIPE_DEF_BUFFERS <= Z.of_nat (length bs) ->
  waiting (sent p (bs ++ [LF]) w) p
  = take (Z.to_nat (PAGE_SIZE * PIPE_DEF_BUFFERS)) bs.
Proof.
  intros Hempty Hlong.
  rewrite waiting_sent, (waiting_buffers w p Hempty).
  rewrite taken_empty by done. rewrite length_app.
  cbn [length app].
  generalize dependent (PAGE_SIZE * PIPE_DEF_BUFFERS). intros size Hlong.
  replace (Z.min (Z.of_nat (length bs + 1)) size) with size by lia.
  apply take_app_le. lia.
Qed.

Lemma read_after_cut c w channel f p bs :
  attached c w channel f p ->
  buffers w p = [] ->
  buffer c channel = [] ->
  bytes_contains LF bs = false ->
  PAGE_SIZE * PIPE_DEF_BUFFERS <= Z.of_nat (length bs) ->
  readdata channel (c, sent p (bs ++ [LF]) w)
  = (Ok None,
     (set_buffer channel (take (Z.to_nat (PAGE_SIZE * PIPE_DEF_BUFFERS)) bs) c,
      drained p (sent p (bs ++ [LF]) w))).
Proof.
  intros Hatt Hempty Hbuf Hlf Hlong.
  pose proof (waiting_sent_cut p bs w Hempty Hlong) as Hw1.
  pose proof (contains_take (Z.to_nat (PAGE_SIZE * PIPE_DEF_BUFFERS)) bs Hlf)
    as Hcut.
  remember (take (Z.to_nat (PAGE_SIZE * PIPE_DEF_BUFFERS)) bs) as cut
    eqn:Ecut.
  assert (Hatt1 : attached c (sent p (bs ++ [LF]) w) channel f p)
    by (by apply attached_sent).
  rewrite (readdata_spec _ _ _ _ _ Hatt1), Hbuf, Hw1. cbn [app].
  by rewrite take_line_none.
Qed.

Lemma waiting_sent_short p bs w :
  waiting w p = [] ->
  Z.of_nat (length bs) + 1 < PAGE_SIZE ->
  waiting (sent p (bs ++ [LF]) w) p = bs ++ [LF].
Proof.
  intros Hw Hshort. rewrite waiting_sent_whole.
  - by rewrite Hw.
  - apply taken_no_bytes; [done|]. rewrite length_app. cbn [length]. lia.
Qed.

Lemma take_line_joined (cut bs : bytes) :
  bytes_contains LF cut = false -> bytes_contains LF bs = false ->
  fst (take_line (cut ++ bs ++ [LF]))
  = result_bind (parse_line (cut ++ bs)) (fun r => Ok (Some r)).
Proof.
  intros Hcut Hlf.
  assert (Hboth : bytes_contains LF (cut ++ bs) = false)
    by (by rewrite contains_app, Hcut, Hlf).
  destruct (take_line_first (cut ++ bs ++ [LF]) [] (cut ++ bs) [] [] Hboth
              eq_refl) as (buf1 & -> & _); [| |done].
  - by rewrite !contains_app, orb_true_r, orb_true_r.
  - unfold lines. cbn [map concat]. by rewrite !app_nil_r, <- app_assoc.
Qed.

Lemma read_joined c w channel f p cut bs :
  attached c w channel f p ->
  waiting w p = [] ->
  buffer c channel = cut ->
  bytes_contains LF cut = false -> bytes_contains LF bs = false ->
  Z.of_nat (length bs) + 1 < PAGE_SIZE ->
  fst (readdata channel (c, sent p (bs ++ [LF]) w))
  = result_bind (parse_line (cut ++ bs)) (fun r => Ok (Some r)).
Proof.
  intros Hatt Hw Hbuf Hcut Hlf Hshort.
  rewrite (readdata_spec _ _ _ f p) by (by apply attached_sent).
  rewrite waiting_sent_short, Hbuf by done. cbn [fst].
  by apply take_line_joined.
Qed.


End Cut.


(** ** The theorems above at work on the [led] component *)

Lemma fifos_led_ready : Component.__fifos (fst led_ready) = Some [led_fifo].
Proof. vm_compute. reflexivity. Qed.


Lemma writedata_calls_arrive_in_order_witness :
  let F := CPython.conv in
  let E := plain_environ in
  let datas := [Scalar (Int 1); Iterable [Int 2; Int 3]] in
  attached (fst led_ready) (snd led_ready) 0 led_fifo 0
  /\ Forall (fun d => exists bs, encode (serialized d) = Ok bs
                                 /\ Z.of_nat (length bs) < PAGE_SIZE) datas
  /\ Z.of_nat (length (buffers (snd led_ready) 0) + length datas)
     <= PIPE_DEF_BUFFERS
  /\ exists w',
       write_all 0 datas (fst led_ready, snd led_ready)
       = (Ok tt, (fst led_ready, w'))
       /\ waiting w' 0
          = waiting (snd led_ready) 0 ++ concat (map wire datas).
Proof.
  intros F E datas.
  assert (Hatt : attached (fst led_ready) (snd led_ready) 0 led_fifo 0)
    by exact attached_led_ready.
  assert (Hok : Forall (fun d => exists bs, encode (serialized d) = Ok bs
                                 /\ Z.of_nat (length bs) < PAGE_SIZE) datas).
  { constructor; [exists (b "1"); split; vm_compute; reflexivity|].
    constructor; [exists (b "2,3"); split; vm_compute; reflexivity|].
    constructor. }
  assert (Hroom : Z.of_nat (length (buffers (snd led_ready) 0) + length datas)
                  <= PIPE_DEF_BUFFERS) by (vm_compute; discriminate).
  split; [exact Hatt|]. split; [exact Hok|]. split; [exact Hroom|].
  destruct (writedata_calls_arrive_in_order (fst led_ready) (snd led_ready) 0
              led_fifo 0 datas Hatt Hok Hroom) as (w' & Hrun & Hw & _).
  exists w'. split; [exact Hrun|exact Hw].
Defined.

Lemma channel_without_pipe_file_witness :
  let F := CPython.conv in
  let E := plain_environ in
  encode (serialized (Scalar (Int 7))) = Ok (b "7")
  /\ Component.__fifos led = None
  /\ Component.readdata 0 (led, empty_world)
     = (Raise AttributeError, (led, empty_world))
  /\ Component.__fifos (fst led_ready) = Some [led_fifo]
  /\ Component.writedata (Scalar (Int 7)) 1 (fst led_ready, snd led_ready)
     = (Raise IndexError, (fst led_ready, snd led_ready)).
Proof.
  intros F E.
  assert (Henc : encode (serialized (Scalar (Int 7))) = Ok (b "7"))
    by reflexivity.
  split; [exact Henc|]. split; [reflexivity|].
  destruct (channel_without_pipe_file led empty_world 0 (Scalar (Int 7))
              (b "7") Henc) as [Hnone _].
  destruct (Hnone eq_refl) as [Hread _].
  split; [exact Hread|]. split; [exact fifos_led_ready|].
  destruct (channel_without_pipe_file (fst led_ready) (snd led_ready) 1
              (Scalar (Int 7)) (b "7") Henc) as [_ Hrange].
  assert (Hout : 1 < - Z.of_nat (length [led_fifo])
                 \/ Z.of_nat (length [led_fifo]) <= 1) by (right; cbn; lia).
  destruct (Hrange [led_fifo] fifos_led_ready Hout) as [_ Hwrite].
  exact Hwrite.
Defined.

Lemma negative_channel_shares_pipe_witness :
  let F := CPython.conv in
  let E := plain_environ in
  Component.__fifos (fst led_ready) = Some [led_fifo]
  /\ 0 <= 0 < Z.of_nat (length [led_fifo])
  /\ attached (fst led_ready) (snd led_ready) 0 led_fifo 0
  /\ attached (fst led_ready) (snd led_ready) (-1) led_fifo 0.
Proof.
  intros F E.
  assert (Hr : 0 <= 0 < Z.of_nat (length [led_fifo])) by (cbn; lia).
  split; [exact fifos_led_ready|]. split; [exact Hr|].
  split; [exact attached_led_ready|].
  destruct (negative_channel_shares_pipe (fst led_ready) (snd led_ready) 0
              led_fifo 0 [led_fifo] fifos_led_ready Hr attached_led_ready)
    as [Halias _].
  exact Halias.
Defined.

Lemma written_lines_are_read_in_order_witness :
  let F := CPython.conv in
  let E := plain_environ in
  let datas := [Scalar (Int 7); Iterable [Int 1; Float 2.5]] in
  attached (fst led_ready) (snd led_ready) 0 led_fifo 0
  /\ buffers (snd led_ready) 0 = []
  /\ buffer (fst led_ready) 0 = []
  /\ Forall (fun d => exists bs, encode (serialized d) = Ok bs
                                 /\ bytes_contains LF bs = false
                                 /\ Z.of_nat (length bs) < PAGE_SIZE) datas
  /\ Z.of_nat (length datas) <= PIPE_DEF_BUFFERS
  /\ exists msgs s1 s2,
       write_all 0 datas (fst led_ready, snd led_ready) = (Ok tt, s1)
       /\ Forall2 (fun d m => encode (serialized d) = Ok m) datas msgs
       /\ read_n 0 (length datas) s1
          = (map (fun m => result_bind (parse_line m)
                             (fun r => Ok (Some r))) msgs, s2)
       /\ buffer (fst s2) 0 = [].
Proof.
  intros F E datas.
  assert (Hatt : attached (fst led_ready) (snd led_ready) 0 led_fifo 0)
    by exact attached_led_ready.
  assert (Hw : buffers (snd led_ready) 0 = []) by (vm_compute; reflexivity).
  assert (Hb : buffer (fst led_ready) 0 = []) by (vm_compute; reflexivity).
  assert (Hok : Forall (fun d => exists bs, encode (serialized d) = Ok bs
                                 /\ bytes_contains LF bs = false
                                 /\ Z.of_nat (length bs) < PAGE_SIZE) datas).
  { constructor;
      [exists (b "7"); repeat split; vm_compute; reflexivity|].
    constructor;
      [exists (b "1,2.5"); repeat split; vm_compute; reflexivity|].
    constructor. }
  assert (Hcount : Z.of_nat (length datas) <= PIPE_DEF_BUFFERS)
    by (vm_compute; discriminate).
  split; [exact Hatt|]. split; [exact Hw|]. split; [exact Hb|].
  split; [exact Hok|]. split; [exact Hcount|].
  exact (written_lines_are_read_in_order (fst led_ready) (snd led_ready) 0
           led_fifo 0 datas Hatt Hw Hb Hok Hcount).
Defined.

Lemma cleanup_shuts_and_can_be_repeated_witness :
  let F := CPython.conv in
  let E := plain_environ in
  Component.__fifos (fst led_ready) = Some [led_fifo]
  /\ Forall (is_open (snd led_ready)) [led_fifo]
  /\ Forall (fun f => nodes (snd led_ready) !! FIFOFile.__filename f
                      ≠ Some Directory) [led_fifo]
  /\ exists w',
       Component.cleanup (fst led_ready, snd led_ready)
       = (Ok tt, (Component.set_initialized false (fst led_ready), w'))
       /\ Forall (is_shut w') [led_fifo]
       /\ Component.cleanup
            (Component.set_initialized false (fst led_ready), w')
          = (Ok tt, (Component.set_initialized false (fst led_ready), w')).
Proof.
  intros F E.
  assert (Hopen : Forall (is_open (snd led_ready)) [led_fifo]).
  { constructor; [|constructor]. exists 0%nat. vm_compute. reflexivity. }
  assert (Hnodes : Forall (fun f => nodes (snd led_ready)
                                      !! FIFOFile.__filename f
                                    ≠ Some Directory) [led_fifo]).
  { constructor; [|constructor]. vm_compute. discriminate. }
  split; [exact fifos_led_ready|]. split; [exact Hopen|].
  split; [exact Hnodes|].
  destruct (cleanup_shuts_and_can_be_repeated (fst led_ready) (snd led_ready)
              [led_fifo] fifos_led_ready Hopen Hnodes)
    as (w' & Hrun & Hshut & _ & Hagain).
  exists w'. split; [exact Hrun|]. split; [exact Hshut|exact Hagain].
Defined.

Lemma use_after_cleanup_witness :
  let F := CPython.conv in
  let E := plain_environ in
  encode (serialized (Scalar (Int 7))) = Ok (b "7")
  /\ detached (fst led_cleaned) (snd led_cleaned) 0 led_fifo
  /\ Component.readdata 0 (fst led_cleaned, snd led_cleaned)
     = (Raise ValueError, (fst led_cleaned, snd led_cleaned))
  /\ Component.writedata (Scalar (Int 7)) 0 (fst led_cleaned, snd led_cleaned)
     = (Raise ValueError, (fst led_cleaned, snd led_cleaned)).
Proof.
  intros F E.
  assert (Henc : encode (serialized (Scalar (Int 7))) = Ok (b "7"))
    by reflexivity.
  assert (Hdet : detached (fst led_cleaned) (snd led_cleaned) 0 led_fifo).
  { split.
    - exists [led_fifo]. split; vm_compute; reflexivity.
    - exists 0%nat. vm_compute. reflexivity. }
  split; [exact Henc|]. split; [exact Hdet|].
  destruct (use_after_cleanup (fst led_cleaned) (snd led_cleaned) 0 led_fifo
              (Scalar (Int 7)) (b "7") Henc) as [Huse _].
  exact (Huse Hdet).
Defined.

Lemma init_again_after_cleanup_witness :
  let F := CPython.conv in
  let E := plain_environ in
  Forall (fun i => nodes empty_world !! path_of (Component.__fn led) i
                   ≠ Some Directory) (suffixes led)
  /\ exists fs1 w1 w2 fs2 w3,
       Component.init (led, empty_world)
       = (Ok tt, (Component.set_fifos (Some fs1) led, w1))
       /\ Component.cleanup (Component.set_fifos (Some fs1) led, w1)
          = (Ok tt, (Component.set_initialized false
                       (Component.set_fifos (Some fs1) led), w2))
       /\ Component.init
            (Component.set_initialized false
               (Component.set_fifos (Some fs1) led), w2)
          = (Ok tt,
             (Component.set_fifos (Some fs2)
                (Component.set_initialized false
                   (Component.set_fifos (Some fs1) led)), w3))
       /\ map FIFOFile.__filename fs2 = map FIFOFile.__filename fs1
       /\ Forall (is_open w3) fs2.
Proof.
  intros F E.
  assert (Hdir : Forall (fun i => nodes empty_world
                                    !! path_of (Component.__fn led) i
                                  ≠ Some Directory) (suffixes led)).
  { constructor; [|constructor]. cbn. rewrite lookup_empty. discriminate. }
  split; [exact Hdir|].
  destruct (init_again_after_cleanup led empty_world Hdir)
    as (fs1 & w1 & w2 & fs2 & w3 & H1 & H2 & H3 & H4 & H5 & _).
  exists fs1, w1, w2, fs2, w3.
  split; [exact H1|]. split; [exact H2|]. split; [exact H3|].
  split; [exact H4|exact H5].
Defined.

(** ** More on the handler registry *)
Section RegistryMore.
Context {callback : Type}.
Variable call : callback -> Z -> M (EventedInput.t callback) unit.
Import EventedInput.

Lemma get_handlers_key pin generic (r : t callback) :
  has_key pin generic = true ->
  _get_handlers pin generic r
  = (Ok (key_of pin generic), touched (key_of pin generic) r).
Proof.
  intros Hkey. unfold _get_handlers, key_of, touched.
  destruct pin as [p|], generic; try done;
    unfold handlers_getitem; by destruct (__handlers r !! _).
Qed.

Lemma get_handlers_no_key pin generic (r : t callback) :
  has_key pin generic = false ->
  _get_handlers pin generic r = (Raise TypeError, r).
Proof. by destruct pin as [p|], generic. Qed.

Lemma next_id_touched k (r : t callback) :
  __next_id (touched k r) = __next_id r.
Proof. unfold touched, handlers_getitem. by destruct (__handlers r !! k). Qed.

Lemma the_dict_insert k k' d n (hs : gmap key (list (Z * callback))) :
  the_dict k' {| __next_id := n; __handlers := <[k := d]> hs |}
  = if decide (k = k') then d
    else the_dict k' {| __next_id := n; __handlers := hs |}.
Proof.
  unfold the_dict. cbn. destruct (decide (k = k')) as [->|Hne].
  - by rewrite lookup_insert_eq.
  - by rewrite lookup_insert_ne.
Qed.

Lemma the_dict_next_id k n (r : t callback) :
  the_dict k {| __next_id := n; __handlers := __handlers r |} = the_dict k r.
Proof. done. Qed.

Lemma remove_handler_with_key hid pin generic (r : t callback) :
  has_key pin generic = true ->
  let k := key_of pin generic in
  let r' := snd (remove_handler hid pin generic r) in
  __next_id r' = __next_id r
  /\ (forall k', k' ≠ k -> the_dict k' r' = the_dict k' r)
  /\ (dict_mem hid (the_dict k r) = true ->
        fst (remove_handler hid pin generic r) = Ok tt
        /\ the_dict k r'
           = List.filter (fun kv => negb (fst kv =? hid)) (the_dict k r))
  /\ (dict_mem hid (the_dict k r) = false ->
        fst (remove_handler hid pin generic r) = Raise KeyError
        /\ the_dict k r' = the_dict k r).
Proof.
  intros Hkey k r'. subst r'. unfold remove_handler, bind.
  rewrite get_handlers_key by done. fold k. unfold delitem.
  rewrite the_dict_touched.
  destruct (dict_mem hid (the_dict k r)) eqn:Hmem; cbn [fst snd].
  - split; [apply next_id_touched|]. split.
    + intros k' Hne. rewrite the_dict_insert.
      destruct (decide (k = k')) as [E|_]; [by subst|].
      change ({| __next_id := __next_id (touched k r);
                 __handlers := __handlers (touched k r) |})
        with (let r0 := touched k r in
              {| __next_id := __next_id r0; __handlers := __handlers r0 |}).
      cbn zeta. rewrite the_dict_next_id. apply the_dict_touched.
    + split; [|done]. intros _. split; [done|].
      rewrite the_dict_insert. by destruct (decide (k = k)).
  - split; [apply next_id_touched|].
    split; [intros k' _; apply the_dict_touched|].
    split; [done|]. intros _. split; [done|]. apply the_dict_touched.
Qed.

(** What [remove_handler] does.  Without a pin and without [generic] it
    raises [TypeError].  Otherwise it works on the dict of its key alone:
    an id that is there is deleted, the handlers around it keep their
    order, the dicts of the other keys and the counter are untouched; an id
    that is not there, be it registered under another key, raises
    [KeyError] and no handler is removed anywhere. *)
Theorem remove_handler_takes_id_and_key hid pin generic (r : t callback) :
  (has_key pin generic = false ->
     remove_handler hid pin generic r = (Raise TypeError, r))
  /\ (has_key pin generic = true ->
      let k := key_of pin generic in
      let r' := snd (remove_handler hid pin generic r) in
      __next_id r' = __next_id r
      /\ (forall k', k' ≠ k -> the_dict k' r' = the_dict k' r)
      /\ (dict_mem hid (the_dict k r) = true ->
            fst (remove_handler hid pin generic r) = Ok tt
            /\ the_dict k r'
               = List.filter (fun kv => negb (fst kv =? hid)) (the_dict k r))
      /\ (dict_mem hid (the_dict k r) = false ->
            fst (remove_handler hid pin generic r) = Raise KeyError
            /\ the_dict k r' = the_dict k r)).
Proof.
  split.
  - intros Hkey. unfold remove_handler, bind.
    by rewrite get_handlers_no_key.
  - apply remove_handler_with_key.
Qed.

Lemma filter_fresh hid (d : list (Z * callback)) :
  (forall h c, (h, c) ∈ d -> h ≠ hid) ->
  List.filter (fun kv => negb (fst kv =? hid)) d = d.
Proof.
  induction d as [|[h c] d IH]; intros Hnew; [done|].
  cbn. destruct (Z.eqb_spec h hid) as [->|Hne].
  - exfalso. by apply (Hnew hid c); [apply list_elem_of_here|].
  - cbn. rewrite IH; [done|]. intros h' c' Hin. apply (Hnew h' c').
    by apply list_elem_of_further.
Qed.

Lemma dict_mem_last hid cb (d : list (Z * callback)) :
  dict_mem hid (d ++ [(hid, cb)]) = true.
Proof.
  unfold dict_mem. rewrite existsb_app. cbn.
  by rewrite Z.eqb_refl, orb_true_r.
Qed.

Lemma add_then_remove_dicts cb pin generic (r : t callback) :
  has_key pin generic = true ->
  ids_bounded r ->
  forall k,
    the_dict k (snd (remove_handler (__next_id r + 1) pin generic
                       (snd (add_handler cb pin generic r))))
    = the_dict k r.
Proof.
  intros Hkey Hb k.
  destruct (add_handler_appends cb pin generic r Hkey Hb)
    as (Hlast & Hother & _).
  set (r1 := snd (add_handler cb pin generic r)) in *.
  destruct (remove_handler_with_key (__next_id r + 1) pin generic r1 Hkey)
    as (_ & Hother2 & Hthere & _).
  assert (Hmem : dict_mem (__next_id r + 1)
                   (the_dict (key_of pin generic) r1) = true).
  { rewrite Hlast. apply dict_mem_last. }
  destruct (Hthere Hmem) as [_ Hdel].
  destruct (decide (k = key_of pin generic)) as [->|Hne].
  - rewrite Hdel, Hlast, List.filter_app. cbn.
    rewrite Z.eqb_refl. cbn. rewrite app_nil_r. apply filter_fresh.
    intros h c Hin. specialize (Hb _ _ _ Hin). lia.
  - rewrite Hother2 by done. by apply Hother.
Qed.

(** A handler that is added and then removed with the id [add_handler]
    returned, under the same key, leaves every dict of the registry as it
    was before the two calls; only the counter has moved, so the id is not
    given out again. *)
Theorem add_then_remove_restores cb pin generic (r : t callback) :
  has_key pin generic = true ->
  ids_bounded r ->
  let hid := __next_id r + 1 in
  let r1 := snd (add_handler cb pin generic r) in
  let r2 := snd (remove_handler hid pin generic r1) in
  fst (add_handler cb pin generic r) = Ok hid
  /\ fst (remove_handler hid pin generic r1) = Ok tt
  /\ (forall k, the_dict k r2 = the_dict k r)
  /\ __next_id r2 = hid.
Proof.
  intros Hkey Hb hid r1 r2.
  destruct (add_handler_run cb pin generic r) as [Hout Hid].
  rewrite Hkey in Hout.
  destruct (add_handler_appends cb pin generic r Hkey Hb)
    as (Hlast & Hother & _). fold r1 in Hid, Hlast, Hother.
  destruct (remove_handler_with_key hid pin generic r1 Hkey)
    as (Hid2 & Hother2 & Hthere & _). fold r2 in Hid2, Hother2, Hthere.
  assert (Hmem : dict_mem hid (the_dict (key_of pin generic) r1) = true).
  { rewrite Hlast. apply dict_mem_last. }
  destruct (Hthere Hmem) as [Hok Hdel].
  split; [done|]. split; [done|]. split; [|by rewrite Hid2, Hid].
  intros k. destruct (decide (k = key_of pin generic)) as [->|Hne].
  - rewrite Hdel, Hlast, List.filter_app. cbn.
    rewrite Z.eqb_refl. cbn. rewrite app_nil_r. apply filter_fresh.
    intros h c Hin. specialize (Hb _ _ _ Hin). subst hid. lia.
  - rewrite Hother2 by done. by apply Hother.
Qed.

End RegistryMore.

(** ** The registry stays in order *)
Section RegistryInvariant.
Context {callback : Type}.
Import EventedInput.

Lemma registry_ok_new : registry_ok (@__init__ callback).
Proof.
  split; [apply ids_bounded_new|]. split.
  - intros k. cbn. constructor.
  - intros k k' hid cb cb' Hin. by apply elem_of_nil in Hin.
Qed.

Lemma add_failed_state cb pin generic (r : t callback) :
  has_key pin generic = false ->
  snd (add_handler cb pin generic r)
  = {| __next_id := __next_id r + 1; __handlers := __handlers r |}.
Proof.
  intros Hkey. unfold add_handler, bind, modify. cbn [fst snd].
  by rewrite get_handlers_no_key.
Qed.

Lemma registry_ok_add cb pin generic (r : t callback) :
  registry_ok r -> registry_ok (snd (add_handler cb pin generic r)).
Proof.
  intros (Hb & Hnd & Hkeys).
  destruct (has_key pin generic) eqn:Hkey.
  - destruct (add_handler_appends cb pin generic r Hkey Hb)
      as (Hlast & Hother & Hb').
    set (r' := snd (add_handler cb pin generic r)) in *.
    set (k0 := key_of pin generic) in *.
    assert (Hin' : forall k hid c, (hid, c) ∈ the_dict k r' ->
              (hid, c) ∈ the_dict k r \/ (k = k0 /\ hid = __next_id r + 1)).
    { intros k hid c Hin. destruct (decide (k = k0)) as [->|Hne].
      - rewrite Hlast in Hin. apply elem_of_app in Hin as [Hin|Hin];
          [by left|]. apply list_elem_of_singleton in Hin. simplify_eq.
        by right.
      - rewrite Hother in Hin by done. by left. }
    split; [done|]. split.
    + intros k. destruct (decide (k = k0)) as [->|Hne].
      * rewrite Hlast, map_app. apply NoDup_app. split; [apply Hnd|].
        split; [|cbn; apply NoDup_singleton].
        intros hid Hin Hin'2. cbn in Hin'2.
        apply list_elem_of_singleton in Hin'2. subst hid.
        apply list_elem_of_fmap in Hin as ([h c] & E & Hin). cbn in E.
        subst h. specialize (Hb _ _ _ Hin). lia.
      * rewrite Hother by done. apply Hnd.
    + intros k k' hid c c' Hin1 Hin2.
      destruct (Hin' _ _ _ Hin1) as [H1|[-> ->]],
               (Hin' _ _ _ Hin2) as [H2|[-> E2]]; try done.
      * by eapply Hkeys.
      * subst hid. specialize (Hb _ _ _ H1). lia.
      * specialize (Hb _ _ _ H2). lia.
  - rewrite add_failed_state by done. split; [|split].
    + intros k hid c Hin. rewrite the_dict_next_id in Hin.
      specialize (Hb _ _ _ Hin). cbn. lia.
    + intros k. rewrite the_dict_next_id. apply Hnd.
    + intros k k' hid c c'. rewrite !the_dict_next_id. apply Hkeys.
Qed.

Lemma registry_ok_remove hid pin generic (r : t callback) :
  registry_ok r -> registry_ok (snd (remove_handler hid pin generic r)).
Proof.
  intros (Hb & Hnd & Hkeys).
  destruct (has_key pin generic) eqn:Hkey.
  - destruct (remove_handler_with_key hid pin generic r Hkey)
      as (Hid & Hother & Hthere & Hmissing).
    set (r' := snd (remove_handler hid pin generic r)) in *.
    set (k0 := key_of pin generic) in *.
    assert (Hsub : forall k, exists keep,
              the_dict k r' = List.filter keep (the_dict k r)).
    { intros k. destruct (decide (k = k0)) as [->|Hne].
      - destruct (dict_mem hid (the_dict k0 r)) eqn:Hmem.
        + destruct (Hthere eq_refl) as [_ ->]. eauto.
        + destruct (Hmissing eq_refl) as [_ ->]. exists (fun _ => true).
          symmetry. apply forallb_filter_id. by apply forallb_forall.
      - rewrite Hother by done. exists (fun _ => true).
        symmetry. apply forallb_filter_id. by apply forallb_forall. }
    assert (Hin' : forall k h c, (h, c) ∈ the_dict k r' ->
                                 (h, c) ∈ the_dict k r).
    { intros k h c Hin. destruct (Hsub k) as [keep E]. rewrite E in Hin.
      apply list_elem_of_In in Hin. apply filter_In in Hin as [Hin _].
      by apply list_elem_of_In. }
    split; [|split].
    + intros k h c Hin. rewrite Hid. by eapply Hb, Hin'.
    + intros k. destruct (Hsub k) as [keep ->].
      specialize (Hnd k). clear -Hnd.
      induction (the_dict k r) as [|[h c] d IH]; [constructor|].
      cbn in *. apply NoDup_cons in Hnd as [Hnotin Hnd].
      destruct (keep (h, c)); [|by apply IH]. cbn.
      apply NoDup_cons. split; [|by apply IH].
      intros Hin. apply Hnotin.
      apply list_elem_of_fmap in Hin as ([h' c'] & E & Hin). cbn in E. subst h'.
      apply list_elem_of_In, filter_In in Hin as [Hin _].
      apply list_elem_of_fmap. exists (h, c'). split; [done|].
      by apply list_elem_of_In.
    + intros k k' h c c' Hin1 Hin2. eapply Hkeys; by apply Hin'.
  - unfold remove_handler, bind. by rewrite get_handlers_no_key.
Qed.

Lemma registry_ok_serve_all rqs : forall r : t callback,
  registry_ok r -> registry_ok (snd (serve_all rqs r)).
Proof.
  induction rqs as [|rq rqs IH]; intros r Hok; [done|].
  cbn [serve_all].
  assert (Hok1 : registry_ok (snd (serve rq r))).
  { destruct rq as [cb pin generic|hid pin generic]; unfold serve, bind.
    - pose proof (registry_ok_add cb pin generic r Hok) as H1.
      by destruct (add_handler cb pin generic r) as [[h|e] r1].
    - pose proof (registry_ok_remove hid pin generic r Hok) as H1.
      by destruct (remove_handler hid pin generic r) as [[[]|e] r1]. }
  destruct (serve rq r) as [out r1]. specialize (IH r1 Hok1).
  by destruct (serve_all rqs r1) as [outs r2].
Qed.

(** Whatever calls of [add_handler] and [remove_handler] a new registry has
    seen, those that raised included: no handler has an id above the
    counter, no id is twice in a dict, and no id sits under two keys: an
    id names at most one handler. *)
Theorem registry_ids_name_one_handler (rqs : list (request callback)) :
  let r := snd (serve_all rqs __init__) in
  (forall k hid cb, (hid, cb) ∈ the_dict k r -> hid <= __next_id r)
  /\ (forall k, NoDup (map fst (the_dict k r)))
  /\ (forall k k' hid cb cb',
        (hid, cb) ∈ the_dict k r -> (hid, cb') ∈ the_dict k' r -> k = k').
Proof. apply (registry_ok_serve_all rqs __init__ registry_ok_new). Qed.

End RegistryInvariant.

(** ** Dispatch follows registration *)
Section DispatchOrder.
Context {callback : Type}.
Variable call : callback -> Z -> M (EventedInput.t callback) unit.
Import EventedInput.

Lemma handle_pin_run pin (r : t callback) lg :
  (forall i s e,
     i ∈ dict_values (the_dict Generic r)
         ++ dict_values (the_dict (Pin pin) r) ->
     fst (call i pin s) = Raise e -> is_Exception e = true) ->
  exists evs r',
    _handle_pin call pin (r, lg) = (Ok tt, (r', lg ++ evs))
    /\ calls evs
       = dict_values (the_dict Generic r)
           ++ dict_values (the_dict (Pin pin) r).
Proof.
  intros Hexc.
  set (hs := dict_values (the_dict Generic r)
               ++ dict_values (the_dict (Pin pin) r)) in *.
  set (r0 := touched (Pin pin) (touched Generic r)).
  exists (fst (dispatched call pin hs r0)), (snd (dispatched call pin hs r0)).
  split; [|apply calls_dispatched].
  unfold _handle_pin.
  rewrite (bind_ok _ _ _ _ _ (get_values_run None true Generic r lg eq_refl)).
  rewrite (bind_ok _ _ _ _ _
             (get_values_run (Some pin) false (Pin pin) _ lg eq_refl)).
  rewrite the_dict_touched. fold hs. fold r0.
  by apply dispatch_loop.
Qed.

(** A handler takes part in the dispatch from its registration to its
    removal, last in its group.  On a registry with no id above its
    counter, when no handler raises past [Exception]: after
    [add_handler(cb, pin)] a dispatch for the pin calls the generic
    handlers, the handlers the pin had, and then [cb]; after
    [remove_handler] with the id that was returned, it calls what it called
    before the two. *)
Theorem handler_is_called_from_add_to_remove pin cb (r : t callback) lg :
  ids_bounded r ->
  (forall i s e, fst (call i pin s) = Raise e -> is_Exception e = true) ->
  let before := dict_values (the_dict Generic r)
                  ++ dict_values (the_dict (Pin pin) r) in
  let r1 := snd (add_handler cb (Some pin) false r) in
  let r2 := snd (remove_handler (__next_id r + 1) (Some pin) false r1) in
  (exists evs r', _handle_pin call pin (r1, lg) = (Ok tt, (r', lg ++ evs))
                  /\ calls evs = before ++ [cb])
  /\ (exists evs r', _handle_pin call pin (r2, lg) = (Ok tt, (r', lg ++ evs))
                     /\ calls evs = before).
Proof.
  intros Hb Hexc before r1 r2.
  destruct (add_handler_appends cb (Some pin) false r eq_refl Hb)
    as (Hlast & Hother & _).
  change (key_of (Some pin) false) with (Pin pin) in *. fold r1 in Hlast, Hother.
  pose proof (add_then_remove_dicts cb (Some pin) false r eq_refl Hb)
    as Hback. fold r1 r2 in Hback.
  split.
  - destruct (handle_pin_run pin r1 lg) as (evs & r' & Hrun & Hcalls);
      [intros i s e _; apply Hexc|].
    exists evs, r'. split; [done|].
    rewrite Hcalls, Hlast, (Hother Generic) by done.
    unfold before, dict_values. by rewrite map_app, app_assoc.
  - destruct (handle_pin_run pin r2 lg) as (evs & r' & Hrun & Hcalls);
      [intros i s e _; apply Hexc|].
    exists evs, r'. split; [done|]. by rewrite Hcalls, !Hback.
Qed.

End DispatchOrder.

(** ** The registry theorems at the registry of two handlers on pin 5 *)

Lemma ids_bounded_two_on_pin_5 : ids_bounded two_on_pin_5.
Proof.
  exact (proj1 (registry_ok_serve_all
                  [Add 0%nat (Some 5) false; Add 1%nat (Some 5) false]
                  EventedInput.__init__ registry_ok_new)).
Qed.

Lemma zero_raises_ValueError_is_Exception (i : nat) (pin : Z) s e :
  fst (zero_raises ValueError i pin s) = Raise e -> is_Exception e = true.
Proof. destruct i; cbn; [by intros [= <-]|done]. Qed.

Lemma add_then_remove_restores_witness :
  has_key (Some 5) false = true
  /\ ids_bounded two_on_pin_5
  /\ (let r := two_on_pin_5 in
      let hid := EventedInput.__next_id r + 1 in
      let r1 := snd (EventedInput.add_handler 2%nat (Some 5) false r) in
      let r2 := snd (EventedInput.remove_handler hid (Some 5) false r1) in
      fst (EventedInput.add_handler 2%nat (Some 5) false r) = Ok hid
      /\ fst (EventedInput.remove_handler hid (Some 5) false r1) = Ok tt
      /\ (forall k, EventedInput.the_dict k r2 = EventedInput.the_dict k r)
      /\ EventedInput.__next_id r2 = hid).
Proof.
  split; [reflexivity|]. split; [exact ids_bounded_two_on_pin_5|].
  exact (add_then_remove_restores 2%nat (Some 5) false two_on_pin_5
           eq_refl ids_bounded_two_on_pin_5).
Defined.

Lemma handler_is_called_from_add_to_remove_witness :
  ids_bounded two_on_pin_5
  /\ (forall i s e, fst (zero_raises ValueError i 5 s) = Raise e ->
                    is_Exception e = true)
  /\ (let r := two_on_pin_5 in
      let call := zero_raises ValueError in
      let before :=
        EventedInput.dict_values (EventedInput.the_dict EventedInput.Generic r)
        ++ EventedInput.dict_values
             (EventedInput.the_dict (EventedInput.Pin 5) r) in
      let r1 := snd (EventedInput.add_handler 2%nat (Some 5) false r) in
      let r2 := snd (EventedInput.remove_handler
                       (EventedInput.__next_id r + 1) (Some 5) false r1) in
      (exists evs r',
         EventedInput._handle_pin call 5 (r1, []) = (Ok tt, (r', [] ++ evs))
         /\ calls evs = before ++ [2%nat])
      /\ (exists evs r',
            EventedInput._handle_pin call 5 (r2, []) = (Ok tt, (r', [] ++ evs))
            /\ calls evs = before)).
Proof.
  split; [exact ids_bounded_two_on_pin_5|].
  split; [intros i s e; apply zero_raises_ValueError_is_Exception|].
  exact (handler_is_called_from_add_to_remove (zero_raises ValueError)
           5 2%nat two_on_pin_5 [] ids_bounded_two_on_pin_5
           (fun i s e => zero_raises_ValueError_is_Exception i 5 s e)).
Defined.

(** ** GPIOComponent *)
Section Gpio.
Context {conv : FloatConv} {env : Environ}.
Variable Board : Type.
Variable gpio_setmode_BCM : M Board unit.
Variable gpio_setup : Z -> GPIOComponent.direction -> M Board unit.
Variable gpio_cleanup : Z -> M Board unit.
Import GPIOComponent.

#[local] Abbreviation cleanup := (GPIOComponent.cleanup gpio_cleanup).
#[local] Abbreviation init :=
  (GPIOComponent.init gpio_setmode_BCM gpio_setup gpio_cleanup).
#[local] Abbreviation state := (GPIOComponent.state Board).

Lemma gpio_super_run {A} (m : M Component.state A) (s : state) :
  super m s
  = (fst (m (base (obj s), world s)),
     with_base (snd (m (base (obj s), world s))) s).
Proof.
  unfold super, zoom. by destruct (m (base (obj s), world s)) as [r cs].
Qed.

Lemma with_board_nil (s : state) : with_board (board s) [] s = s.
Proof. unfold with_board. rewrite app_nil_r. by destruct s. Qed.

Lemma with_board_twice b1 l1 b2 l2 (s : state) :
  with_board b2 l2 (with_board b1 l1 s) = with_board b2 (l1 ++ l2) s.
Proof. unfold with_board. cbn. by rewrite app_assoc. Qed.

Lemma gpio_run {A} (m : M Board A) (s : state) :
  gpio m s = (fst (m (board s)), with_board (snd (m (board s))) [] s).
Proof.
  unfold gpio, zoom, with_board. rewrite app_nil_r.
  by destruct (m (board s)) as [r b].
Qed.

(** One pin of the loops of [init], when [gpio.setup] raises nothing but
    [ValueError]. *)
Lemma setup_step d ch (s : state) :
  (forall ch b e, fst (gpio_setup ch d b) = Raise e ->
                  is_ValueError e = true) ->
  try_except (gpio (gpio_setup ch d)) is_ValueError
    (fun err => print (Error_setting_up_pin ch err)) s
  = (Ok tt,
     with_board (snd (gpio_setup ch d (board s)))
       match fst (gpio_setup ch d (board s)) with
       | Ok _ => []
       | Raise e => [Error_setting_up_pin ch e]
       end s).
Proof.
  intros Hval. unfold try_except. rewrite gpio_run.
  specialize (Hval ch (board s)).
  destruct (gpio_setup ch d (board s)) as [[[]|e] b1]; cbn [fst snd] in *;
    [done|].
  rewrite (Hval e eq_refl). unfold print, with_board. cbn.
  by rewrite app_nil_r.
Qed.

Lemma setup_loop d pins : forall s : state,
  (forall ch b e, fst (gpio_setup ch d b) = Raise e ->
                  is_ValueError e = true) ->
  for_each pins (fun ch =>
    try_except (gpio (gpio_setup ch d)) is_ValueError
      (fun err => print (Error_setting_up_pin ch err))) s
  = (Ok tt, with_board (fst (set_up gpio_setup pins d (board s)))
                       (snd (set_up gpio_setup pins d (board s))) s).
Proof.
  induction pins as [|ch pins IH]; intros s Hval.
  - cbn. by rewrite with_board_nil.
  - cbn [for_each set_up].
    rewrite (bind_ok _ _ _ _ _ (setup_step d ch s Hval)).
    rewrite IH by done. cbn [board with_board].
    by rewrite with_board_twice.
Qed.

(** The loop of [cleanup], when [gpio.cleanup] does not raise. *)
Lemma release_loop pins : forall s : state,
  (forall ch b, fst (gpio_cleanup ch b) = Ok tt) ->
  for_each pins (fun ch => gpio (gpio_cleanup ch)) s
  = (Ok tt, with_board (released gpio_cleanup pins (board s)) [] s).
Proof.
  induction pins as [|ch pins IH]; intros s Hok.
  - cbn. by rewrite with_board_nil.
  - cbn [for_each]. unfold bind. rewrite gpio_run, (Hok ch (board s)).
    rewrite IH by done. by rewrite with_board_twice.
Qed.

(** The loop of [cleanup] leaves the object and the world alone, whatever
    [gpio.cleanup] does. *)
Lemma release_loop_keeps pins : forall s : state,
  obj (snd (for_each pins (fun ch => gpio (gpio_cleanup ch)) s)) = obj s
  /\ world (snd (for_each pins (fun ch => gpio (gpio_cleanup ch)) s))
     = world s.
Proof.
  induction pins as [|ch pins IH]; intros s; [done|].
  cbn [for_each]. unfold bind. rewrite gpio_run.
  destruct (gpio_cleanup ch (board s)) as [[[]|e] b1]; cbn [fst snd]; [|done].
  destruct (IH (with_board b1 [] s)) as [Ho Hw]. by rewrite Ho, Hw.
Qed.

Lemma with_base_same (s : state) : with_base (base (obj s), world s) s = s.
Proof. by destruct s as [[c o i] w b l]. Qed.

Lemma checkInit_quiet_run (s : state) :
  super (Component._checkInit true) s
  = (Ok (Some (Component.__initialized (base (obj s)))), s).
Proof.
  rewrite gpio_super_run. unfold Component._checkInit, bind, Component.self.
  cbn [fst snd ret]. unfold ret. cbn [fst snd]. by rewrite with_base_same.
Qed.

Lemma gpio_cleanup_steps (s : state) :
  cleanup s
  = if Component.__initialized (base (obj s))
    then (super Component.cleanup ;;
          s <- get ;;
          for_each (__out_pins (obj s) ++ __in_pins (obj s))
            (fun ch => gpio (gpio_cleanup ch)) ;;
          ret true) s
    else (Ok false, s).
Proof.
  unfold GPIOComponent.cleanup.
  rewrite (bind_ok _ _ _ _ _ (checkInit_quiet_run s)). cbn [truth].
  by destruct (Component.__initialized (base (obj s))).
Qed.

Lemma gpio_cleanup_unset (s : state) :
  Component.__initialized (base (obj s)) = false ->
  cleanup s = (Ok false, s).
Proof. intros Hflag. by rewrite gpio_cleanup_steps, Hflag. Qed.

Lemma gpio_cleanup_returned (s s' : state) r :
  cleanup s = (Ok r, s') ->
  r = Component.__initialized (base (obj s))
  /\ Component.__initialized (base (obj s')) = false.
Proof.
  rewrite gpio_cleanup_steps.
  destruct (Component.__initialized (base (obj s))) eqn:Hflag.
  - unfold bind at 1. rewrite gpio_super_run.
    pose proof (cleanup_clears (base (obj s)) (world s)) as Hclear.
    destruct (Component.cleanup (base (obj s), world s)) as [[[]|e] cs1];
      cbn [fst snd] in *; [|done].
    unfold bind at 1, get at 1. cbn [fst snd]. unfold bind.
    match goal with
    | |- context [for_each ?pins ?body ?s0] =>
        destruct (release_loop_keeps pins s0) as [Ho _];
        destruct (for_each pins body s0) as [[[]|e] s1]; cbn [fst snd] in *
    end; [|done].
    intros [= <- <-]. split; [done|]. rewrite Ho. cbn. by apply Hclear.
  - by intros [= <- <-].
Qed.

(** [GPIOComponent.cleanup()] does its work once.  On a component whose
    flag is not set it returns [False] and touches nothing: no pipe file,
    no pin, not even the missing [__fifos] on which [Component.cleanup()]
    raises.  Whenever it returns, it returns the flag it found and leaves
    the flag cleared, so a second call returns [False] and changes
    nothing. *)
Theorem gpio_cleanup_runs_once (s : state) :
  (Component.__initialized (base (obj s)) = false ->
     cleanup s = (Ok false, s))
  /\ (forall r s', cleanup s = (Ok r, s') ->
        r = Component.__initialized (base (obj s))
        /\ cleanup s' = (Ok false, s')).
Proof.
  split; [apply gpio_cleanup_unset|].
  intros r s' Hrun. destruct (gpio_cleanup_returned s s' r Hrun) as [-> Hoff].
  split; [done|]. by apply gpio_cleanup_unset.
Qed.

#[local] Abbreviation setup_pins d pins :=
  (for_each pins (fun ch =>
     try_except (gpio (gpio_setup ch d)) is_ValueError
       (fun err => print (Error_setting_up_pin ch err)))).

(** What [init] does once the pipes are there and the component is known
    not to be initialized. *)
#[local] Abbreviation init_tail :=
  (gpio gpio_setmode_BCM ;;
   s <- get ;;
   setup_pins OUT (__out_pins (obj s)) ;;
   s <- get ;;
   setup_pins IN (__in_pins (obj s)) ;;
   super Component._set_init).

(** The loops of [init] leave the object and the world alone, whatever
    [gpio.setup] does. *)
Lemma setup_loop_keeps d pins : forall s : state,
  obj (snd (setup_pins d pins s)) = obj s
  /\ world (snd (setup_pins d pins s)) = world s.
Proof.
  induction pins as [|ch pins IH]; intros s; [done|].
  cbn [for_each]. unfold bind.
  assert (Hstep : forall r s1,
            try_except (gpio (gpio_setup ch d)) is_ValueError
              (fun err => print (Error_setting_up_pin ch err)) s = (r, s1) ->
            obj s1 = obj s /\ world s1 = world s).
  { intros r s1. unfold try_except. rewrite gpio_run.
    destruct (gpio_setup ch d (board s)) as [[[]|e] b1]; cbn [fst snd].
    - by intros [= <- <-].
    - destruct (is_ValueError e); by intros [= <- <-]. }
  destruct (try_except _ _ _ s) as [[[]|e] s1] eqn:E;
    destruct (Hstep _ _ eq_refl) as [Ho Hw]; cbn [fst snd]; [|done].
  destruct (IH s1) as [Ho1 Hw1]. by rewrite Ho1, Hw1.
Qed.

Lemma init_tail_run (s : state) :
  (forall b, fst (gpio_setmode_BCM b) = Ok tt) ->
  (forall ch d b e, fst (gpio_setup ch d b) = Raise e ->
                    is_ValueError e = true) ->
  let o := set_up gpio_setup (__out_pins (obj s)) OUT
             (snd (gpio_setmode_BCM (board s))) in
  let i := set_up gpio_setup (__in_pins (obj s)) IN (fst o) in
  init_tail s
  = (Ok tt,
     with_board (fst i) (snd o ++ snd i)
       (with_base (Component.set_initialized true (base (obj s)), world s)
          s)).
Proof.
  intros Hmode Hval o i.
  unfold bind at 1. rewrite gpio_run, Hmode.
  unfold bind at 1, get at 1. cbn [fst snd].
  unfold bind at 1. cbn [obj with_board].
  rewrite setup_loop by (intros ch b e; apply Hval).
  unfold bind at 1, get at 1. cbn [fst snd].
  unfold bind at 1. cbn [obj with_board].
  rewrite setup_loop by (intros ch b e; apply Hval).
  rewrite gpio_super_run. unfold Component._set_init, Component.update.
  cbn [fst snd]. f_equal.
  unfold with_board, with_base. subst o i. cbn.
  by rewrite !app_nil_r, <- !app_assoc.
Qed.

(** A step that leaves the object and the world alone. *)
#[local] Abbreviation keeps m :=
  (forall s : state, obj (snd (m s)) = obj s /\ world (snd (m s)) = world s).

(** A step that leaves the world alone and changes the object in its flag
    only, which it sets when it returns. *)
#[local] Abbreviation sets_flag m :=
  (forall s : state,
     world (snd (m s)) = world s
     /\ __out_pins (obj (snd (m s))) = __out_pins (obj s)
     /\ __in_pins (obj (snd (m s))) = __in_pins (obj s)
     /\ base (obj (snd (m s)))
        = match fst (m s) with
          | Ok _ => Component.set_initialized true (base (obj s))
          | Raise _ => base (obj s)
          end).

Lemma keeps_then_sets_flag {A B} (m : M state A) (k : A -> M state B) :
  keeps m -> (forall a, sets_flag (k a)) -> sets_flag (bind m k).
Proof.
  intros Hm Hk s. unfold bind. destruct (Hm s) as [Ho Hw].
  destruct (m s) as [[a|e] s1]; cbn [fst snd] in *.
  - destruct (Hk a s1) as (H1 & H2 & H3 & H4).
    by rewrite H1, H2, H3, H4, Ho, Hw.
  - by rewrite Ho, Hw.
Qed.

Lemma keeps_gpio {A} (m : M Board A) : keeps (gpio m).
Proof. intros s. rewrite gpio_run. done. Qed.

(** Whatever the [gpio] functions do, [init_tail] changes the world not at
    all and the object in its flag only, which it sets when it returns. *)
Lemma init_tail_keeps : sets_flag init_tail.
Proof.
  apply keeps_then_sets_flag; [apply keeps_gpio|]. intros _.
  apply keeps_then_sets_flag; [done|]. intros s1.
  apply keeps_then_sets_flag; [apply setup_loop_keeps|]. intros _.
  apply keeps_then_sets_flag; [done|]. intros s2.
  apply keeps_then_sets_flag; [apply setup_loop_keeps|]. intros _.
  intros s. rewrite gpio_super_run. done.
Qed.

(** [init] on a component that is not initialized, once the pipes are
    there. *)
Lemma gpio_init_steps (s : state) cs :
  Component.init (base (obj s), world s) = (Ok tt, cs) ->
  init s
  = if Component.__initialized (fst cs)
    then ((_ <- cleanup ;; ret tt) ;; init_tail) (with_base cs s)
    else init_tail (with_base cs s).
Proof.
  intros Hinit. unfold GPIOComponent.init.
  unfold bind at 1. rewrite gpio_super_run, Hinit. cbn [fst snd].
  rewrite (bind_ok _ _ _ _ _ (checkInit_quiet_run (with_base cs s))).
  cbn [with_base obj base truth].
  by destruct (Component.__initialized (fst cs)).
Qed.

Lemma suffixes_not_nil (c : Component.t) : suffixes c ≠ [].
Proof.
  unfold suffixes.
  destruct (Z.ltb_spec (Z.of_nat (length (Component.__channels c))) 2);
    [done|]. intros E. rewrite E in *. cbn in *. lia.
Qed.

Lemma gpio_init_new (s : state) :
  Component.__initialized (base (obj s)) = false ->
  Forall (fun i => nodes (world s) !! path_of (Component.__fn (base (obj s))) i
                   ≠ Some Directory)
         (suffixes (base (obj s))) ->
  let c := base (obj s) in
  let fs := fst (open_all (Component.__fn c) (suffixes c) (world s)) in
  let w1 := snd (open_all (Component.__fn c) (suffixes c) (world s)) in
  init s = init_tail (with_base (Component.set_fifos (Some fs) c, w1) s)
  /\ fs ≠ []
  /\ Forall (is_open w1) fs.
Proof.
  intros Hflag Hdir c fs w1.
  split; [|split; [|apply open_all_is_open]].
  - rewrite (gpio_init_steps s _ (init_spec c (world s) Hdir)).
    cbn [fst Component.set_fifos Component.__initialized].
    unfold c in *. by rewrite Hflag.
  - intros E. apply (f_equal length) in E. unfold fs in E.
    rewrite open_all_length in E.
    by apply (suffixes_not_nil c), nil_length_inv.
Qed.

(** [init()] of a component that is not initialized goes through even when
    pins cannot be set up.  With no directory in the way of a pipe, a
    [gpio.setmode] that returns and a [gpio.setup] that raises nothing but
    [ValueError]: [init()] returns, the flag is set, every channel has its
    pipe file and all are open, [gpio.setup] has been tried on every output
    pin and then on every input pin, and one line has been printed for each
    pin on which it raised. *)
Theorem gpio_init_survives_bad_pins (s : state) :
  Component.__initialized (base (obj s)) = false ->
  Forall (fun i => nodes (world s) !! path_of (Component.__fn (base (obj s))) i
                   ≠ Some Directory)
         (suffixes (base (obj s))) ->
  (forall b, fst (gpio_setmode_BCM b) = Ok tt) ->
  (forall ch d b e, fst (gpio_setup ch d b) = Raise e ->
                    is_ValueError e = true) ->
  let s' := snd (init s) in
  let o := set_up gpio_setup (__out_pins (obj s)) OUT
             (snd (gpio_setmode_BCM (board s))) in
  let i := set_up gpio_setup (__in_pins (obj s)) IN (fst o) in
  fst (init s) = Ok tt
  /\ Component.__initialized (base (obj s')) = true
  /\ all_open (base (obj s')) (world s')
  /\ board s' = fst i
  /\ stdout s' = stdout s ++ snd o ++ snd i.
Proof.
  intros Hflag Hdir Hmode Hval s' o i.
  destruct (gpio_init_new s Hflag Hdir) as (Hrun & Hne & Hopen).
  subst s'. rewrite Hrun, (init_tail_run _ Hmode Hval). cbn [fst snd].
  split; [done|]. split; [done|]. split; [|done].
  eexists. split; [reflexivity|]. split; [exact Hne|exact Hopen].
Qed.

(** A failed [init()] leaves its pipes behind.  When [init()] of a
    component that is not initialized raises although no directory was in
    the way of a pipe, that is when [gpio.setmode] raised or [gpio.setup]
    raised something else than [ValueError], then the pipes have been
    created and are open, the flag is not set, and so [cleanup()] returns
    [False] and does not close them. *)
Theorem gpio_init_failure_leaves_pipes (s : state) e :
  Component.__initialized (base (obj s)) = false ->
  Forall (fun i => nodes (world s) !! path_of (Component.__fn (base (obj s))) i
                   ≠ Some Directory)
         (suffixes (base (obj s))) ->
  fst (init s) = Raise e ->
  let s' := snd (init s) in
  Component.__initialized (base (obj s')) = false
  /\ all_open (base (obj s')) (world s')
  /\ cleanup s' = (Ok false, s').
Proof.
  intros Hflag Hdir Hraise s'.
  destruct (gpio_init_new s Hflag Hdir) as (Hrun & Hne & Hopen).
  set (c := base (obj s)) in *.
  set (fs := fst (open_all (Component.__fn c) (suffixes c) (world s))) in *.
  set (w1 := snd (open_all (Component.__fn c) (suffixes c) (world s))) in *.
  set (s1 := with_base (Component.set_fifos (Some fs) c, w1) s) in *.
  destruct (init_tail_keeps s1) as (Hw & _ & _ & Hb).
  subst s'. rewrite Hrun in *. rewrite Hraise in Hb.
  assert (Hoff : Component.__initialized (base (obj (snd (init_tail s1))))
                 = false) by (rewrite Hb; exact Hflag).
  split; [exact Hoff|]. split; [|by apply gpio_cleanup_unset].
  rewrite Hb, Hw. exists fs. by split.
Qed.


End Gpio.

(** ** The GPIO theorems at work on the [gpio_led] *)

Lemma sample_setup_ValueError ch d b e :
  fst (sample_setup ch d b) = Raise e ->
  GPIOComponent.is_ValueError e = true.
Proof.
  unfold sample_setup. destruct (_ && _); cbn; [done|]. by intros [= <-].
Qed.

Lemma gpio_init_survives_bad_pins_witness :
  let F := CPython.conv in
  let E := plain_environ in
  let s' := snd (GPIOComponent.init sample_setmode sample_setup sample_cleanup
                   gpio_led) in
  Component.__initialized (GPIOComponent.base (GPIOComponent.obj gpio_led))
  = false
  /\ Forall (fun i => nodes empty_world !! path_of (u "led") i
                      ≠ Some Directory) [0]
  /\ fst (GPIOComponent.init sample_setmode sample_setup sample_cleanup
            gpio_led) = Ok tt
  /\ Component.__initialized (GPIOComponent.base (GPIOComponent.obj s'))
     = true
  /\ all_open (GPIOComponent.base (GPIOComponent.obj s'))
       (GPIOComponent.world s')
  /\ GPIOComponent.board s' = [(4, GPIOComponent.IN); (17, GPIOComponent.OUT)]
  /\ GPIOComponent.stdout s'
     = [GPIOComponent.Error_setting_up_pin 99 ValueError].
Proof.
  intros F E s'.
  assert (Hflag : Component.__initialized
                    (GPIOComponent.base (GPIOComponent.obj gpio_led)) = false)
    by reflexivity.
  assert (Hdir : Forall (fun i => nodes empty_world !! path_of (u "led") i
                                  ≠ Some Directory) [0]).
  { repeat constructor; cbn; rewrite lookup_empty; discriminate. }
  split; [exact Hflag|]. split; [exact Hdir|].
  destruct (gpio_init_survives_bad_pins _ sample_setmode sample_setup
              sample_cleanup gpio_led Hflag Hdir (fun b => eq_refl)
              sample_setup_ValueError)
    as (Hok & Hset & Hopen & Hboard & Hout).
  split; [exact Hok|]. split; [exact Hset|]. split; [exact Hopen|].
  split; [exact Hboard|exact Hout].
Defined.

Lemma gpio_init_failure_leaves_pipes_witness :
  let F := CPython.conv in
  let E := plain_environ in
  let s' := snd (GPIOComponent.init failing_setmode sample_setup
                   sample_cleanup gpio_led) in
  Component.__initialized (GPIOComponent.base (GPIOComponent.obj gpio_led))
  = false
  /\ Forall (fun i => nodes empty_world !! path_of (u "led") i
                      ≠ Some Directory) [0]
  /\ fst (GPIOComponent.init failing_setmode sample_setup sample_cleanup
            gpio_led) = Raise RuntimeError
  /\ Component.__initialized (GPIOComponent.base (GPIOComponent.obj s'))
     = false
  /\ all_open (GPIOComponent.base (GPIOComponent.obj s'))
       (GPIOComponent.world s')
  /\ GPIOComponent.cleanup sample_cleanup s' = (Ok false, s').
Proof.
  intros F E s'.
  assert (Hflag : Component.__initialized
                    (GPIOComponent.base (GPIOComponent.obj gpio_led)) = false)
    by reflexivity.
  assert (Hdir : Forall (fun i => nodes empty_world !! path_of (u "led") i
                                  ≠ Some Directory) [0]).
  { repeat constructor; cbn; rewrite lookup_empty; discriminate. }
  assert (Hraise : fst (GPIOComponent.init failing_setmode sample_setup
                          sample_cleanup gpio_led) = Raise RuntimeError)
    by (vm_compute; reflexivity).
  split; [exact Hflag|]. split; [exact Hdir|]. split; [exact Hraise|].
  exact (gpio_init_failure_leaves_pipes _ failing_setmode sample_setup
           sample_cleanup gpio_led RuntimeError Hflag Hdir Hraise).
Defined.

